(** * opencode-pr-signature: the signature plugin, embedded and verified

    A shallow embedding of [src/plugin.ts]: the model namer
    ([formatModelName], [formatModelString]), the signature codec
    ([generateSignature], [hasSignature]), the command scanner
    ([findCommandEndIndex]), the shell rewriting of [git commit] and [gh]
    command lines and the [tool.execute.before] hook.

    JavaScript strings are sequences of UTF-16 code units; they are modelled
    as [list N].  Regular expressions are modelled by a small backtracking
    matcher that follows the ECMAScript matching order (leftmost start,
    alternatives left to right, greedy and lazy repetition, capture groups,
    back references, word boundaries). *)

From Stdlib Require Import String Ascii List NArith Bool Arith Lia.
Import ListNotations.

(* ===================================================================== *)
(** ** JavaScript strings *)
(* ===================================================================== *)

Module JsString.

(** A string value: its UTF-16 code units. *)
Definition jsstring := list N.

(** An ASCII literal of the source, as code units. *)
Definition js (s : string) : jsstring :=
  map N_of_ascii (list_ascii_of_string s).

(** Characters that Rocq string literals cannot carry conveniently. *)
Definition dquote : N := 34%N.     (* the double quote *)
Definition squote : N := 39%N.     (* the single quote *)
Definition backslash : N := 92%N.
Definition dollar : N := 36%N.
Definition newline : N := 10%N.

Definition jsstring_eqb (a b : jsstring) : bool :=
  if list_eq_dec N.eq_dec a b then true else false.

(** [WhiteSpace] and [LineTerminator] of ECMAScript: the characters removed
    by [trim], [trimEnd] and matched by the class escape [\s]. *)
Definition is_ws (c : N) : bool :=
  (((9 <=? c) && (c <=? 13)) ||
   (c =? 32) || (c =? 160) || (c =? 5760) ||
   ((8192 <=? c) && (c <=? 8202)) ||
   (c =? 8232) || (c =? 8233) || (c =? 8239) || (c =? 8287) ||
   (c =? 12288) || (c =? 65279))%N.

(** A text of ASCII characters only. *)
Definition is_ascii (s : jsstring) : bool := forallb (fun c => (c <? 128)%N) s.

(** [s.startsWith(p)] *)
Fixpoint startsWith (p s : jsstring) : bool :=
  match p, s with
  | [], _ => true
  | _ :: _, [] => false
  | a :: p', b :: s' => (a =? b)%N && startsWith p' s'
  end.

(** [s.includes(p)] *)
Fixpoint includes (p s : jsstring) : bool :=
  startsWith p s ||
  match s with
  | [] => false
  | _ :: s' => includes p s'
  end.

(** [s.indexOf(p)], [None] standing for -1. *)
Fixpoint indexOf (p s : jsstring) : option nat :=
  if startsWith p s then Some 0
  else match s with
       | [] => None
       | _ :: s' => option_map S (indexOf p s')
       end.

(** [s.slice(a, b)] and [s.slice(a)] for non-negative indices. *)
Definition slice (s : jsstring) (a b : nat) : jsstring :=
  firstn (b - a) (skipn a s).

Definition slice_from (s : jsstring) (a : nat) : jsstring := skipn a s.

(** [s.trimEnd()] *)
Fixpoint trimEnd (s : jsstring) : jsstring :=
  match s with
  | [] => []
  | c :: t =>
      match trimEnd t with
      | [] => if is_ws c then [] else [c]
      | t' => c :: t'
      end
  end.

(** [s.trimStart()] *)
Fixpoint trimStart (s : jsstring) : jsstring :=
  match s with
  | [] => []
  | c :: t => if is_ws c then trimStart t else s
  end.

(** [s.trim()] *)
Definition trim (s : jsstring) : jsstring := trimEnd (trimStart s).

(** Number of positions of [s] at which [p] occurs. *)
Fixpoint occurrences (p s : jsstring) : nat :=
  (if startsWith p s then 1 else 0) +
  match s with
  | [] => 0
  | _ :: s' => occurrences p s'
  end.

(** The replacement template of [String.prototype.replace] when the pattern
    is a string: [GetSubstitution] with no captures.  [$$] is a dollar,
    [$&] the matched text, [$`] the text before the match, [$'] the text
    after it; a dollar followed by anything else stands for itself. *)
Fixpoint getSubstitution (matched before after template : jsstring) : jsstring :=
  match template with
  | [] => []
  | c :: tl =>
      if (c =? dollar)%N then
        match tl with
        | [] => [c]
        | d :: rest =>
            if (d =? dollar)%N then dollar :: getSubstitution matched before after rest
            else if (d =? 38)%N then matched ++ getSubstitution matched before after rest
            else if (d =? 96)%N then before ++ getSubstitution matched before after rest
            else if (d =? squote)%N then after ++ getSubstitution matched before after rest
            else c :: getSubstitution matched before after tl
        end
      else c :: getSubstitution matched before after tl
  end.

(** A character that neither opens a template reference nor completes one. *)
Definition plain (c : N) : bool :=
  negb ((c =? dollar) || (c =? 38) || (c =? 96) || (c =? squote))%N.

(** A text without dollar: a template that stands for itself. *)
Definition no_dollar (s : jsstring) : bool :=
  forallb (fun c => negb (c =? dollar)%N) s.

(** [s.replace(pattern, replacement)] with a string pattern: the first
    occurrence only, the replacement read as a template. *)
Definition replace_string (s pattern replacement : jsstring) : jsstring :=
  match indexOf pattern s with
  | None => s
  | Some p =>
      let before := firstn p s in
      let after := skipn (p + length pattern) s in
      before ++ getSubstitution pattern before after replacement ++ after
  end.

End JsString.
Import JsString.

(* ===================================================================== *)
(** ** Regular expressions *)
(* ===================================================================== *)

Module RegExp.

(** A set of code units, as its membership test. *)
Definition cset := N -> bool.

(** The patterns the plugin uses: single characters and classes, sequence,
    alternation, capture groups, back references, [c*] and [c*?] over a
    class [c], and the assertion [\b].  A bounded repetition [c{n}] is
    written as [n] copies of [c], [c+] as [c c*], [c{n,}] as [c{n} c*]. *)
Inductive regex : Type :=
| Eps : regex
| Chr : cset -> regex
| Seq : regex -> regex -> regex
| Alt : regex -> regex -> regex
| Group : nat -> regex -> regex
| Backref : nat -> regex
| Star : bool -> cset -> regex      (* [true]: greedy, [false]: lazy *)
| WordB : regex.

(** A match state: the end index, the input from there on, the captures
    (group number, start index, end index), the latest first. *)
Record mstate : Type := MState {
  pos : nat;
  rest : jsstring;
  caps : list (nat * (nat * nat))
}.

Fixpoint capture (n : nat) (cs : list (nat * (nat * nat))) : option (nat * nat) :=
  match cs with
  | [] => None
  | (m, r) :: cs' => if Nat.eqb m n then Some r else capture n cs'
  end.

(** [\d], [\s], the word characters of [\b], and [\s\S]. *)
Definition digit : cset := fun c => ((48 <=? c) && (c <=? 57))%N.
Definition space : cset := is_ws.
Definition any : cset := fun c => is_ws c || negb (is_ws c).
Definition word_char : cset := fun c =>
  (((97 <=? c) && (c <=? 122)) || ((65 <=? c) && (c <=? 90)) ||
   ((48 <=? c) && (c <=? 57)) || (c =? 95))%N.

(** One character, exactly. *)
Definition exactly (p : N) : cset := fun c => (c =? p)%N.

(** One character under the flag [i]: [Canonicalize] maps a code unit to its
    upper case unless that would turn a non-ASCII unit into an ASCII one, so
    an ASCII pattern character matches its two ASCII cases and nothing else. *)
Definition ascii_upper (c : N) : N :=
  if ((97 <=? c) && (c <=? 122))%N then (c - 32)%N else c.
Definition ascii_lower (c : N) : N :=
  if ((65 <=? c) && (c <=? 90))%N then (c + 32)%N else c.
Definition ignoring_case (p : N) : cset :=
  fun c => (ascii_upper c =? ascii_upper p)%N.

Definition one_of (ps : list N) (other : cset) : cset :=
  fun c => existsb (N.eqb c) ps || other c.
Definition none : cset := fun _ => false.

Fixpoint seqs (rs : list regex) : regex :=
  match rs with
  | [] => Eps
  | [r] => r
  | r :: rs' => Seq r (seqs rs')
  end.

(** A literal text, with or without the flag [i]. *)
Definition lit (s : string) : regex := seqs (map (fun c => Chr (exactly c)) (js s)).
Definition liti (s : string) : regex := seqs (map (fun c => Chr (ignoring_case c)) (js s)).

Definition plus (c : cset) : regex := Seq (Chr c) (Star true c).
Definition times (n : nat) (c : cset) : regex := seqs (repeat (Chr c) n).

Section Matcher.

(** The whole input, for [\b] (the character before the position) and for
    back references (the captured text). *)
Variable input : jsstring.

(** [c*] and [c*?] from a position: the greedy form tries one more character
    first and falls back to the continuation, the lazy form the reverse. *)
Fixpoint star (greedy : bool) (c : cset) (k : mstate -> option mstate)
         (cs : list (nat * (nat * nat))) (r : jsstring) (p : nat) : option mstate :=
  match r with
  | [] => k (MState p r cs)
  | x :: t =>
      if c x then
        if greedy then
          match star greedy c k cs t (S p) with
          | Some e => Some e
          | None => k (MState p r cs)
          end
        else
          match k (MState p r cs) with
          | Some e => Some e
          | None => star greedy c k cs t (S p)
          end
      else k (MState p r cs)
  end.

Definition char_before (p : nat) : option N :=
  match p with
  | 0 => None
  | S q => nth_error input q
  end.

Definition is_word (c : option N) : bool :=
  match c with
  | Some x => word_char x
  | None => false
  end.

(** The backtracking matcher, in continuation-passing style as in the
    ECMAScript specification: [rmatch r st k] matches [r] at [st] and hands
    every candidate end state to [k], in priority order, until [k] accepts.
    A back reference compares the captured text exactly: the one pattern of
    the plugin that has a back reference has no flag [i]. *)
Fixpoint rmatch (r : regex) (st : mstate) (k : mstate -> option mstate) : option mstate :=
  match r with
  | Eps => k st
  | Chr c =>
      match rest st with
      | x :: t => if c x then k (MState (S (pos st)) t (caps st)) else None
      | [] => None
      end
  | Seq a b => rmatch a st (fun st' => rmatch b st' k)
  | Alt a b =>
      match rmatch a st k with
      | Some e => Some e
      | None => rmatch b st k
      end
  | Group n a =>
      rmatch a st (fun st' =>
        k (MState (pos st') (rest st') ((n, (pos st, pos st')) :: caps st')))
  | Backref n =>
      match capture n (caps st) with
      | None => k st
      | Some (a, b) =>
          let sub := slice input a b in
          if startsWith sub (rest st)
          then k (MState (pos st + length sub) (skipn (length sub) (rest st)) (caps st))
          else None
      end
  | Star greedy c => star greedy c k (caps st) (rest st) (pos st)
  | WordB =>
      if xorb (is_word (char_before (pos st))) (is_word (hd_error (rest st)))
      then k st else None
  end.

(** The leftmost match at or after a position. *)
Fixpoint search_from (r : regex) (s : jsstring) (p : nat) : option (nat * mstate) :=
  match rmatch r (MState p s []) Some with
  | Some e => Some (p, e)
  | None =>
      match s with
      | [] => None
      | _ :: t => search_from r t (S p)
      end
  end.

(** [s.replace(r, replacement)] for a pattern with the flag [g] and a
    replacement that holds no dollar (every replacement of the plugin):
    each match, left to right, is replaced; after an empty match the
    search moves one character on.  [skip] counts the characters of the
    current match still to be dropped. *)
Fixpoint replace_from (r : regex) (replacement : jsstring)
         (s : jsstring) (p skip : nat) : jsstring :=
  match skip with
  | S skip' =>
      match s with
      | [] => []
      | _ :: t => replace_from r replacement t (S p) skip'
      end
  | 0 =>
      match rmatch r (MState p s []) Some with
      | Some e =>
          match s with
          | [] => replacement
          | x :: t =>
              if Nat.eqb (pos e) p
              then replacement ++ x :: replace_from r replacement t (S p) 0
              else replacement ++ replace_from r replacement t (S p) (pos e - p - 1)
          end
      | None =>
          match s with
          | [] => []
          | x :: t => x :: replace_from r replacement t (S p) 0
          end
      end
  end.

End Matcher.

(** What it means for a pattern to match between two states, without the
    order in which the matcher tries the candidates. *)
Inductive matches (input : jsstring) : regex -> mstate -> mstate -> Prop :=
| M_Eps : forall st, matches input Eps st st
| M_Chr : forall (c : cset) x t p cs,
    c x = true ->
    matches input (Chr c) (MState p (x :: t) cs) (MState (S p) t cs)
| M_Seq : forall a b st1 st2 st3,
    matches input a st1 st2 -> matches input b st2 st3 ->
    matches input (Seq a b) st1 st3
| M_AltL : forall a b st st',
    matches input a st st' -> matches input (Alt a b) st st'
| M_AltR : forall a b st st',
    matches input b st st' -> matches input (Alt a b) st st'
| M_Group : forall n a st st',
    matches input a st st' ->
    matches input (Group n a) st
      (MState (pos st') (rest st') ((n, (pos st, pos st')) :: caps st'))
| M_BackrefUndefined : forall n st,
    capture n (caps st) = None -> matches input (Backref n) st st
| M_Backref : forall n st a b,
    capture n (caps st) = Some (a, b) ->
    startsWith (slice input a b) (rest st) = true ->
    matches input (Backref n) st
      (MState (pos st + length (slice input a b))
              (skipn (length (slice input a b)) (rest st)) (caps st))
| M_Star : forall g (c : cset) w t p cs,
    forallb c w = true ->
    matches input (Star g c) (MState p (w ++ t) cs) (MState (p + length w) t cs)
| M_WordB : forall st,
    xorb (is_word (char_before input (pos st))) (is_word (hd_error (rest st))) = true ->
    matches input WordB st st.

(** [r.exec(s)] for a pattern without the flag [g]: the index of the match
    and its end state. *)
Definition exec (r : regex) (s : jsstring) : option (nat * mstate) :=
  search_from s r s 0.

(** [r.test(s)] *)
Definition test (r : regex) (s : jsstring) : bool :=
  match exec r s with
  | Some _ => true
  | None => false
  end.

(** [s.replace(r, replacement)], [r] with the flag [g]. *)
Definition replace_all (r : regex) (replacement : jsstring) (s : jsstring) : jsstring :=
  replace_from s r replacement s 0 0.

(** The text of a capture group of a match, [None] for [undefined]. *)
Definition group_text (s : jsstring) (e : mstate) (n : nat) : option jsstring :=
  match capture n (caps e) with
  | Some (a, b) => Some (slice s a b)
  | None => None
  end.

End RegExp.
Import RegExp.

(* ===================================================================== *)
(** ** The plugin *)
(* ===================================================================== *)

Module Plugin.

(** *** Model namer *)

(** The argument of [formatModelName]:
    [{ providerID; modelID } | string | undefined]. *)
Inductive ModelIdentity : Type :=
| Undefined : ModelIdentity
| ModelString : jsstring -> ModelIdentity
| ModelObject : jsstring -> option jsstring -> ModelIdentity.

(** What [formatModelString] returns: a string, or, when the normalised
    identifier names a member that the table object inherits from
    [Object.prototype], that member. *)
Inductive display : Type :=
| Name : jsstring -> display
| Inherited : jsstring -> display.

Definition unknownModel : jsstring := js "Unknown Model".

(** [/-\d{4}-\d{2}-\d{2}/g], [/-[a-f0-9]{7,}/g] and [/@/g] *)
Definition dash : cset := exactly 45.
Definition hex : cset := fun c => (((97 <=? c) && (c <=? 102)) || ((48 <=? c) && (c <=? 57)))%N.
Definition dateRegex : regex :=
  seqs [Chr dash; times 4 digit; Chr dash; times 2 digit; Chr dash; times 2 digit].
Definition hashRegex : regex := seqs [Chr dash; times 7 hex; Star true hex].
Definition atRegex : regex := Chr (exactly 64).

(** [knownModels] of lines 46-60, in declaration order. *)
Definition knownModels : list (jsstring * jsstring) :=
  [ (js "kimi", js "Kimi");
    (js "kimi-for-coding", js "Kimi");
    (js "k2p5", js "K2.5");
    (js "claude", js "Claude");
    (js "claude-3", js "Claude 3");
    (js "claude-3-5-sonnet", js "Claude 3.5 Sonnet");
    (js "claude-3-5-sonnet-20241022", js "Claude 3.5 Sonnet");
    (js "gpt-4", js "GPT-4");
    (js "gpt-4o", js "GPT-4o");
    (js "gpt-4o-mini", js "GPT-4o Mini");
    (js "gemini", js "Gemini");
    (js "gemini-pro", js "Gemini Pro");
    (js "gemini-ultra", js "Gemini Ultra") ].

(** [knownModels] as the later revision of the file declares it (lines
    335-440), in declaration order. *)
Definition knownModelsExtended : list (jsstring * jsstring) :=
  [ (js "kimi", js "Kimi");
    (js "kimi-for-coding", js "Kimi");
    (js "k2p5", js "K2.5");
    (js "kimi-k2", js "Kimi K2");
    (js "moonshot-v1", js "Moonshot");
    (js "claude", js "Claude");
    (js "claude-3", js "Claude 3");
    (js "claude-3-opus", js "Claude 3 Opus");
    (js "claude-3-sonnet", js "Claude 3 Sonnet");
    (js "claude-3-haiku", js "Claude 3 Haiku");
    (js "claude-3-5-sonnet", js "Claude 3.5 Sonnet");
    (js "claude-3-5-haiku", js "Claude 3.5 Haiku");
    (js "claude-sonnet-4", js "Claude Sonnet 4");
    (js "claude-haiku-4", js "Claude Haiku 4");
    (js "claude-opus-4", js "Claude Opus 4");
    (js "claude-sonnet-4-5", js "Claude 4.5 Sonnet");
    (js "claude-haiku-4-5", js "Claude 4.5 Haiku");
    (js "claude-opus-4-5", js "Claude Opus 4.5");
    (js "gpt-4", js "GPT-4");
    (js "gpt-4-turbo", js "GPT-4 Turbo");
    (js "gpt-4o", js "GPT-4o");
    (js "gpt-4o-mini", js "GPT-4o Mini");
    (js "gpt-4-5", js "GPT-4.5");
    (js "gpt-5", js "GPT-5");
    (js "gpt-5-mini", js "GPT-5 Mini");
    (js "gpt-5-nano", js "GPT-5 Nano");
    (js "o1", js "o1");
    (js "o1-mini", js "o1 Mini");
    (js "o1-preview", js "o1 Preview");
    (js "o3", js "o3");
    (js "o3-mini", js "o3 Mini");
    (js "o4-mini", js "o4 Mini");
    (js "gemini", js "Gemini");
    (js "gemini-pro", js "Gemini Pro");
    (js "gemini-ultra", js "Gemini Ultra");
    (js "gemini-1-5-pro", js "Gemini 1.5 Pro");
    (js "gemini-1-5-flash", js "Gemini 1.5 Flash");
    (js "gemini-2-0-flash", js "Gemini 2.0 Flash");
    (js "gemini-2-5-pro", js "Gemini 2.5 Pro");
    (js "gemini-2-5-flash", js "Gemini 2.5 Flash");
    (js "gemini-3-pro", js "Gemini 3 Pro");
    (js "gemini-3-flash", js "Gemini 3 Flash");
    (js "deepseek", js "DeepSeek");
    (js "deepseek-chat", js "DeepSeek Chat");
    (js "deepseek-coder", js "DeepSeek Coder");
    (js "deepseek-v3", js "DeepSeek V3");
    (js "deepseek-r1", js "DeepSeek R1");
    (js "deepseek-r1-lite", js "DeepSeek R1 Lite");
    (js "llama", js "Llama");
    (js "llama-3", js "Llama 3");
    (js "llama-3-1", js "Llama 3.1");
    (js "llama-3-2", js "Llama 3.2");
    (js "llama-3-3", js "Llama 3.3");
    (js "llama-4", js "Llama 4");
    (js "llama-4-maverick", js "Llama 4 Maverick");
    (js "llama-4-scout", js "Llama 4 Scout");
    (js "mistral", js "Mistral");
    (js "mistral-large", js "Mistral Large");
    (js "mistral-medium", js "Mistral Medium");
    (js "mistral-small", js "Mistral Small");
    (js "mistral-nemo", js "Mistral Nemo");
    (js "codestral", js "Codestral");
    (js "pixtral-large", js "Pixtral Large");
    (js "qwen", js "Qwen");
    (js "qwen-2", js "Qwen 2");
    (js "qwen-2-5", js "Qwen 2.5");
    (js "qwen-turbo", js "Qwen Turbo");
    (js "qwen-plus", js "Qwen Plus");
    (js "qwen-max", js "Qwen Max");
    (js "qwq", js "QwQ");
    (js "grok", js "Grok");
    (js "grok-2", js "Grok 2");
    (js "grok-3", js "Grok 3");
    (js "grok-beta", js "Grok Beta");
    (js "command", js "Command");
    (js "command-r", js "Command R");
    (js "command-r-plus", js "Command R+");
    (js "command-a", js "Command A");
    (js "yi-lightning", js "Yi Lightning");
    (js "yi-large", js "Yi Large");
    (js "perplexity", js "Perplexity");
    (js "sonar-pro", js "Sonar Pro");
    (js "sonar-reasoning", js "Sonar Reasoning") ].

(** The names every object literal inherits from [Object.prototype]; each
    holds a function or an object, hence a truthy value. *)
Definition objectPrototype : list jsstring :=
  [ js "constructor"; js "__defineGetter__"; js "__defineSetter__";
    js "hasOwnProperty"; js "__lookupGetter__"; js "__lookupSetter__";
    js "isPrototypeOf"; js "propertyIsEnumerable"; js "toString";
    js "valueOf"; js "__proto__"; js "toLocaleString" ].

Fixpoint own (table : list (jsstring * jsstring)) (key : jsstring) : option jsstring :=
  match table with
  | [] => None
  | (k, v) :: table' => if jsstring_eqb k key then Some v else own table' key
  end.

Definition truthy (s : jsstring) : bool :=
  match s with
  | [] => false
  | _ :: _ => true
  end.

Section Namer.

(** [String.prototype.toLowerCase] and [toUpperCase]: the case tables of
    Unicode belong to the engine, not to the plugin. *)
Variable toLowerCase toUpperCase : jsstring -> jsstring.

(** The [for ... of Object.entries(knownModels)] loop. *)
Fixpoint partialMatch (table : list (jsstring * jsstring)) (cleanName : jsstring)
  : option jsstring :=
  match table with
  | [] => None
  | (key, value) :: table' =>
      if includes (toLowerCase key) (toLowerCase cleanName)
      then Some value
      else partialMatch table' cleanName
  end.

Definition cleanName (modelId : jsstring) : jsstring :=
  replace_all atRegex (js "/")
    (replace_all hashRegex []
       (replace_all dateRegex [] modelId)).

Definition capitalized (name : jsstring) : jsstring :=
  toUpperCase (firstn 1 name) ++ skipn 1 name.

Definition formatModelStringWith (table : list (jsstring * jsstring))
           (modelId : jsstring) : display :=
  if negb (truthy modelId) then Name unknownModel
  else
    let name := cleanName modelId in
    match own table name with
    | Some v =>
        if truthy v then Name v
        else match partialMatch table name with
             | Some value => Name value
             | None => Name (capitalized name)
             end
    | None =>
        if existsb (jsstring_eqb name) objectPrototype then Inherited name
        else match partialMatch table name with
             | Some value => Name value
             | None => Name (capitalized name)
             end
    end.

Definition formatModelString : jsstring -> display :=
  formatModelStringWith knownModels.

Definition formatModelName (model : ModelIdentity) : display :=
  match model with
  | Undefined => Name unknownModel
  | ModelString s =>
      if negb (truthy s) then Name unknownModel else formatModelString s
  | ModelObject _ (Some modelID) =>
      if truthy modelID then formatModelString modelID else Name unknownModel
  | ModelObject _ None => Name unknownModel
  end.

End Namer.

(** *** Signature codec *)

(** The robot emoji U+1F916, a surrogate pair. *)
Definition robot : jsstring := [55358%N; 56598%N].

Definition generateSignature (modelName : jsstring) : jsstring :=
  robot ++ js " Generated with [OpenCode](https://opencode.ai) (" ++ modelName ++ js ")".

Definition marker : jsstring := js "Generated with [OpenCode]".

Definition hasSignature (text : jsstring) : bool := includes marker text.

(** *** Command scanner *)

Definition separatorAt (remaining : jsstring) : bool :=
  startsWith (js "&&") remaining ||
  startsWith (js "||") remaining ||
  startsWith (js ";") remaining ||
  startsWith (js "|") remaining.

(** [prevChar !== "\\"], [prevChar] being the empty string at index 0. *)
Definition notBackslash (prevChar : option N) : bool :=
  match prevChar with
  | Some c => negb (c =? backslash)%N
  | None => true
  end.

(** The [while] loop of [findCommandEndIndex]: [remaining] is
    [command.slice(i)], [prevChar] is [command[i - 1]]. *)
Fixpoint scan (command remaining : jsstring) (prevChar : option N) (i : nat)
         (inSingleQuote inDoubleQuote : bool) : nat :=
  match remaining with
  | [] => length command
  | char :: remaining' =>
      if (char =? squote)%N && negb inDoubleQuote && notBackslash prevChar then
        scan command remaining' (Some char) (S i) (negb inSingleQuote) inDoubleQuote
      else if (char =? dquote)%N && negb inSingleQuote && notBackslash prevChar then
        scan command remaining' (Some char) (S i) inSingleQuote (negb inDoubleQuote)
      else if negb inSingleQuote && negb inDoubleQuote then
        if separatorAt remaining then i
        else scan command remaining' (Some char) (S i) inSingleQuote inDoubleQuote
      else scan command remaining' (Some char) (S i) inSingleQuote inDoubleQuote
  end.

Definition findCommandEndIndex (command : jsstring) (startIndex : nat) : nat :=
  scan command (skipn startIndex command) (char_before command startIndex)
       startIndex false false.

(** *** Rewriting shell commands *)

(** The two replacements of [escapeForShell]: every backslash becomes two
    backslashes, then every double quote a backslash and a double quote. *)
Definition escapeForShell (text : jsstring) : jsstring :=
  replace_all (Chr (exactly dquote)) [backslash; dquote]
    (replace_all (Chr (exactly backslash)) [backslash; backslash] text).

Definition quoteChar : cset := one_of [dquote; squote] none.

(** [/gh\s+(pr|issue)\s+(create|comment|review)\b/i] *)
Definition ghRegex : regex :=
  seqs [ liti "gh"; plus space;
         Group 1 (Alt (liti "pr") (liti "issue")); plus space;
         Group 2 (Alt (liti "create") (Alt (liti "comment") (liti "review")));
         WordB ].

Definition isGhCommandWithBody (command : jsstring) : bool := test ghRegex command.

(** The two patterns of [hasBodyFlag]: [\s(--body|-b)\s], and
    [\s(--body|-b)] followed by the class of the two quote characters. *)
Definition bodyFlagSpace : regex :=
  seqs [ Chr space; Group 1 (Alt (lit "--body") (lit "-b")); Chr space ].
Definition bodyFlagQuote : regex :=
  seqs [ Chr space; Group 1 (Alt (lit "--body") (lit "-b")); Chr quoteChar ].

Definition hasBodyFlag (command : jsstring) : bool :=
  test bodyFlagSpace command || test bodyFlagQuote command.

(** [bodyRegex]: [(--body|-b)\s*], the group of one quote character,
    the lazy group [([\s\S]*?)] and the back reference [\2]. *)
Definition bodyRegex : regex :=
  seqs [ Group 1 (Alt (lit "--body") (lit "-b")); Star true space;
         Group 2 (Chr quoteChar); Group 3 (Star false any); Backref 2 ].

(** The text of a group that took part in the match (every group of
    [bodyRegex] does, see [bodyRegex_groups]). *)
Definition defined (t : option jsstring) : jsstring :=
  match t with
  | Some s => s
  | None => []
  end.

(** The template [ --body "${escapedSignature}"], leading space included. *)
Definition bodyToken (escapedSignature : jsstring) : jsstring :=
  js " --body " ++ [dquote] ++ escapedSignature ++ [dquote].

Definition addSignatureToGhCommand (command signature : jsstring) (startIndex : nat)
  : jsstring :=
  let escapedSignature := escapeForShell signature in
  let endIndex := findCommandEndIndex command startIndex in
  let commandPart := slice command startIndex endIndex in
  let beforeCommand := slice command 0 startIndex in
  let afterCommand := slice_from command endIndex in
  if hasBodyFlag commandPart then
    match exec bodyRegex commandPart with
    | Some (index, e) =>
        let fullMatch := slice commandPart index (pos e) in
        let flag := defined (group_text commandPart e 1) in
        let quote := defined (group_text commandPart e 2) in
        let content := defined (group_text commandPart e 3) in
        let newContent := trimEnd content ++ js "\n\n" ++ escapedSignature in
        let newBody := flag ++ js " " ++ quote ++ newContent ++ quote in
        let modifiedPart := replace_string commandPart fullMatch newBody in
        beforeCommand ++ modifiedPart ++ afterCommand
    | None =>
        let trimmedPart := trimEnd commandPart in
        beforeCommand ++ trimmedPart ++ bodyToken escapedSignature ++ afterCommand
    end
  else
    let trimmedPart := trimEnd commandPart in
    beforeCommand ++ trimmedPart ++ bodyToken escapedSignature ++ afterCommand.

(** [/git\s+commit\b/i], and the message flag pattern with the flag [i]:
    [\s-m\s], or [\s-m] before a quote character, or [\s--message[=\s]]. *)
Definition gitCommitRegex : regex :=
  seqs [ liti "git"; plus space; liti "commit"; WordB ].
Definition messageFlagRegex : regex :=
  Alt (seqs [ Chr space; liti "-m"; Chr space ])
      (Alt (seqs [ Chr space; liti "-m"; Chr quoteChar ])
           (seqs [ Chr space; liti "--message"; Chr (one_of [61%N] space) ])).

(** The template [ -m "${escapedSignature}"], leading space included. *)
Definition messageToken (escapedSignature : jsstring) : jsstring :=
  js " -m " ++ [dquote] ++ escapedSignature ++ [dquote].

(** The command that the [bash] branch of [tool.execute.before] leaves in
    [output.args.command], given the command it found there and the
    signature of the current model. *)
Definition rewrite (command signature : jsstring) : jsstring :=
  if hasSignature command then command
  else
    let isGitCommit := test gitCommitRegex command in
    let hasMessageFlag := test messageFlagRegex command in
    if isGitCommit && hasMessageFlag then
      let escapedSignature := escapeForShell signature in
      match exec gitCommitRegex command with
      | Some (index, _) =>
          let endIndex := findCommandEndIndex command index in
          let beforeEnd := trimEnd (slice command 0 endIndex) in
          let afterEnd := slice_from command endIndex in
          beforeEnd ++ messageToken escapedSignature ++ afterEnd
      | None => command
      end
    else if isGhCommandWithBody command then
      match exec ghRegex command with
      | Some (index, _) => addSignatureToGhCommand command signature index
      | None => command
      end
    else command.

(** *** The hook [tool.execute.before] *)

(** [output.args], as far as the hook reads and writes it. *)
Record Args : Type := MkArgs {
  body : option jsstring;
  command : option jsstring
}.

(** The hook returns, leaving [output.args] in some state, or throws the
    [TypeError] of an assignment to a field of [undefined]. *)
Inductive outcome : Type :=
| Returned : option Args -> outcome
| TypeError : outcome.

Definition prIssueTools : list jsstring :=
  [ js "github_create_pull_request"; js "github_create_issue";
    js "github_update_pull_request"; js "github_update_issue";
    js "MCP_DOCKER_create_pull_request"; js "MCP_DOCKER_create_issue";
    js "MCP_DOCKER_update_pull_request"; js "MCP_DOCKER_update_issue" ].

(** [output.args?.f] as a condition: the field is there and not empty. *)
Definition present (f : option jsstring) : option jsstring :=
  match f with
  | Some s => if truthy s then Some s else None
  | None => None
  end.

Definition tool_execute_before (currentModel tool : jsstring) (args : option Args)
  : outcome :=
  if existsb (jsstring_eqb tool) prIssueTools then
    let signature := generateSignature currentModel in
    match args with
    | None => TypeError
    | Some a =>
        match present (body a) with
        | Some b =>
            if negb (hasSignature b)
            then Returned (Some (MkArgs (Some (trim b ++ [newline; newline] ++ signature))
                                        (command a)))
            else Returned (Some a)
        | None => Returned (Some (MkArgs (Some signature) (command a)))
        end
    end
  else if jsstring_eqb tool (js "bash") then
    match args with
    | Some a =>
        match present (command a) with
        | Some c =>
            Returned (Some (MkArgs (body a)
                                   (Some (rewrite c (generateSignature currentModel)))))
        | None => Returned args
        end
    | None => Returned args
    end
  else Returned args.

End Plugin.
Import Plugin.

(* ===================================================================== *)
(** ** The specification's vocabulary *)
(* ===================================================================== *)

Module Spec.

(** The three states of the quote-aware scanner. *)
Inductive qstate : Type := Unquoted | SingleQuoted | DoubleQuoted.

(** A character is unescaped when no backslash stands right before it. *)
Definition unescaped (command : jsstring) (i : nat) : bool :=
  match i with
  | 0 => true
  | S j =>
      match nth_error command j with
      | Some c => negb (c =? backslash)%N
      | None => true
      end
  end.

(** Only an unescaped quote character toggles, and only the state of its
    own kind or the unquoted state. *)
Definition toggle (q : qstate) (c : N) (unesc : bool) : qstate :=
  match q with
  | Unquoted =>
      if unesc && (c =? squote)%N then SingleQuoted
      else if unesc && (c =? dquote)%N then DoubleQuoted
      else Unquoted
  | SingleQuoted => if unesc && (c =? squote)%N then Unquoted else SingleQuoted
  | DoubleQuoted => if unesc && (c =? dquote)%N then Unquoted else DoubleQuoted
  end.

(** The state after the [n] characters that follow [start]. *)
Fixpoint quoteStateAfter (command : jsstring) (start n : nat) : qstate :=
  match n with
  | 0 => Unquoted
  | S n' =>
      let q := quoteStateAfter command start n' in
      match nth_error command (start + n') with
      | Some c => toggle q c (unescaped command (start + n'))
      | None => q
      end
  end.

(** The state in which the character at index [j] is read. *)
Definition quoteState (command : jsstring) (start j : nat) : qstate :=
  quoteStateAfter command start (j - start).

Definition separators : list jsstring := [js "&&"; js "||"; js ";"; js "|"].

(** A separator starts at index [j]. *)
Definition separatorStarts (command : jsstring) (j : nat) : bool :=
  existsb (fun sep => startsWith sep (skipn j command)) separators.

(** Index [j] is an end of the segment scanned from [start]: a separator at
    or after [start], outside the quoted regions. *)
Definition segmentEnd (command : jsstring) (start j : nat) : Prop :=
  start <= j /\ separatorStarts command j = true /\
  quoteState command start j = Unquoted.

(** Index [r] is the first segment end at or after [i], or the length of the
    command when there is none. *)
Definition scanned (command : jsstring) (start i r : nat) : Prop :=
  (i <= r /\ segmentEnd command start r /\
   forall j, i <= j -> j < r -> ~ segmentEnd command start j) \/
  (r = length command /\ forall j, i <= j -> ~ segmentEnd command start j).

(** The flags of the scanner, as a state. *)
Definition flags (q : qstate) : bool * bool :=
  match q with
  | Unquoted => (false, false)
  | SingleQuoted => (true, false)
  | DoubleQuoted => (false, true)
  end.

End Spec.
Import Spec.

(** The index at which a pattern first matches, [None] for no match. *)
Definition matchIndex (r : regex) (s : jsstring) : option nat :=
  match exec r s with
  | Some (index, _) => Some index
  | None => None
  end.

(** The chained line [cmd1 && TARGET && cmd3]. *)
Definition chained (cmd1 target cmd3 : jsstring) : jsstring :=
  cmd1 ++ js " && " ++ target ++ js " && " ++ cmd3.

(** The two families of the dispatch, as tests on a text: a commit with a
    message flag, and a [gh] subcommand. *)
Definition commitFamily (text : jsstring) : bool :=
  test gitCommitRegex text && test messageFlagRegex text.
Definition targeted (text : jsstring) : bool :=
  commitFamily text || isGhCommandWithBody text.

(** Where the segment that the dispatch selects starts: at the first match
    of [git commit] when the line belongs to the commit family, else at the
    first match of the [gh] pattern. *)
Definition targetIndex (line : jsstring) : option nat :=
  if commitFamily line then matchIndex gitCommitRegex line
  else matchIndex ghRegex line.

(** The result keeps [cmd1 && ] in front and [&& cmd3] behind. *)
Definition keepsFrame (cmd1 cmd3 result : jsstring) : Prop :=
  exists target', result = cmd1 ++ js " && " ++ target' ++ js "&& " ++ cmd3.

(** A body flag stands in the segment as a word of its own: white space,
    then [--body] or [-b], then white space or a quote character. *)
Definition bodyFlagOccurs (segment : jsstring) : Prop :=
  exists before w flag d after,
    segment = before ++ w :: flag ++ d :: after /\
    is_ws w = true /\
    (flag = js "--body" \/ flag = js "-b") /\
    (is_ws d = true \/ d = dquote \/ d = squote).

(** A body flag followed by white space: white space, then [--body] or
    [-b], then white space. *)
Definition spaceSeparatedFlagOccurs (segment : jsstring) : Prop :=
  exists before w flag d after,
    segment = before ++ w :: flag ++ d :: after /\
    is_ws w = true /\
    (flag = js "--body" \/ flag = js "-b") /\
    is_ws d = true.

(** The command lines and texts of the scenarios of the specification. *)
Module Examples.

Definition quoted (s : string) : jsstring := [dquote] ++ js s ++ [dquote].

Definition kimiSignatureText : jsstring :=
  robot ++ js " Generated with [OpenCode](https://opencode.ai) (Kimi)".

Definition quotedAnd : jsstring := js "git commit -m " ++ quoted "build && deploy".
Definition chainedAnd : jsstring := js "git commit -m " ++ quoted "msg" ++ js " && echo done".

Definition fixBug : jsstring := js "git commit -m " ++ quoted "fix bug".
Definition fixBugSigned : jsstring :=
  fixBug ++ js " -m " ++ [dquote] ++ kimiSignatureText ++ [dquote].

Definition prCreate : jsstring := js "gh pr create --title " ++ quoted "x".
Definition prCreateSigned : jsstring :=
  prCreate ++ js " --body " ++ [dquote] ++ kimiSignatureText ++ [dquote].

(** A body that starts with white space, and a display name that is the
    marker itself (the namer returns it for the model identifier of the
    same text). *)
Definition indentedBody : jsstring := js " hi".
Definition markerName : jsstring := js "Generated with [OpenCode]".
Definition createIssue : jsstring := js "github_create_issue".

(** A [gh] segment followed by a commit segment. *)
Definition prThenCommit : jsstring :=
  chained (js "ls") prCreate (js "git commit -m " ++ quoted "y").

(** A body given with an equals sign. *)
Definition bodyEquals : jsstring := js "gh pr create --body=" ++ quoted "text".
Definition bodyEqualsSigned : jsstring :=
  bodyEquals ++ js " --body " ++ [dquote] ++ kimiSignatureText ++ [dquote].

(** A body that holds display mathematics between dollars. *)
Definition mathBody : jsstring := js "gh pr create --body 'Energy: $$E=mc^2$$ ' --draft".
Definition mathBodyAppended : jsstring :=
  js "gh pr create --body 'Energy: $$E=mc^2$$\n\n" ++ kimiSignatureText ++ js "' --draft".
Definition mathBodyRewritten : jsstring :=
  js "gh pr create --body 'Energy: $E=mc^2$\n\n" ++ kimiSignatureText ++ js "' --draft".

(** A [gh] command whose title names a commit with a message flag. *)
Definition titleNamesCommit : jsstring :=
  js "gh pr create --title " ++ quoted "Fix git commit -m handling".

(** A body given with an equals sign, then a short flag with its value
    attached by a quote. *)
Definition bodyEqualsThenShort : jsstring :=
  js "gh pr create --body=" ++ quoted "text" ++ js " -b" ++ [squote] ++ js "x" ++ [squote].

End Examples.

(* ===================================================================== *)
(** ** The session: the hook [chat.message] *)
(* ===================================================================== *)

Module Session.

Section Session.
Variable toLowerCase toUpperCase : jsstring -> jsstring.

(** [if (input.model)]: an object is truthy, a string unless it is empty. *)
Definition modelGiven (model : ModelIdentity) : bool :=
  match model with
  | Undefined => false
  | ModelString s => truthy s
  | ModelObject _ _ => true
  end.

(** The hook [chat.message], as the value it leaves in [currentModel]. *)
Definition chat_message (currentModel : display) (model : ModelIdentity) : display :=
  if modelGiven model
  then formatModelName toLowerCase toUpperCase model
  else currentModel.

End Session.

(** [let currentModel = "Unknown Model"] *)
Definition initialModel : display := Name unknownModel.

(** The model of the last message that carries one. *)
Fixpoint lastGiven (models : list ModelIdentity) : option ModelIdentity :=
  match models with
  | [] => None
  | m :: models' =>
      match lastGiven models' with
      | Some m' => Some m'
      | None => if modelGiven m then Some m else None
      end
  end.

End Session.
Import Session.

(* ===================================================================== *)
(** ** More vocabulary *)
(* ===================================================================== *)

Module Reading.

(** How a shell reads the inside of a double-quoted word, as far as
    [escapeForShell] is concerned: a backslash before a backslash or a
    double quote stands for that character. *)
Fixpoint unescape (s : jsstring) : jsstring :=
  match s with
  | [] => []
  | c :: t =>
      if (c =? backslash)%N then
        match t with
        | d :: t' =>
            if (d =? backslash)%N || (d =? dquote)%N
            then d :: unescape t'
            else c :: unescape t
        | [] => [c]
        end
      else c :: unescape t
  end.

(** The character that [escapeForShell] must protect. *)
Definition special (c : N) : bool := (c =? backslash)%N || (c =? dquote)%N.

(** Two texts of the same length that agree up to the case of ASCII
    letters. *)
Fixpoint sameIgnoringCase (pattern text : jsstring) : bool :=
  match pattern, text with
  | [], [] => true
  | p :: pattern', c :: text' => ignoring_case p c && sameIgnoringCase pattern' text'
  | _, _ => false
  end.

(** The first character of a text is a word character. *)
Definition startsWithWord (text : jsstring) : bool := is_word (hd_error text).

(** What [escapeForShell] writes for one character. *)
Definition escaped (c : N) : jsstring :=
  if (c =? backslash)%N then [backslash; backslash]
  else if (c =? dquote)%N then [backslash; dquote]
  else [c].

(** The number of characters of [0-9a-f] that start a text. *)
Fixpoint hexrun (s : jsstring) : nat :=
  match s with
  | [] => 0
  | c :: t => if hex c then S (hexrun t) else 0
  end.

(** No hyphen of the text is followed by seven characters of [0-9a-f]:
    the pattern that the namer removes does not occur. *)
Fixpoint hashFree (s : jsstring) : bool :=
  match s with
  | [] => true
  | c :: t => negb (dash c && (7 <=? hexrun t)) && hashFree t
  end.







(** A commit command stands in the command line: [git] and [commit] in any
    case, white space between them, and no word character after. *)
Definition gitCommitOccurs (C : jsstring) : Prop :=
  exists before g ws c after,
    C = before ++ g ++ ws ++ c ++ after /\
    sameIgnoringCase (js "git") g = true /\
    ws <> [] /\ forallb is_ws ws = true /\
    sameIgnoringCase (js "commit") c = true /\
    startsWithWord after = false.

(** A message flag stands in the command line: white space, then [-m]
    before white space or a quote character, or [--message] before [=] or
    white space, the flag in any case. *)
Definition messageFlagOccurs (C : jsstring) : Prop :=
  exists before w f d after,
    C = before ++ w :: f ++ d :: after /\
    is_ws w = true /\
    ((sameIgnoringCase (js "-m") f = true /\
      (is_ws d = true \/ d = dquote \/ d = squote)) \/
     (sameIgnoringCase (js "--message") f = true /\
      (d = 61%N \/ is_ws d = true))).

(** A [gh] subcommand that takes a body stands in the command line: [gh],
    then [pr] or [issue], then [create], [comment] or [review], in any
    case, white space between them, and no word character after. *)
Definition ghCommandOccurs (C : jsstring) : Prop :=
  exists before g ws1 noun ws2 verb after,
    C = before ++ g ++ ws1 ++ noun ++ ws2 ++ verb ++ after /\
    sameIgnoringCase (js "gh") g = true /\
    ws1 <> [] /\ forallb is_ws ws1 = true /\
    (sameIgnoringCase (js "pr") noun = true \/
     sameIgnoringCase (js "issue") noun = true) /\
    ws2 <> [] /\ forallb is_ws ws2 = true /\
    (sameIgnoringCase (js "create") verb = true \/
     sameIgnoringCase (js "comment") verb = true \/
     sameIgnoringCase (js "review") verb = true) /\
    startsWithWord after = false.

End Reading.
Import Reading.

(* ===================================================================== *)
(** ** Facts about strings *)
(* ===================================================================== *)

Module JsStringFacts.

Lemma startsWith_app (p s : jsstring) : startsWith p (p ++ s) = true.
Proof.
  induction p as [|a p IH]; simpl; [reflexivity|].
  now rewrite N.eqb_refl.
Qed.

Lemma startsWith_inv (p s : jsstring) :
  startsWith p s = true -> exists t, s = p ++ t.
Proof.
  revert s; induction p as [|a p IH]; intros s H.
  - now exists s.
  - destruct s as [|b s]; simpl in H; [discriminate|].
    apply andb_true_iff in H as [Hab Hp].
    apply N.eqb_eq in Hab; subst b.
    destruct (IH _ Hp) as [t ->]. now exists t.
Qed.

Lemma startsWith_firstn (p s : jsstring) :
  startsWith p s = true -> firstn (length p) s = p.
Proof.
  intros H. destruct (startsWith_inv _ _ H) as [t ->].
  rewrite firstn_app, Nat.sub_diag, firstn_all. simpl. now rewrite app_nil_r.
Qed.

Lemma includes_startsWith (p s : jsstring) :
  startsWith p s = true -> includes p s = true.
Proof.
  intros H. destruct s; simpl; now rewrite H.
Qed.

Lemma includes_app (a p b : jsstring) : includes p (a ++ p ++ b) = true.
Proof.
  induction a as [|x a IH]; simpl.
  - apply includes_startsWith, startsWith_app.
  - rewrite IH. apply orb_true_r.
Qed.

Lemma includes_inv (p s : jsstring) :
  includes p s = true -> exists a b, s = a ++ p ++ b.
Proof.
  induction s as [|x s IH]; simpl; intros H.
  - rewrite orb_false_r in H. destruct (startsWith_inv _ _ H) as [t Ht].
    now exists [], t.
  - apply orb_true_iff in H as [H|H].
    + destruct (startsWith_inv _ _ H) as [t Ht]. now exists [], t.
    + destruct (IH H) as (a & b & ->). now exists (x :: a), b.
Qed.

(** A text that holds [p] still holds it inside a longer text. *)
Lemma includes_mid (p a s b : jsstring) :
  includes p s = true -> includes p (a ++ s ++ b) = true.
Proof.
  intros H. destruct (includes_inv _ _ H) as (u & v & ->).
  replace (a ++ (u ++ p ++ v) ++ b) with ((a ++ u) ++ p ++ (v ++ b)).
  - apply includes_app.
  - now rewrite <- !app_assoc.
Qed.

Lemma includes_app_r (p a s : jsstring) :
  includes p s = true -> includes p (a ++ s) = true.
Proof.
  intros H. rewrite <- (app_nil_r s). now apply includes_mid.
Qed.

Lemma includes_app_l (p s b : jsstring) :
  includes p s = true -> includes p (s ++ b) = true.
Proof.
  intros H. now apply (includes_mid p [] s b).
Qed.

(** [indexOf] finds the first occurrence whenever there is one. *)
Lemma indexOf_found (p s : jsstring) :
  includes p s = true ->
  exists i, indexOf p s = Some i /\ s = firstn i s ++ p ++ skipn (i + length p) s.
Proof.
  induction s as [|x s IH]; simpl; intros H.
  - rewrite orb_false_r in H. rewrite H. exists 0. split; [reflexivity|].
    destruct (startsWith_inv _ _ H) as [t Ht].
    destruct p; [reflexivity|discriminate].
  - destruct (startsWith p (x :: s)) eqn:E.
    + exists 0. split; [reflexivity|]. simpl.
      destruct (startsWith_inv _ _ E) as [t Ht]. rewrite Ht at 1.
      f_equal. rewrite Ht, skipn_app, Nat.sub_diag, skipn_all. reflexivity.
    + simpl in H. destruct (IH H) as (i & Hi & Hs).
      exists (S i). rewrite Hi. split; [reflexivity|].
      simpl. now f_equal.
Qed.

Lemma indexOf_none (p s : jsstring) :
  indexOf p s = None -> includes p s = false.
Proof.
  induction s as [|x s IH]; simpl.
  - destruct (startsWith p []); [discriminate|reflexivity].
  - destruct (startsWith p (x :: s)); [discriminate|].
    destruct (indexOf p s); [discriminate|]. intros _. now apply IH.
Qed.

(** [trimEnd] returns a prefix, and what it drops is white space. *)
Lemma trimEnd_prefix (s : jsstring) :
  exists w, s = trimEnd s ++ w /\ forallb is_ws w = true.
Proof.
  induction s as [|c s (w & Hs & Hw)]; [now exists []|].
  simpl. destruct (trimEnd s) as [|d t] eqn:E.
  - destruct (is_ws c) eqn:Hc.
    + exists (c :: s). split; [reflexivity|]. simpl in Hs. subst w.
      simpl. now rewrite Hc.
    + exists s. split; [reflexivity|]. simpl in Hs. now subst w.
  - exists w. split; [|assumption]. simpl. now rewrite Hs at 1.
Qed.

Lemma trimEnd_nonempty (c : N) (s : jsstring) :
  is_ws c = false -> trimEnd (c :: s) = c :: trimEnd s.
Proof.
  intros H. simpl. destruct (trimEnd s); [now rewrite H|reflexivity].
Qed.

(** White space after a character that is not white space never reaches
    back before it. *)
Lemma trimEnd_app (a : jsstring) (c : N) (b : jsstring) :
  is_ws c = false -> trimEnd (a ++ c :: b) = a ++ c :: trimEnd b.
Proof.
  intros H. induction a as [|x a IH]; simpl app.
  - now apply trimEnd_nonempty.
  - change (trimEnd (x :: a ++ c :: b)) with
      (match trimEnd (a ++ c :: b) with
       | [] => if is_ws x then [] else [x]
       | t' => x :: t'
       end).
    rewrite IH. destruct a; reflexivity.
Qed.

Lemma trimEnd_includes (p s : jsstring) :
  includes p (trimEnd s) = true -> includes p s = true.
Proof.
  destruct (trimEnd_prefix s) as (w & Hs & _). intros H.
  rewrite Hs. now apply includes_app_l.
Qed.

Lemma trimStart_suffix (s : jsstring) :
  exists w, s = w ++ trimStart s /\ forallb is_ws w = true.
Proof.
  induction s as [|c s (w & Hs & Hw)]; [now exists []|].
  simpl. destruct (is_ws c) eqn:Hc.
  - exists (c :: w). simpl. rewrite Hc, Hw. split; [now f_equal|reflexivity].
  - now exists [].
Qed.

Lemma trim_includes (p s : jsstring) :
  includes p (trim s) = true -> includes p s = true.
Proof.
  unfold trim. intros H. apply trimEnd_includes in H.
  destruct (trimStart_suffix s) as (w & Hs & _).
  rewrite Hs. now apply includes_app_r.
Qed.

End JsStringFacts.
Import JsStringFacts.

(* ===================================================================== *)
(** ** Facts about replacement *)
(* ===================================================================== *)

Module ReplaceFacts.

(** Replacing every character of a class is a [flat_map]. *)
Lemma replace_from_chr (input : jsstring) (c : cset) (replacement s : jsstring) (p : nat) :
  replace_from input (Chr c) replacement s p 0
  = flat_map (fun x => if c x then replacement else [x]) s.
Proof.
  revert p; induction s as [|x s IH]; intros p; [reflexivity|].
  cbn [replace_from rmatch rest pos caps flat_map]. destruct (c x).
  - simpl (pos _). rewrite (proj2 (Nat.eqb_neq (S p) p)) by lia.
    replace (S p - p - 1) with 0 by lia. now rewrite IH.
  - now rewrite IH.
Qed.

Lemma escapeForShell_flat_map (text : jsstring) :
  escapeForShell text
  = flat_map (fun x => if exactly dquote x then [backslash; dquote] else [x])
      (flat_map (fun x => if exactly backslash x then [backslash; backslash] else [x]) text).
Proof.
  unfold escapeForShell, replace_all. now rewrite !replace_from_chr.
Qed.

(** Escaping leaves the marker of a signature in place. *)
Lemma escapeForShell_hasSignature (text : jsstring) :
  hasSignature text = true -> hasSignature (escapeForShell text) = true.
Proof.
  unfold hasSignature. intros H.
  destruct (includes_inv _ _ H) as (a & b & ->).
  rewrite escapeForShell_flat_map, !flat_map_app.
  change (flat_map _ (flat_map _ marker)) with marker.
  apply includes_app.
Qed.

Lemma getSubstitution_plain (m b a w v : jsstring) :
  forallb plain w = true ->
  getSubstitution m b a (w ++ v) = w ++ getSubstitution m b a v.
Proof.
  induction w as [|c w IH]; intros H; [reflexivity|].
  simpl in H. apply andb_true_iff in H as [Hc Hw].
  unfold plain in Hc. rewrite !negb_orb in Hc.
  apply andb_true_iff in Hc as [Hc _]. apply andb_true_iff in Hc as [Hc _].
  apply andb_true_iff in Hc as [Hc _]. apply negb_true_iff in Hc.
  simpl. rewrite Hc. now rewrite IH.
Qed.

(** A text without template characters survives the expansion of the
    template around it. *)
Lemma getSubstitution_keeps (m b a w : jsstring) :
  w <> [] -> forallb plain w = true ->
  forall n u v, length u <= n ->
    exists u' v', getSubstitution m b a (u ++ w ++ v) = u' ++ w ++ v'.
Proof.
  intros Hne Hw. induction n as [|n IH]; intros u v Hu.
  - destruct u; [|simpl in Hu; lia].
    exists [], (getSubstitution m b a v). simpl. now apply getSubstitution_plain.
  - destruct u as [|c u].
    + exists [], (getSubstitution m b a v). simpl. now apply getSubstitution_plain.
    + simpl in Hu. simpl app. simpl getSubstitution.
      destruct (c =? dollar)%N.
      * destruct u as [|d u].
        -- destruct w as [|g w]; [contradiction|]. simpl app.
           assert (Hg : plain g = true) by (simpl in Hw; now apply andb_true_iff in Hw).
           unfold plain in Hg. apply negb_true_iff in Hg.
           apply orb_false_iff in Hg as [Hg Hg4]. apply orb_false_iff in Hg as [Hg Hg3].
           apply orb_false_iff in Hg as [Hg1 Hg2].
           rewrite Hg1, Hg2, Hg3, Hg4.
           destruct (IH [] v) as (u' & v' & E); [simpl; lia|].
           simpl app in E. rewrite E. now exists (c :: u'), v'.
        -- simpl app. simpl in Hu.
           destruct (IH u v) as (u1 & v1 & E1); [lia|].
           destruct (IH (d :: u) v) as (u2 & v2 & E2); [simpl; lia|].
           simpl app in E2.
           destruct (d =? dollar)%N; [rewrite E1; now exists (dollar :: u1), v1|].
           destruct (d =? 38)%N;
             [rewrite E1; exists (m ++ u1), v1; now rewrite <- app_assoc|].
           destruct (d =? 96)%N;
             [rewrite E1; exists (b ++ u1), v1; now rewrite <- app_assoc|].
           destruct (d =? squote)%N;
             [rewrite E1; exists (a ++ u1), v1; now rewrite <- app_assoc|].
           rewrite E2. now exists (c :: u2), v2.
      * destruct (IH u v) as (u' & v' & E); [lia|].
        rewrite E. now exists (c :: u'), v'.
Qed.

Lemma getSubstitution_hasSignature (m b a template : jsstring) :
  hasSignature template = true ->
  hasSignature (getSubstitution m b a template) = true.
Proof.
  unfold hasSignature. intros H.
  destruct (includes_inv _ _ H) as (u & v & ->).
  destruct (getSubstitution_keeps m b a marker) with (n := length u) (u := u) (v := v)
    as (u' & v' & E); [discriminate|reflexivity|lia|].
  rewrite E. apply includes_app.
Qed.

Lemma includes_slice (s : jsstring) (i j : nat) : includes (slice s i j) s = true.
Proof.
  unfold slice.
  rewrite <- (firstn_skipn i s) at 2.
  rewrite <- (firstn_skipn (j - i) (skipn i s)) at 2.
  apply includes_app.
Qed.

(** Replacing an occurrence by a template that holds a signature gives a
    text that holds one. *)
Lemma replace_string_hasSignature (s pattern replacement : jsstring) :
  includes pattern s = true ->
  hasSignature replacement = true ->
  hasSignature (replace_string s pattern replacement) = true.
Proof.
  intros Hp Hr. unfold replace_string.
  destruct (indexOf_found _ _ Hp) as (i & -> & _).
  apply includes_mid. now apply getSubstitution_hasSignature.
Qed.

End ReplaceFacts.
Import ReplaceFacts.

(* ===================================================================== *)
(** ** The rewrite is idempotent *)
(* ===================================================================== *)

Module RewriteFacts.

Lemma generateSignature_hasSignature (modelName : jsstring) :
  hasSignature (generateSignature modelName) = true.
Proof.
  exact (includes_app (robot ++ js " ") marker
           (js "(https://opencode.ai) (" ++ modelName ++ js ")")).
Qed.

Lemma messageToken_hasSignature (signature : jsstring) :
  hasSignature signature = true ->
  hasSignature (messageToken (escapeForShell signature)) = true.
Proof.
  intros H. unfold messageToken, hasSignature.
  apply (includes_mid marker (js " -m " ++ [dquote]) (escapeForShell signature) [dquote])
    with (1 := escapeForShell_hasSignature _ H).
Qed.

Lemma bodyToken_hasSignature (signature : jsstring) :
  hasSignature signature = true ->
  hasSignature (bodyToken (escapeForShell signature)) = true.
Proof.
  intros H. unfold bodyToken, hasSignature.
  apply (includes_mid marker (js " --body " ++ [dquote]) (escapeForShell signature) [dquote])
    with (1 := escapeForShell_hasSignature _ H).
Qed.

(** Whatever [addSignatureToGhCommand] returns holds the signature. *)
Lemma addSignatureToGhCommand_hasSignature (command signature : jsstring) (startIndex : nat) :
  hasSignature signature = true ->
  hasSignature (addSignatureToGhCommand command signature startIndex) = true.
Proof.
  intros H. unfold addSignatureToGhCommand.
  set (part := slice command startIndex (findCommandEndIndex command startIndex)).
  assert (Hfresh : forall a b,
             hasSignature (a ++ trimEnd part ++ bodyToken (escapeForShell signature) ++ b) = true).
  { intros a b. rewrite (app_assoc (trimEnd part)).
    apply includes_mid, includes_app_r. now apply bodyToken_hasSignature. }
  destruct (hasBodyFlag part); [|apply Hfresh].
  destruct (exec bodyRegex part) as [[index e]|]; [|apply Hfresh].
  apply includes_mid. apply replace_string_hasSignature.
  - apply includes_slice.
  - unfold hasSignature.
    rewrite !app_assoc. apply includes_app_l.
    rewrite <- !app_assoc. do 4 apply includes_app_r.
    now apply escapeForShell_hasSignature.
Qed.

(** A rewrite with a signature either changes nothing or leaves a command
    that holds the signature. *)
Lemma rewrite_unchanged_or_signed (command signature : jsstring) :
  hasSignature signature = true ->
  rewrite command signature = command \/
  hasSignature (rewrite command signature) = true.
Proof.
  intros H. unfold rewrite.
  destruct (hasSignature command); [now left|].
  destruct (test gitCommitRegex command && test messageFlagRegex command).
  - destruct (exec gitCommitRegex command) as [[index e]|]; [right|now left].
    apply includes_mid. now apply messageToken_hasSignature.
  - destruct (isGhCommandWithBody command); [|now left].
    destruct (exec ghRegex command) as [[index e]|]; [right|now left].
    now apply addSignatureToGhCommand_hasSignature.
Qed.

Lemma rewrite_idempotent_marked (command signature : jsstring) :
  hasSignature signature = true ->
  rewrite (rewrite command signature) signature = rewrite command signature.
Proof.
  intros H. destruct (rewrite_unchanged_or_signed command signature H) as [E|E].
  - now rewrite !E.
  - unfold rewrite at 1. now rewrite E.
Qed.

(** C1. Rewriting is idempotent: for every command line [C] and every
    signature [S] -- the signature rendered for a display name, which is all
    the hook ever passes -- [rewrite (rewrite C S) S = rewrite C S]; the
    second rewrite stops at the short circuit [hasSignature]. *)
Theorem rewrite_idempotent (C modelName : jsstring) :
  let S := generateSignature modelName in
  rewrite (rewrite C S) S = rewrite C S.
Proof.
  intros S. apply rewrite_idempotent_marked, generateSignature_hasSignature.
Qed.

End RewriteFacts.
Import RewriteFacts.

(* ===================================================================== *)
(** ** The command scanner *)
(* ===================================================================== *)

Module ScannerFacts.

Lemma unescaped_notBackslash (command : jsstring) (i : nat) :
  notBackslash (char_before command i) = unescaped command i.
Proof.
  destruct i as [|j]; [reflexivity|]. simpl.
  destruct (nth_error command j); reflexivity.
Qed.

Lemma separatorStarts_separatorAt (command : jsstring) (j : nat) :
  separatorStarts command j = separatorAt (skipn j command).
Proof.
  unfold separatorStarts, separatorAt, separators. simpl existsb.
  now rewrite orb_false_r, !orb_assoc.
Qed.

Lemma skipn_cons_nth (command : jsstring) (i : nat) (c : N) (r : jsstring) :
  skipn i command = c :: r ->
  nth_error command i = Some c /\ skipn (S i) command = r /\ i < length command.
Proof.
  revert command; induction i as [|i IH]; intros [|x command] H; try discriminate.
  - simpl in H. inversion H; subst. repeat split; simpl; lia.
  - simpl in H. destruct (IH _ H) as (H1 & H2 & H3).
    repeat split; simpl; try assumption; lia.
Qed.

Lemma skipn_nil_length (command : jsstring) (i : nat) :
  skipn i command = [] -> length command <= i.
Proof.
  revert command; induction i as [|i IH]; intros [|x command] H; simpl in *;
    try discriminate; try lia.
  apply IH in H. lia.
Qed.

Lemma quoteState_step (command : jsstring) (start i : nat) (c : N) :
  start <= i -> nth_error command i = Some c ->
  quoteState command start (S i)
  = toggle (quoteState command start i) c (unescaped command i).
Proof.
  intros Hle Hc. unfold quoteState.
  replace (S i - start) with (S (i - start)) by lia.
  simpl. replace (start + (i - start)) with i by lia. now rewrite Hc.
Qed.

Lemma scanned_step (command : jsstring) (start i r : nat) :
  ~ segmentEnd command start i ->
  scanned command start (S i) r -> scanned command start i r.
Proof.
  intros Hi [(Hle & Hr & Hfirst)|(Hr & Hnone)]; [left|right].
  - repeat split; [lia|apply Hr|apply Hr|apply Hr|].
    intros j Hj Hjr. destruct (Nat.eq_dec j i) as [->|Hne]; [assumption|].
    apply Hfirst; lia.
  - split; [assumption|]. intros j Hj.
    destruct (Nat.eq_dec j i) as [->|Hne]; [assumption|]. apply Hnone; lia.
Qed.

Lemma scanned_here (command : jsstring) (start i : nat) :
  segmentEnd command start i -> scanned command start i i.
Proof.
  intros H. left. repeat split; try apply H; [lia|]. intros j Hj Hji. lia.
Qed.

Lemma not_segmentEnd_quoted (command : jsstring) (start i : nat) :
  quoteState command start i <> Unquoted -> ~ segmentEnd command start i.
Proof. intros H (_ & _ & Hq). contradiction. Qed.

Lemma not_segmentEnd_char (command : jsstring) (start i : nat) :
  separatorAt (skipn i command) = false -> ~ segmentEnd command start i.
Proof.
  intros H (_ & Hs & _). rewrite separatorStarts_separatorAt in Hs. congruence.
Qed.

(** The loop, from any index and any state it can be in. *)
Lemma scan_scanned (command : jsstring) (start : nat) :
  forall remaining i q,
    skipn i command = remaining -> start <= i ->
    quoteState command start i = q ->
    scanned command start i
      (scan command remaining (char_before command i) i (fst (flags q)) (snd (flags q))).
Proof.
  induction remaining as [|char remaining IH]; intros i q Hskip Hle Hq.
  - right. split; [reflexivity|]. intros j Hj.
    apply not_segmentEnd_char.
    apply skipn_nil_length in Hskip. rewrite skipn_all2 by lia. reflexivity.
  - destruct (skipn_cons_nth _ _ _ _ Hskip) as (Hnth & Hskip' & Hlt).
    assert (Hq' := quoteState_step command start i char Hle Hnth). rewrite Hq in Hq'.
    specialize (IH (S i) _ Hskip' (Nat.le_trans _ _ _ Hle (Nat.le_succ_diag_r i)) Hq').
    change (char_before command (S i)) with (nth_error command i) in IH.
    rewrite Hnth in IH.
    cbn [scan]. rewrite unescaped_notBackslash.
    assert (Hsq : (char =? squote)%N = true -> separatorAt (skipn i command) = false).
    { intros E. apply N.eqb_eq in E. rewrite Hskip, E. reflexivity. }
    assert (Hdq : (char =? dquote)%N = true -> separatorAt (skipn i command) = false).
    { intros E. apply N.eqb_eq in E. rewrite Hskip, E. reflexivity. }
    destruct q; cbn [toggle] in IH;
      destruct (char =? squote)%N eqn:Es, (char =? dquote)%N eqn:Ed,
        (unescaped command i) eqn:Eu; cbn in IH |- *;
      try (apply scanned_step;
           [first [ apply not_segmentEnd_char; now auto
                  | apply not_segmentEnd_quoted; rewrite Hq; discriminate ]
           | exact IH ]);
      (destruct (separatorAt (char :: remaining)) eqn:Esep;
       [ apply scanned_here; repeat split;
         [ exact Hle | rewrite separatorStarts_separatorAt, Hskip; exact Esep | exact Hq ]
       | apply scanned_step;
         [ apply not_segmentEnd_char; rewrite Hskip; exact Esep | exact IH ] ]).
Qed.

(** The scanner returns the first segment end at or after the start index,
    or the length of the command. *)
Lemma findCommandEndIndex_scanned (command : jsstring) (start : nat) :
  scanned command start start (findCommandEndIndex command start).
Proof.
  unfold findCommandEndIndex.
  apply (scan_scanned command start (skipn start command) start Unquoted);
    [reflexivity|lia|].
  unfold quoteState. now rewrite Nat.sub_diag.
Qed.

End ScannerFacts.
Import ScannerFacts.

Module ScannerClaims.
Import Examples.

(** C3. [findCommandEndIndex] returns the first index at or after the start
    index at which a separator ([&&], [||], [;] or [|]) starts outside the
    quoted regions -- the quote state toggling on unescaped quote characters
    only -- or the length of the command when there is no such index.  On
    [git commit -m "build && deploy"] from 0 it returns the length; on
    [git commit -m "msg" && echo done] from 0 it returns the index of the
    [&&]. *)
Theorem findCommandEndIndex_first_separator :
  (forall command start,
      scanned command start start (findCommandEndIndex command start)) /\
  findCommandEndIndex quotedAnd 0 = length quotedAnd /\
  findCommandEndIndex chainedAnd 0 = 20 /\
  indexOf (js "&&") chainedAnd = Some 20.
Proof.
  split; [exact findCommandEndIndex_scanned|repeat split; reflexivity].
Qed.

End ScannerClaims.

(* ===================================================================== *)
(** ** The matcher and the matching relation *)
(* ===================================================================== *)

Module RegExpFacts.

Section Matcher.
Variable input : jsstring.

Lemma star_sound (g : bool) (c : cset) (k : mstate -> option mstate)
      (cs : list (nat * (nat * nat))) :
  forall r p e,
    star g c k cs r p = Some e ->
    exists w t, r = w ++ t /\ forallb c w = true /\
                k (MState (p + length w) t cs) = Some e.
Proof.
  induction r as [|x r IH]; intros p e H; simpl in H.
  - exists [], []. simpl. now rewrite Nat.add_0_r.
  - assert (Hstop : k (MState p (x :: r) cs) = Some e ->
                    exists w t, x :: r = w ++ t /\ forallb c w = true /\
                                k (MState (p + length w) t cs) = Some e).
    { intros Hk. exists [], (x :: r). simpl. now rewrite Nat.add_0_r. }
    assert (Hmore : star g c k cs r (S p) = Some e -> c x = true ->
                    exists w t, x :: r = w ++ t /\ forallb c w = true /\
                                k (MState (p + length w) t cs) = Some e).
    { intros Hs Hx. destruct (IH _ _ Hs) as (w & t & -> & Hw & Hk).
      exists (x :: w), t. simpl. rewrite Hx, Hw.
      replace (p + S (length w)) with (S p + length w) by lia. auto. }
    destruct (c x) eqn:Hx; [|auto].
    destruct g.
    + destruct (star true c k cs r (S p)) eqn:Hs; [inversion H; subst; auto|auto].
    + destruct (k (MState p (x :: r) cs)) eqn:Hk; [inversion H; subst; auto|auto].
Qed.

Lemma star_complete (g : bool) (c : cset) (k : mstate -> option mstate)
      (cs : list (nat * (nat * nat))) :
  forall w t p e,
    forallb c w = true ->
    k (MState (p + length w) t cs) = Some e ->
    exists e', star g c k cs (w ++ t) p = Some e'.
Proof.
  induction w as [|x w IH]; intros t p e Hw Hk.
  - simpl in Hk. rewrite Nat.add_0_r in Hk. simpl.
    destruct t as [|y t]; simpl; [eauto|].
    destruct (c y); [|eauto].
    destruct g.
    + destruct (star true c k cs t (S p)); eauto.
    + rewrite Hk. eauto.
  - simpl in Hw. apply andb_true_iff in Hw as [Hx Hw].
    simpl in Hk. replace (p + S (length w)) with (S p + length w) in Hk by lia.
    destruct (IH t (S p) e Hw Hk) as [e' He'].
    simpl. rewrite Hx. destruct g.
    + rewrite He'. eauto.
    + destruct (k (MState p (x :: w ++ t) cs)); eauto.
Qed.

(** Whatever the matcher returns was accepted by the continuation at a
    state that the pattern reaches. *)
Lemma rmatch_sound (r : regex) :
  forall st k e,
    rmatch input r st k = Some e ->
    exists st', matches input r st st' /\ k st' = Some e.
Proof.
  induction r as [|c|a IHa b IHb|a IHa b IHb|n a IHa|n|g c|]; intros st k e H; simpl in H.
  - exists st. split; [constructor|assumption].
  - destruct st as [p [|x t] cs]; simpl in H; [discriminate|].
    destruct (c x) eqn:Hx; [|discriminate].
    eexists. split; [now constructor|assumption].
  - destruct (IHa _ _ _ H) as (st1 & Ha & H1).
    destruct (IHb _ _ _ H1) as (st2 & Hb & H2).
    exists st2. split; [econstructor; eassumption|assumption].
  - destruct (rmatch input a st k) eqn:Ha.
    + inversion H; subst. destruct (IHa _ _ _ Ha) as (st1 & Hm & Hk).
      exists st1. split; [now apply M_AltL|assumption].
    + destruct (IHb _ _ _ H) as (st1 & Hm & Hk).
      exists st1. split; [now apply M_AltR|assumption].
  - destruct (IHa _ _ _ H) as (st1 & Hm & Hk).
    eexists. split; [apply M_Group; eassumption|assumption].
  - destruct (capture n (caps st)) as [[a b]|] eqn:Hc.
    + destruct (startsWith (slice input a b) (rest st)) eqn:Hs; [|discriminate].
      eexists. split; [eapply M_Backref; eassumption|assumption].
    + exists st. split; [now apply M_BackrefUndefined|assumption].
  - destruct st as [p r cs]. simpl in H.
    destruct (star_sound _ _ _ _ _ _ _ H) as (w & t & -> & Hw & Hk).
    eexists. split; [now apply M_Star|assumption].
  - destruct (xorb _ _) eqn:Hx; [|discriminate].
    exists st. split; [now apply M_WordB|assumption].
Qed.

(** If the pattern reaches a state that the continuation accepts, the
    matcher does not fail. *)
Lemma rmatch_complete (r : regex) (st st' : mstate) :
  matches input r st st' ->
  forall k e, k st' = Some e -> exists e', rmatch input r st k = Some e'.
Proof.
  induction 1 as [st|c x t p cs Hx|a b st1 st2 st3 _ IHa _ IHb|a b st st' _ IHa
                 |a b st st' _ IHb|n a st st' _ IHa|n st Hc|n st a b Hc Hs
                 |g c w t p cs Hw|st Hx]; intros k e Hk; simpl.
  - eauto.
  - rewrite Hx. eauto.
  - destruct (IHb _ _ Hk) as [e1 H1]. exact (IHa _ _ H1).
  - destruct (IHa _ _ Hk) as [e1 H1]. rewrite H1. eauto.
  - destruct (rmatch input a st k); eauto.
  - exact (IHa (fun st' => k (MState (pos st') (rest st') ((n, (pos st, pos st')) :: caps st')))
              _ Hk).
  - rewrite Hc. eauto.
  - rewrite Hc, Hs. eauto.
  - exact (star_complete g c k cs w t p e Hw Hk).
  - rewrite Hx. eauto.
Qed.

(** The search stops at the first index from which the matcher succeeds. *)
Lemma search_from_found (r : regex) :
  forall s p i e,
    search_from input r s p = Some (i, e) ->
    exists d, i = p + d /\ d <= length s /\
              rmatch input r (MState i (skipn d s) []) Some = Some e /\
              forall d', d' < d ->
                rmatch input r (MState (p + d') (skipn d' s) []) Some = None.
Proof.
  induction s as [|x s IH]; intros p i e H; simpl in H.
  - destruct (rmatch input r (MState p [] []) Some) eqn:Hm; [|discriminate].
    inversion H; subst. exists 0. rewrite Nat.add_0_r.
    repeat split; [lia|assumption|]. intros d' Hd. lia.
  - destruct (rmatch input r (MState p (x :: s) []) Some) eqn:Hm.
    + inversion H; subst. exists 0. rewrite Nat.add_0_r.
      repeat split; [lia|assumption|]. intros d' Hd. lia.
    + destruct (IH _ _ _ H) as (d & -> & Hd & Hr & Hmin).
      exists (S d). replace (p + S d) with (S p + d) by lia.
      repeat split; [simpl; lia|assumption|].
      intros [|d'] Hd'; [now rewrite Nat.add_0_r|].
      replace (p + S d') with (S p + d') by lia. apply Hmin. lia.
Qed.

Lemma search_from_none (r : regex) :
  forall s p,
    search_from input r s p = None ->
    forall d, d <= length s ->
      rmatch input r (MState (p + d) (skipn d s) []) Some = None.
Proof.
  induction s as [|x s IH]; intros p H d Hd; simpl in H.
  - simpl in Hd. replace d with 0 by lia. rewrite Nat.add_0_r. simpl.
    destruct (rmatch input r (MState p [] []) Some); [discriminate|reflexivity].
  - destruct (rmatch input r (MState p (x :: s) []) Some) eqn:Hm; [discriminate|].
    destruct d as [|d]; [now rewrite Nat.add_0_r|].
    replace (p + S d) with (S p + d) by lia. apply IH; [assumption|simpl in Hd; lia].
Qed.

End Matcher.

(** [exec] returns the leftmost index from which the pattern matches, with a
    state that the pattern reaches from there. *)
Lemma exec_found (r : regex) (s : jsstring) (i : nat) (e : mstate) :
  exec r s = Some (i, e) ->
  i <= length s /\
  matches s r (MState i (skipn i s) []) e /\
  forall j st, j < i -> ~ matches s r (MState j (skipn j s) []) st.
Proof.
  unfold exec. intros H.
  destruct (search_from_found s r s 0 i e H) as (d & Hi & Hd & Hr & Hmin).
  simpl in Hi. subst d. split; [assumption|]. split.
  - destruct (rmatch_sound s r _ _ _ Hr) as (st' & Hm & Hk).
    inversion Hk; subst. assumption.
  - intros j st Hj Hm.
    destruct (rmatch_complete s r _ _ Hm Some st eq_refl) as [e' He'].
    specialize (Hmin j Hj). simpl in Hmin. congruence.
Qed.

Lemma test_true (r : regex) (s : jsstring) :
  test r s = true ->
  exists i e, i <= length s /\ matches s r (MState i (skipn i s) []) e.
Proof.
  unfold test. destruct (exec r s) as [[i e]|] eqn:H; [|discriminate].
  intros _. exists i, e. destruct (exec_found r s i e H) as (Hi & Hm & _). auto.
Qed.

Lemma test_false (r : regex) (s : jsstring) (i : nat) (e : mstate) :
  test r s = false -> i <= length s ->
  ~ matches s r (MState i (skipn i s) []) e.
Proof.
  unfold test, exec. destruct (search_from s r s 0) eqn:H; [discriminate|].
  intros _ Hi Hm.
  destruct (rmatch_complete s r _ _ Hm Some e eq_refl) as [e' He'].
  pose proof (search_from_none s r s 0 H i Hi) as Hn. simpl in Hn. congruence.
Qed.

End RegExpFacts.
Import RegExpFacts.

(* ===================================================================== *)
(** ** Rewriting [git commit] and [gh] command lines *)
(* ===================================================================== *)

Module CommandFacts.

Lemma ignoring_case_cases (p x : N) :
  ignoring_case p x = true ->
  x = ascii_upper p \/ x = (ascii_upper p + 32)%N.
Proof.
  unfold ignoring_case. intros H. apply N.eqb_eq in H. revert H.
  unfold ascii_upper at 1.
  destruct ((97 <=? x) && (x <=? 122))%N eqn:E; intros H; [right|now left].
  apply andb_true_iff in E as [E1 _]. apply N.leb_le in E1. lia.
Qed.

(** A pattern that starts with a character matches where that character is. *)
Lemma matches_first_char (input : jsstring) (c : cset) (a b : regex) (st e : mstate) :
  matches input (Seq (Seq (Chr c) a) b) st e ->
  exists x t, rest st = x :: t /\ c x = true.
Proof.
  intros H. inversion H as [| |? ? ? st2 ? H1 H2| | | | | | |]; subst.
  inversion H1 as [| |? ? ? st3 ? H3 H4| | | | | | |]; subst.
  inversion H3; subst. simpl. eauto.
Qed.

Lemma firstn_split (s : jsstring) (i e : nat) :
  i <= e -> firstn e s = firstn i s ++ firstn (e - i) (skipn i s).
Proof.
  intros H. rewrite <- (firstn_skipn i s) at 1.
  rewrite firstn_app.
  destruct (Nat.le_gt_cases i (length s)) as [Hi|Hi].
  - rewrite length_firstn, Nat.min_l by assumption.
    rewrite firstn_all2; [reflexivity|]. rewrite length_firstn. lia.
  - rewrite (skipn_all2 s) by lia. rewrite !firstn_nil, !app_nil_r.
    rewrite !firstn_all2; try reflexivity; try lia.
    rewrite length_firstn. lia.
Qed.

(** The scanner started on a character that neither is a quote nor starts a
    separator moves past it. *)
Lemma findCommandEndIndex_past (command : jsstring) (i : nat) (x : N) (t : jsstring) :
  skipn i command = x :: t -> separatorAt (x :: t) = false ->
  i < findCommandEndIndex command i.
Proof.
  intros Hs Hsep.
  destruct (skipn_cons_nth _ _ _ _ Hs) as (_ & _ & Hlt).
  destruct (findCommandEndIndex_scanned command i)
    as [(Hle & Hend & _)|(-> & _)]; [|assumption].
  destruct (Nat.eq_dec (findCommandEndIndex command i) i) as [E|E]; [|lia].
  rewrite E in Hend. exfalso. revert Hend. apply not_segmentEnd_char.
  now rewrite Hs.
Qed.

(** A match of [git commit] or of [gh ...] starts on a letter [g], which is
    no white space and starts no separator. *)
Lemma starts_with_g (command : jsstring) (i : nat) (c : cset) (a b : regex) (e : mstate) :
  c = ignoring_case 103 ->
  matches command (Seq (Seq (Chr c) a) b) (MState i (skipn i command) []) e ->
  exists x t, skipn i command = x :: t /\ is_ws x = false /\
              separatorAt (x :: t) = false.
Proof.
  intros -> H. apply matches_first_char in H as (x & t & Hr & Hx).
  simpl in Hr. exists x, t. split; [assumption|].
  apply ignoring_case_cases in Hx as [->| ->]; split; reflexivity.
Qed.

(** The text up to the end of a segment, trimmed, is the text before the
    segment followed by the trimmed segment, when the segment starts on a
    character that is no white space. *)
Lemma trimEnd_segment (command : jsstring) (i e : nat) (x : N) (t : jsstring) :
  skipn i command = x :: t -> is_ws x = false -> i < e ->
  trimEnd (slice command 0 e) = firstn i command ++ trimEnd (slice command i e).
Proof.
  intros Hs Hx Hlt. unfold slice. simpl skipn. rewrite Nat.sub_0_r.
  rewrite (firstn_split command i e) by lia. rewrite Hs.
  destruct (e - i) as [|n] eqn:E; [lia|]. simpl firstn.
  rewrite trimEnd_app by assumption. now rewrite trimEnd_nonempty.
Qed.

Lemma matchIndex_exec (r : regex) (s : jsstring) (index : nat) :
  matchIndex r s = Some index ->
  exists e, exec r s = Some (index, e) /\ test r s = true.
Proof.
  unfold matchIndex, test. destruct (exec r s) as [[i e]|]; [|discriminate].
  intros H. inversion H; subst. eauto.
Qed.

(** The rewrite of a [git commit] line with a message flag. *)
Lemma rewrite_git_commit (C S : jsstring) (index : nat) :
  hasSignature C = false ->
  matchIndex gitCommitRegex C = Some index ->
  test messageFlagRegex C = true ->
  index < findCommandEndIndex C index /\
  rewrite C S
  = firstn index C ++ trimEnd (slice C index (findCommandEndIndex C index))
    ++ messageToken (escapeForShell S) ++ skipn (findCommandEndIndex C index) C.
Proof.
  intros Hsig Hidx Hflag.
  destruct (matchIndex_exec _ _ _ Hidx) as (e & He & Ht).
  destruct (exec_found _ _ _ _ He) as (_ & Hm & _).
  destruct (starts_with_g C index _ _ _ e eq_refl Hm) as (x & t & Hs & Hx & Hsep).
  pose proof (findCommandEndIndex_past C index x t Hs Hsep) as Hlt.
  split; [assumption|].
  unfold rewrite. rewrite Hsig, Ht, Hflag, He. cbn [andb].
  rewrite (trimEnd_segment C index _ x t Hs Hx Hlt).
  unfold slice_from. now rewrite <- !app_assoc.
Qed.

(** The rewrite of a [gh] line that is not also a [git commit] line. *)
Lemma rewrite_gh (C S : jsstring) (index : nat) :
  hasSignature C = false ->
  test gitCommitRegex C && test messageFlagRegex C = false ->
  matchIndex ghRegex C = Some index ->
  rewrite C S = addSignatureToGhCommand C S index.
Proof.
  intros Hsig Hgit Hidx.
  destruct (matchIndex_exec _ _ _ Hidx) as (e & He & Ht).
  unfold rewrite, isGhCommandWithBody. now rewrite Hsig, Hgit, Ht, He.
Qed.

(** [addSignatureToGhCommand] on a segment without a body flag. *)
Lemma addSignature_without_body_flag (C S : jsstring) (index : nat) :
  hasBodyFlag (slice C index (findCommandEndIndex C index)) = false ->
  addSignatureToGhCommand C S index
  = firstn index C ++ trimEnd (slice C index (findCommandEndIndex C index))
    ++ bodyToken (escapeForShell S) ++ skipn (findCommandEndIndex C index) C.
Proof.
  intros H. unfold addSignatureToGhCommand. rewrite H.
  unfold slice at 1. simpl skipn. now rewrite Nat.sub_0_r.
Qed.

End CommandFacts.
Import CommandFacts.

Module CommandClaims.
Import Examples.

(** C6. For every command line that matches [git commit], carries a message
    flag and does not hold the signature marker, the rewrite inserts the
    token [-m "<escaped signature>"] right before the end of the matched
    segment, after trimming the white space that ends the segment, and
    leaves everything from the separator on untouched.  With the display
    name Kimi, [git commit -m "fix bug"] becomes
    [git commit -m "fix bug" -m "<robot> Generated with
    [OpenCode](https://opencode.ai) (Kimi)"]. *)
Theorem git_commit_gets_message_token :
  (forall C S index,
      hasSignature C = false ->
      matchIndex gitCommitRegex C = Some index ->
      test messageFlagRegex C = true ->
      let endIndex := findCommandEndIndex C index in
      index < endIndex /\
      rewrite C S
      = firstn index C ++ trimEnd (slice C index endIndex)
        ++ js " -m " ++ [dquote] ++ escapeForShell S ++ [dquote]
        ++ slice_from C endIndex) /\
  rewrite fixBug (generateSignature (js "Kimi")) = fixBugSigned.
Proof.
  split; [|reflexivity].
  intros C S index Hsig Hidx Hflag endIndex.
  destruct (rewrite_git_commit C S index Hsig Hidx Hflag) as [Hlt E].
  split; [assumption|]. rewrite E. unfold messageToken, slice_from.
  now rewrite <- !app_assoc.
Qed.

Lemma git_commit_gets_message_token_witness :
  hasSignature fixBug = false /\
  matchIndex gitCommitRegex fixBug = Some 0 /\
  test messageFlagRegex fixBug = true /\
  0 < findCommandEndIndex fixBug 0 /\
  rewrite fixBug (generateSignature (js "Kimi"))
  = firstn 0 fixBug ++ trimEnd (slice fixBug 0 (findCommandEndIndex fixBug 0))
    ++ js " -m " ++ [dquote] ++ escapeForShell (generateSignature (js "Kimi")) ++ [dquote]
    ++ slice_from fixBug (findCommandEndIndex fixBug 0).
Proof.
  split; [reflexivity|]. split; [reflexivity|]. split; [reflexivity|].
  apply (proj1 git_commit_gets_message_token fixBug (generateSignature (js "Kimi")) 0);
    reflexivity.
Defined.

(** Against C7 as stated.  The commit family is tried first, on the whole
    line: a [gh] command without body flag whose title names a commit with
    a message flag gets the token [-m], and no token [--body]. *)
Lemma gh_title_naming_commit_gets_message_token :
  hasSignature titleNamesCommit = false /\
  matchIndex ghRegex titleNamesCommit = Some 0 /\
  slice titleNamesCommit 0 (findCommandEndIndex titleNamesCommit 0) = titleNamesCommit /\
  hasBodyFlag titleNamesCommit = false /\
  rewrite titleNamesCommit (generateSignature (js "Kimi"))
  = titleNamesCommit
    ++ js " -m " ++ [dquote] ++ escapeForShell (generateSignature (js "Kimi")) ++ [dquote] /\
  rewrite titleNamesCommit (generateSignature (js "Kimi"))
  <> titleNamesCommit
     ++ js " --body " ++ [dquote] ++ escapeForShell (generateSignature (js "Kimi")) ++ [dquote].
Proof.
  do 5 (split; [vm_compute; reflexivity|]).
  intros H. vm_compute in H. discriminate H.
Qed.

(** C7, as amended.  For every command line that does not hold the
    signature marker and does not belong to the commit family ([git commit]
    with a message flag anywhere in the line, which is tried first), when
    the [gh pr|issue create|comment|review] pattern first matches at an
    index and the segment from there to where the scanner stops holds no
    body flag, the rewrite appends the token [--body "<escaped signature>"]
    at the end of the segment, after trimming the white space that ends the
    segment.  With the display name Kimi, [gh pr create --title "x"]
    becomes [gh pr create --title "x" --body "<robot> Generated with
    [OpenCode](https://opencode.ai) (Kimi)"]. *)
Theorem gh_without_body_gets_body_token :
  (forall C S index,
      hasSignature C = false ->
      test gitCommitRegex C && test messageFlagRegex C = false ->
      matchIndex ghRegex C = Some index ->
      let endIndex := findCommandEndIndex C index in
      hasBodyFlag (slice C index endIndex) = false ->
      rewrite C S
      = firstn index C ++ trimEnd (slice C index endIndex)
        ++ js " --body " ++ [dquote] ++ escapeForShell S ++ [dquote]
        ++ slice_from C endIndex) /\
  rewrite prCreate (generateSignature (js "Kimi")) = prCreateSigned.
Proof.
  split; [|reflexivity].
  intros C S index Hsig Hgit Hidx endIndex Hbody.
  rewrite (rewrite_gh C S index Hsig Hgit Hidx).
  rewrite (addSignature_without_body_flag C S index Hbody).
  unfold bodyToken, slice_from. now rewrite <- !app_assoc.
Qed.

Lemma gh_without_body_gets_body_token_witness :
  hasSignature prCreate = false /\
  test gitCommitRegex prCreate && test messageFlagRegex prCreate = false /\
  matchIndex ghRegex prCreate = Some 0 /\
  hasBodyFlag (slice prCreate 0 (findCommandEndIndex prCreate 0)) = false /\
  rewrite prCreate (generateSignature (js "Kimi"))
  = firstn 0 prCreate ++ trimEnd (slice prCreate 0 (findCommandEndIndex prCreate 0))
    ++ js " --body " ++ [dquote] ++ escapeForShell (generateSignature (js "Kimi")) ++ [dquote]
    ++ slice_from prCreate (findCommandEndIndex prCreate 0).
Proof.
  split; [reflexivity|]. split; [reflexivity|]. split; [reflexivity|].
  split; [reflexivity|].
  apply (proj1 gh_without_body_gets_body_token prCreate (generateSignature (js "Kimi")) 0);
    reflexivity.
Defined.

End CommandClaims.

(* ===================================================================== *)
(** ** The structured tools *)
(* ===================================================================== *)

Module HookFacts.

Lemma jsstring_eqb_refl (s : jsstring) : jsstring_eqb s s = true.
Proof. unfold jsstring_eqb. destruct (list_eq_dec N.eq_dec s s); congruence. Qed.

Lemma prIssueTools_includes (tool : jsstring) :
  In tool prIssueTools -> existsb (jsstring_eqb tool) prIssueTools = true.
Proof.
  intros H. apply existsb_exists. exists tool. split; [assumption|].
  apply jsstring_eqb_refl.
Qed.

Lemma present_nonempty (b : jsstring) : b <> [] -> present (Some b) = Some b.
Proof. destruct b; [congruence|reflexivity]. Qed.

(** A character that the pattern does not hold cannot be part of an
    occurrence. *)
Lemma startsWith_cut (c : N) (b : jsstring) :
  forall p a, existsb (N.eqb c) p = false ->
              startsWith p (a ++ c :: b) = startsWith p a.
Proof.
  induction p as [|x p IH]; intros a H; [destruct a; reflexivity|].
  simpl in H. apply orb_false_iff in H as [Hx Hp].
  destruct a as [|y a]; simpl.
  - rewrite N.eqb_sym, Hx. reflexivity.
  - now rewrite IH.
Qed.

Lemma occurrences_cut (p : jsstring) (c : N) (b : jsstring) :
  p <> [] -> existsb (N.eqb c) p = false ->
  forall a, occurrences p (a ++ c :: b) = occurrences p a + occurrences p b.
Proof.
  intros Hne Hc. induction a as [|y a IH].
  - simpl app. destruct p as [|x p]; [contradiction|].
    simpl in Hc. apply orb_false_iff in Hc as [Hx _].
    simpl. now rewrite N.eqb_sym, Hx.
  - change ((y :: a) ++ c :: b) with (y :: (a ++ c :: b)).
    change (occurrences p (y :: a ++ c :: b))
      with ((if startsWith p (y :: (a ++ c :: b)) then 1 else 0)
            + occurrences p (a ++ c :: b)).
    change (occurrences p (y :: a))
      with ((if startsWith p (y :: a) then 1 else 0) + occurrences p a).
    rewrite IH.
    change (y :: (a ++ c :: b)) with ((y :: a) ++ c :: b).
    rewrite (startsWith_cut c b p (y :: a) Hc). lia.
Qed.

Lemma occurrences_none (p s : jsstring) :
  includes p s = false -> occurrences p s = 0.
Proof.
  induction s as [|x s IH]; simpl; intros H.
  - rewrite orb_false_r in H. now rewrite H.
  - apply orb_false_iff in H as [H1 H2]. rewrite H1. now apply IH.
Qed.

(** The signature of a display name that does not itself hold the marker
    holds it exactly once, also after a text that does not hold it. *)
Lemma occurrences_signed (text modelName : jsstring) :
  hasSignature text = false -> hasSignature modelName = false ->
  occurrences marker (text ++ [newline; newline] ++ generateSignature modelName) = 1.
Proof.
  intros Ht Hm.
  assert (Hne : marker <> []) by discriminate.
  change (text ++ [newline; newline] ++ generateSignature modelName)
    with (text ++ 10%N :: ([] ++ 10%N :: ([] ++ 55358%N :: ([] ++ 56598%N ::
            (js " Generated with [OpenCode]" ++ 40%N ::
               (js "https://opencode.ai) " ++ 40%N :: (modelName ++ 41%N :: []))))))).
  rewrite !(occurrences_cut marker _ _ Hne) by reflexivity.
  rewrite (occurrences_none _ _ Ht), (occurrences_none _ _ Hm). reflexivity.
Qed.

Lemma occurrences_signature (modelName : jsstring) :
  hasSignature modelName = false ->
  occurrences marker (generateSignature modelName) = 1.
Proof.
  intros Hm. apply (occurrences_signed [] modelName eq_refl) in Hm.
  assert (Hne : marker <> []) by discriminate.
  change ([] ++ [newline; newline] ++ generateSignature modelName)
    with ([] ++ 10%N :: ([] ++ 10%N :: generateSignature modelName)) in Hm.
  rewrite !(occurrences_cut marker _ _ Hne) in Hm by reflexivity.
  exact Hm.
Qed.

Lemma trim_hasSignature (b : jsstring) :
  hasSignature b = false -> hasSignature (trim b) = false.
Proof.
  unfold hasSignature. intros H.
  destruct (includes marker (trim b)) eqn:E; [|reflexivity].
  apply trim_includes in E. congruence.
Qed.

(** What the hook does to the arguments of a structured tool. *)
Lemma structured_tool (currentModel tool : jsstring) (a : Args) :
  In tool prIssueTools ->
  tool_execute_before currentModel tool (Some a)
  = match present (body a) with
    | Some b =>
        if hasSignature b then Returned (Some a)
        else Returned (Some (MkArgs
               (Some (trim b ++ [newline; newline] ++ generateSignature currentModel))
               (command a)))
    | None => Returned (Some (MkArgs (Some (generateSignature currentModel)) (command a)))
    end.
Proof.
  intros H. unfold tool_execute_before. rewrite (prIssueTools_includes tool H).
  destruct (present (body a)) as [b|]; [|reflexivity].
  destruct (hasSignature b); reflexivity.
Qed.

End HookFacts.
Import HookFacts.

Module HookClaims.
Import Examples.

(** Against C2 as stated.  The hook removes the white space that starts the
    body as well: on the body [" hi"] the result is not the body with only its trailing white
    space removed, two newlines and the signature. *)
Lemma structured_body_loses_leading_space :
  present (Some indentedBody) = Some indentedBody /\
  hasSignature indentedBody = false /\
  tool_execute_before (js "Kimi") createIssue (Some (MkArgs (Some indentedBody) None))
  <> Returned (Some (MkArgs
       (Some (trimEnd indentedBody ++ [newline; newline] ++ generateSignature (js "Kimi")))
       None)).
Proof.
  repeat split. intros H. vm_compute in H. discriminate H.
Qed.

(** C2, as amended.  For every structured PR or issue tool whose arguments
    carry a body that is present, not empty and without the signature
    marker, the hook sets the body to the original body with its leading
    and its trailing white space removed ([trim]), then two newline
    characters, then the rendered signature. *)
Theorem structured_body_trimmed_and_signed (currentModel tool : jsstring) (a : Args)
        (b : jsstring) :
  In tool prIssueTools ->
  body a = Some b -> b <> [] -> hasSignature b = false ->
  tool_execute_before currentModel tool (Some a)
  = Returned (Some (MkArgs
      (Some (trimEnd (trimStart b) ++ [newline; newline] ++ generateSignature currentModel))
      (command a))).
Proof.
  intros Htool Hbody Hne Hsig.
  rewrite (structured_tool currentModel tool a Htool), Hbody.
  rewrite (present_nonempty b Hne), Hsig. reflexivity.
Qed.

Lemma structured_body_trimmed_and_signed_witness :
  In createIssue prIssueTools /\
  js " hi  " <> [] /\
  hasSignature (js " hi  ") = false /\
  tool_execute_before (js "Kimi") createIssue (Some (MkArgs (Some (js " hi  ")) None))
  = Returned (Some (MkArgs
      (Some (js "hi" ++ [newline; newline] ++ generateSignature (js "Kimi"))) None)).
Proof.
  split; [right; left; reflexivity|]. split; [discriminate|]. split; [reflexivity|].
  apply (structured_body_trimmed_and_signed (js "Kimi") createIssue
           (MkArgs (Some (js " hi  ")) None) (js " hi  "));
    [right; left; reflexivity|reflexivity|discriminate|reflexivity].
Defined.

(** Against C9 as stated.  When the display name itself holds the marker,
    the body that the hook writes holds it twice. *)
Lemma marker_in_display_name_signs_twice :
  exists b',
    tool_execute_before markerName createIssue (Some (MkArgs None None))
    = Returned (Some (MkArgs (Some b') None)) /\
    occurrences marker b' = 2.
Proof.
  eexists. split; reflexivity.
Qed.

(** C9, as amended.  When the display name does not itself hold the marker:
    after the hook has handled a structured tool, either the body was
    already signed and is left as it was, or the body is not empty and
    holds the marker exactly once; and handling the result once more
    changes nothing, so that two invocations never leave two signatures. *)
Theorem structured_body_signed_once (currentModel tool : jsstring) (a : Args) :
  In tool prIssueTools ->
  hasSignature currentModel = false ->
  exists a',
    tool_execute_before currentModel tool (Some a) = Returned (Some a') /\
    ((a' = a /\ exists b, present (body a) = Some b /\ hasSignature b = true) \/
     (exists b', body a' = Some b' /\ b' <> [] /\ occurrences marker b' = 1)) /\
    tool_execute_before currentModel tool (Some a') = Returned (Some a').
Proof.
  intros Htool Hname.
  rewrite (structured_tool currentModel tool a Htool).
  destruct (present (body a)) as [b|] eqn:Hb.
  - destruct (hasSignature b) eqn:Hsig.
    + exists a. split; [reflexivity|]. split; [left; eauto|].
      rewrite (structured_tool currentModel tool a Htool), Hb, Hsig. reflexivity.
    + eexists. split; [reflexivity|]. split.
      * right. eexists. split; [reflexivity|]. split.
        -- intros E. apply (f_equal (@length N)) in E.
           rewrite !length_app in E. simpl in E. lia.
        -- apply occurrences_signed; [now apply trim_hasSignature|assumption].
      * rewrite (structured_tool currentModel tool _ Htool). cbn [body command].
        assert (Hs : hasSignature
                       (trim b ++ [newline; newline] ++ generateSignature currentModel) = true).
        { unfold hasSignature. do 2 apply includes_app_r.
          apply generateSignature_hasSignature. }
        destruct (trim b ++ [newline; newline] ++ generateSignature currentModel) eqn:E.
        { apply (f_equal (@length N)) in E. rewrite !length_app in E. simpl in E. lia. }
        cbn [present truthy]. rewrite Hs. reflexivity.
  - eexists. split; [reflexivity|]. split.
    + right. eexists. split; [reflexivity|]. split; [discriminate|].
      now apply occurrences_signature.
    + rewrite (structured_tool currentModel tool _ Htool). cbn [body command].
      change (present (Some (generateSignature currentModel)))
        with (Some (generateSignature currentModel)).
      cbv beta iota. now rewrite generateSignature_hasSignature.
Qed.

Lemma structured_body_signed_once_witness :
  In createIssue prIssueTools /\
  hasSignature (js "Kimi") = false /\
  exists a',
    tool_execute_before (js "Kimi") createIssue (Some (MkArgs (Some indentedBody) None))
    = Returned (Some a') /\
    ((a' = MkArgs (Some indentedBody) None /\
      exists b, present (body (MkArgs (Some indentedBody) None)) = Some b /\
                hasSignature b = true) \/
     (exists b', body a' = Some b' /\ b' <> [] /\ occurrences marker b' = 1)) /\
    tool_execute_before (js "Kimi") createIssue (Some a') = Returned (Some a').
Proof.
  split; [right; left; reflexivity|]. split; [reflexivity|].
  apply (structured_body_signed_once (js "Kimi") createIssue
           (MkArgs (Some indentedBody) None));
    [right; left; reflexivity|reflexivity].
Defined.

End HookClaims.

(* ===================================================================== *)
(** ** The model namer *)
(* ===================================================================== *)

Module NamerFacts.


Section Namer.
Variable toLowerCase toUpperCase : jsstring -> jsstring.



Hypothesis lower_ascii : forall s, is_ascii s = true -> toLowerCase s = map ascii_lower s.
Hypothesis upper_ascii : forall s, is_ascii s = true -> toUpperCase s = map ascii_upper s.




End Namer.

(** The last step of the normalisation turns every [@] into [/]. *)
Lemma cleanName_at (id : jsstring) :
  cleanName id
  = map (fun c => if (c =? 64)%N then 47%N else c)
      (replace_all hashRegex [] (replace_all dateRegex [] id)).
Proof.
  unfold cleanName, replace_all at 1, atRegex. rewrite replace_from_chr.
  generalize (replace_all hashRegex [] (replace_all dateRegex [] id)).
  intros l. induction l as [|c l IH]; [reflexivity|]. simpl. rewrite IH.
  unfold exactly. now destruct (c =? 64)%N.
Qed.

End NamerFacts.
Import NamerFacts.

(* ===================================================================== *)
(** ** The normalisation and the lookup of the namer *)
(* ===================================================================== *)

Module NormalFacts.

Lemma star_greedy_hex (cs : list (nat * (nat * nat))) :
  forall r p,
    star true hex Some cs r p
    = Some (MState (p + hexrun r) (skipn (hexrun r) r) cs).
Proof.
  induction r as [|x r IH]; intros p; simpl.
  - now rewrite Nat.add_0_r.
  - destruct (hex x).
    + rewrite IH. simpl. f_equal. f_equal. lia.
    + simpl. now rewrite Nat.add_0_r.
Qed.

Lemma hexrun_7 (t : jsstring) :
  7 <= hexrun t ->
  exists w t', t = w ++ t' /\ length w = 7 /\ forallb hex w = true /\
               hexrun t = 7 + hexrun t'.
Proof.
  revert t.
  assert (G : forall n t, n <= hexrun t ->
            exists w t', t = w ++ t' /\ length w = n /\ forallb hex w = true /\
                         hexrun t = n + hexrun t').
  { induction n as [|n IH]; intros t H.
    - exists [], t. repeat split.
    - destruct t as [|x t]; cbn [hexrun] in H; [lia|].
      destruct (hex x) eqn:E; [|lia].
      destruct (IH t ltac:(lia)) as (w & t' & -> & Hl & Hw & Hr).
      exists (x :: w), t'. cbn [hexrun app length forallb]. rewrite E, Hw, Hl, Hr.
      repeat split. }
  intros t H. exact (G 7 t H).
Qed.

(** Where [hashRegex] matches, and up to where. *)
Lemma rmatch_hashRegex (input : jsstring) (p : nat) (s : jsstring) :
  rmatch input hashRegex (MState p s []) Some
  = match s with
    | x :: t =>
        if dash x && (7 <=? hexrun t)
        then Some (MState (S p + hexrun t) (skipn (hexrun t) t) [])
        else None
    | [] => None
    end.
Proof.
  destruct s as [|x t]; [reflexivity|].
  unfold hashRegex, times. cbn [seqs repeat rmatch rest pos caps].
  destruct (dash x); [|reflexivity]. cbn [andb].
  destruct (7 <=? hexrun t) eqn:E.
  - apply Nat.leb_le in E.
    destruct (hexrun_7 t E) as (w & t' & -> & Hl & Hw & Hrun).
    rewrite Hrun.
    do 7 (destruct w as [|? w]; [discriminate Hl|]).
    destruct w; [|discriminate Hl].
    cbn [forallb] in Hw. repeat (apply andb_prop in Hw; destruct Hw as [? Hw]).
    cbn [app rest pos caps].
    repeat match goal with H : hex _ = true |- _ => rewrite H; clear H end.
    cbn [rest pos caps].
    rewrite star_greedy_hex. simpl skipn.
    f_equal. f_equal. lia.
  - apply Nat.leb_gt in E.
    repeat (destruct t as [|? t]; [reflexivity|];
            cbn [rest pos caps];
            cbn [hexrun] in E; destruct (hex _); [|reflexivity]).
    lia.
Qed.

(** The characters of a match still to be dropped are dropped. *)
Lemma replace_from_skip (input : jsstring) (r : regex) :
  forall skip s p,
    replace_from input r [] s p skip
    = replace_from input r [] (skipn skip s) (p + skip) 0.
Proof.
  induction skip as [|skip IH]; intros s p.
  - now rewrite Nat.add_0_r.
  - destruct s as [|x t].
    + cbn [replace_from skipn]. now destruct (rmatch _ _ _ _).
    + cbn [replace_from skipn]. rewrite IH. f_equal. lia.
Qed.











Lemma own_first (table before after : list (jsstring * jsstring)) (n v : jsstring) :
  table = before ++ (n, v) :: after -> ~ In n (map fst before) -> own table n = Some v.
Proof.
  intros -> . induction before as [|[k w] before IH]; intros Hno; simpl.
  - now rewrite jsstring_eqb_refl.
  - unfold jsstring_eqb. destruct (list_eq_dec N.eq_dec k n) as [->|_].
    + exfalso. apply Hno. now left.
    + apply IH. intros H. apply Hno. now right.
Qed.



Section Lookup.
Variable toLowerCase : jsstring -> jsstring.

(** The loop over the entries returns the value of the first key, in
    table order, that occurs in the name. *)
Lemma partialMatch_first (table : list (jsstring * jsstring)) (name value : jsstring) :
  partialMatch toLowerCase table name = Some value <->
  exists before key after,
    table = before ++ (key, value) :: after /\
    includes (toLowerCase key) (toLowerCase name) = true /\
    (forall k v, In (k, v) before ->
                 includes (toLowerCase k) (toLowerCase name) = false).
Proof.
  induction table as [|[k w] table IH]; cbn [partialMatch].
  - split; [discriminate|]. intros (before & key & after & H & _).
    destruct before; discriminate H.
  - destruct (includes (toLowerCase k) (toLowerCase name)) eqn:E.
    + split.
      * intros H. inversion H; subst. exists [], k, table.
        repeat split; [assumption|]. intros ? ? [].
      * intros (before & key & after & H & Hin & Hno).
        destruct before as [|[k' w'] before].
        -- simpl in H. inversion H; subst. reflexivity.
        -- simpl in H. inversion H; subst.
           rewrite (Hno k' w' (or_introl eq_refl)) in E. discriminate.
    + rewrite IH. split.
      * intros (before & key & after & -> & Hin & Hno).
        exists ((k, w) :: before), key, after. repeat split; [assumption|].
        intros k' v' [H|H]; [inversion H; subst; assumption|eauto].
      * intros (before & key & after & H & Hin & Hno).
        destruct before as [|[k' w'] before].
        -- simpl in H. inversion H; subst. congruence.
        -- simpl in H. inversion H; subst.
           exists before, key, after. repeat split; [assumption|].
           intros k'' v'' H'. apply (Hno k'' v''). now right.
Qed.

Lemma partialMatch_none (table : list (jsstring * jsstring)) (name : jsstring) :
  partialMatch toLowerCase table name = None <->
  forall k v, In (k, v) table -> includes (toLowerCase k) (toLowerCase name) = false.
Proof.
  induction table as [|[k w] table IH]; cbn [partialMatch].
  - split; [intros _ ? ? []|reflexivity].
  - destruct (includes (toLowerCase k) (toLowerCase name)) eqn:E.
    + split; [discriminate|]. intros H.
      rewrite (H k w (or_introl eq_refl)) in E. discriminate.
    + rewrite IH. split.
      * intros H k' v' [H'|H']; [inversion H'; subst; assumption|eauto].
      * intros H k' v' H'. apply (H k' v'). now right.
Qed.

End Lookup.




Section Determined.
Variable toLowerCase toUpperCase : jsstring -> jsstring.
Variable table : list (jsstring * jsstring).
Variable id : jsstring.
Hypothesis given : id <> [].
Hypothesis values : forall k v, In (k, v) table -> v <> [].


End Determined.

End NormalFacts.
Import NormalFacts.

Module NamerClaims.




End NamerClaims.

(* ===================================================================== *)
(** ** What a rewrite leaves alone *)
(* ===================================================================== *)

Module FrameFacts.

Lemma skipn_suffix (a b : jsstring) :
  skipn (length (a ++ b) - length b) (a ++ b) = b.
Proof.
  rewrite length_app, Nat.add_sub, skipn_app, Nat.sub_diag, skipn_all.
  reflexivity.
Qed.

Lemma keepsFrame_suffix (cmd1 cmd3 result : jsstring) :
  keepsFrame cmd1 cmd3 result ->
  skipn (length result - length (js "&& " ++ cmd3)) result = js "&& " ++ cmd3.
Proof.
  intros [t ->].
  replace (cmd1 ++ js " && " ++ t ++ js "&& " ++ cmd3)
    with ((cmd1 ++ js " && " ++ t) ++ (js "&& " ++ cmd3))
    by now rewrite <- !app_assoc.
  apply skipn_suffix.
Qed.

Lemma slice_zero (s : jsstring) (n : nat) : slice s 0 n = firstn n s.
Proof. unfold slice. simpl. now rewrite Nat.sub_0_r. Qed.

(** [addSignatureToGhCommand] changes the segment only. *)
Lemma addSignatureToGhCommand_frame (C S : jsstring) (index : nat) :
  exists segment',
    addSignatureToGhCommand C S index
    = firstn index C ++ segment' ++ skipn (findCommandEndIndex C index) C.
Proof.
  unfold addSignatureToGhCommand, slice_from. cbv zeta.
  rewrite (slice_zero C index).
  destruct (hasBodyFlag _).
  - destruct (exec bodyRegex _) as [[i e]|].
    + eexists. reflexivity.
    + eexists. rewrite (app_assoc (trimEnd _)). reflexivity.
  - eexists. rewrite (app_assoc (trimEnd _)). reflexivity.
Qed.

(** A rewrite changes nothing, or changes only the text between the start
    of the selected segment and the segment's end. *)
Lemma rewrite_segment_only (C S : jsstring) :
  rewrite C S = C \/
  exists index segment',
    targetIndex C = Some index /\
    index < findCommandEndIndex C index /\
    rewrite C S = firstn index C ++ segment' ++ skipn (findCommandEndIndex C index) C.
Proof.
  destruct (hasSignature C) eqn:Hsig; [left; unfold rewrite; now rewrite Hsig|].
  destruct (commitFamily C) eqn:Hfam.
  - unfold commitFamily in Hfam. apply andb_true_iff in Hfam as [Hgit Hflag].
    destruct (matchIndex gitCommitRegex C) as [index|] eqn:Hidx.
    + right. destruct (rewrite_git_commit C S index Hsig Hidx Hflag) as [Hlt E].
      exists index. eexists. split; [|split; [exact Hlt|]].
      * unfold targetIndex, commitFamily. now rewrite Hgit, Hflag.
      * rewrite E. rewrite (app_assoc (trimEnd _)). reflexivity.
    + unfold matchIndex in Hidx. unfold test in Hgit.
      destruct (exec gitCommitRegex C) as [[i e]|]; discriminate.
  - destruct (matchIndex ghRegex C) as [index|] eqn:Hidx.
    + right. exists index.
      destruct (addSignatureToGhCommand_frame C S index) as [segment' E].
      exists segment'. split; [|split].
      * unfold targetIndex. now rewrite Hfam.
      * destruct (matchIndex_exec _ _ _ Hidx) as (e & He & _).
        destruct (exec_found _ _ _ _ He) as (_ & Hm & _).
        destruct (starts_with_g C index _ _ _ e eq_refl Hm) as (x & t & Hs & _ & Hsep).
        exact (findCommandEndIndex_past C index x t Hs Hsep).
      * rewrite (rewrite_gh C S index Hsig Hfam Hidx). exact E.
    + left. unfold rewrite.
      unfold commitFamily in Hfam. rewrite Hsig, Hfam.
      unfold isGhCommandWithBody, test. unfold matchIndex in Hidx.
      destruct (exec ghRegex C) as [[i e]|]; [discriminate|reflexivity].
Qed.

End FrameFacts.
Import FrameFacts.

Module FrameClaims.
Import Examples.

(** Against C4 as stated.  In
    [ls && gh pr create --title "x" && git commit -m "y"] the first
    segment of a targeted family is the [gh] one, yet the rewrite signs the
    commit that follows it: the text after the separator that ends the
    [gh] segment is not kept. *)
Lemma later_commit_segment_is_rewritten :
  targeted (js "ls") = false /\
  targeted prCreate = true /\
  ~ keepsFrame (js "ls") (js "git commit -m " ++ quoted "y")
      (rewrite prThenCommit (generateSignature (js "Kimi"))).
Proof.
  split; [reflexivity|]. split; [reflexivity|].
  intros H. apply keepsFrame_suffix in H. vm_compute in H. discriminate H.
Qed.

(** C4, as amended.  A rewrite changes at most the segment that the
    dispatch selects -- the one that starts at the first match of
    [git commit] when the line matches [git commit] and holds a message
    flag, else at the first match of the [gh] pattern -- and that ends where
    the scanner stops: the text before that start and the text from the end
    separator on are byte-identical.  So for [cmd1 && TARGET && cmd3] with
    that match at the start of TARGET and the scanner stopping at the
    separator that ends TARGET, [cmd1 && ] and [&& cmd3] are kept. *)
Theorem rewrite_keeps_other_segments :
  (forall C S,
      rewrite C S = C \/
      exists index segment',
        targetIndex C = Some index /\
        index < findCommandEndIndex C index /\
        rewrite C S = firstn index C ++ segment' ++ skipn (findCommandEndIndex C index) C) /\
  (forall cmd1 target cmd3 S,
      targetIndex (chained cmd1 target cmd3) = Some (length (cmd1 ++ js " && ")) ->
      findCommandEndIndex (chained cmd1 target cmd3) (length (cmd1 ++ js " && "))
      = length (cmd1 ++ js " && " ++ target ++ js " ") ->
      keepsFrame cmd1 cmd3 (rewrite (chained cmd1 target cmd3) S)).
Proof.
  split; [exact rewrite_segment_only|].
  intros cmd1 target cmd3 S Hidx Hend.
  assert (Hline : chained cmd1 target cmd3
                  = (cmd1 ++ js " && ") ++ (target ++ js " ") ++ js "&& " ++ cmd3).
  { unfold chained. rewrite <- !app_assoc. reflexivity. }
  destruct (rewrite_segment_only (chained cmd1 target cmd3) S)
    as [E|(index & segment' & Hi & _ & E)].
  - exists (target ++ js " "). rewrite E, Hline. now rewrite <- !app_assoc.
  - rewrite Hidx in Hi. inversion Hi; subst index. clear Hi.
    exists segment'. rewrite E, Hend. rewrite Hline at 1 2.
    rewrite firstn_app, Nat.sub_diag, firstn_all. simpl firstn. rewrite app_nil_r.
    replace (length (cmd1 ++ js " && " ++ target ++ js " "))
      with (length ((cmd1 ++ js " && ") ++ target ++ js " "))
      by now rewrite <- !app_assoc.
    rewrite (app_assoc (cmd1 ++ js " && ") (target ++ js " ")).
    rewrite skipn_app, Nat.sub_diag, skipn_all. simpl skipn.
    now rewrite <- !app_assoc.
Qed.

Lemma rewrite_keeps_other_segments_witness :
  targetIndex (chained (js "ls") fixBug (js "pwd")) = Some (length (js "ls" ++ js " && ")) /\
  findCommandEndIndex (chained (js "ls") fixBug (js "pwd")) (length (js "ls" ++ js " && "))
  = length (js "ls" ++ js " && " ++ fixBug ++ js " ") /\
  keepsFrame (js "ls") (js "pwd")
    (rewrite (chained (js "ls") fixBug (js "pwd")) (generateSignature (js "Kimi"))).
Proof.
  split; [reflexivity|]. split; [reflexivity|].
  apply (proj2 rewrite_keeps_other_segments (js "ls") fixBug (js "pwd")
           (generateSignature (js "Kimi")));
    reflexivity.
Defined.

End FrameClaims.

(* ===================================================================== *)
(** ** The body flag of a [gh] segment *)
(* ===================================================================== *)

Module BodyFlagFacts.

Section Inversion.
Variable input : jsstring.

Lemma matches_Seq_inv (a b : regex) (st st' : mstate) :
  matches input (Seq a b) st st' ->
  exists mid, matches input a st mid /\ matches input b mid st'.
Proof. intros H. inversion H; subst. eauto. Qed.

Lemma matches_Chr_inv (c : cset) (st st' : mstate) :
  matches input (Chr c) st st' ->
  exists x, c x = true /\ rest st = x :: rest st' /\
            pos st' = S (pos st) /\ caps st' = caps st.
Proof. intros H. inversion H; subst. simpl. eauto. Qed.

Lemma matches_Alt_inv (a b : regex) (st st' : mstate) :
  matches input (Alt a b) st st' ->
  matches input a st st' \/ matches input b st st'.
Proof. intros H. inversion H; subst; auto. Qed.

Lemma matches_Group_inv (n : nat) (a : regex) (st st' : mstate) :
  matches input (Group n a) st st' ->
  exists st1, matches input a st st1 /\
              st' = MState (pos st1) (rest st1) ((n, (pos st, pos st1)) :: caps st1).
Proof. intros H. inversion H; subst. eauto. Qed.

Lemma matches_Star_inv (g : bool) (c : cset) (st st' : mstate) :
  matches input (Star g c) st st' ->
  exists w, forallb c w = true /\ rest st = w ++ rest st' /\
            pos st' = pos st + length w /\ caps st' = caps st.
Proof. intros H. inversion H; subst. simpl. eauto. Qed.

(** A literal matches its own text and nothing else. *)
Lemma matches_lit_inv (w : jsstring) :
  forall st st',
    matches input (seqs (map (fun c => Chr (exactly c)) w)) st st' ->
    rest st = w ++ rest st' /\ pos st' = pos st + length w /\ caps st' = caps st.
Proof.
  induction w as [|c w IH]; intros st st' H.
  - inversion H; subst. simpl. auto.
  - assert (Hone : forall st1,
              matches input (Chr (exactly c)) st st1 ->
              rest st = c :: rest st1 /\ pos st1 = S (pos st) /\ caps st1 = caps st).
    { intros st1 H1. apply matches_Chr_inv in H1 as (x & Hx & Hr & Hp & Hc).
      apply N.eqb_eq in Hx. subst. auto. }
    destruct w as [|c' w].
    + simpl in H. destruct (Hone _ H) as (Hr & Hp & Hc).
      rewrite Hr, Hp, Hc. simpl. repeat split; lia.
    + change (seqs (map (fun c => Chr (exactly c)) (c :: c' :: w)))
        with (Seq (Chr (exactly c)) (seqs (map (fun c => Chr (exactly c)) (c' :: w)))) in H.
      apply matches_Seq_inv in H as (st1 & H1 & H2).
      destruct (Hone _ H1) as (Hr & Hp & Hc).
      destruct (IH _ _ H2) as (Hr' & Hp' & Hc').
      rewrite Hr, Hr', Hp', Hp, Hc', Hc. simpl. repeat split; lia.
Qed.

Lemma matches_lit_intro (w t : jsstring) (cs : list (nat * (nat * nat))) :
  forall p,
    matches input (seqs (map (fun c => Chr (exactly c)) w))
            (MState p (w ++ t) cs) (MState (p + length w) t cs).
Proof.
  induction w as [|c w IH]; intros p.
  - simpl. rewrite Nat.add_0_r. constructor.
  - assert (Hone : matches input (Chr (exactly c))
                           (MState p (c :: w ++ t) cs) (MState (S p) (w ++ t) cs)).
    { constructor. apply N.eqb_refl. }
    destruct w as [|c' w].
    + simpl. replace (p + 1) with (S p) by lia. exact Hone.
    + change (seqs (map (fun c => Chr (exactly c)) (c :: c' :: w)))
        with (Seq (Chr (exactly c)) (seqs (map (fun c => Chr (exactly c)) (c' :: w)))).
      eapply M_Seq; [exact Hone|].
      replace (p + length (c :: c' :: w)) with (S p + length (c' :: w)) by (simpl; lia).
      apply IH.
Qed.

(** The group [(--body|-b)] matches one of its two texts. *)
Lemma matches_body_flag_inv (st st' : mstate) :
  matches input (Group 1 (Alt (lit "--body") (lit "-b"))) st st' ->
  exists flag, (flag = js "--body" \/ flag = js "-b") /\
               rest st = flag ++ rest st' /\ pos st' = pos st + length flag /\
               caps st' = (1, (pos st, pos st')) :: caps st.
Proof.
  intros H. apply matches_Group_inv in H as (st1 & H1 & ->). simpl.
  apply matches_Alt_inv in H1 as [H1|H1];
    apply matches_lit_inv in H1 as (Hr & Hp & Hc); rewrite Hc; eauto 6.
Qed.

Lemma matches_body_flag_intro (flag t : jsstring) (p : nat) (cs : list (nat * (nat * nat))) :
  flag = js "--body" \/ flag = js "-b" ->
  matches input (Group 1 (Alt (lit "--body") (lit "-b")))
          (MState p (flag ++ t) cs)
          (MState (p + length flag) t ((1, (p, p + length flag)) :: cs)).
Proof.
  intros Hf.
  apply (M_Group input 1 (Alt (lit "--body") (lit "-b"))
                 (MState p (flag ++ t) cs) (MState (p + length flag) t cs)).
  destruct Hf as [-> | ->]; [apply M_AltL|apply M_AltR]; apply matches_lit_intro.
Qed.

End Inversion.

Lemma test_complete (r : regex) (s : jsstring) (i : nat) (e : mstate) :
  i <= length s -> matches s r (MState i (skipn i s) []) e -> test r s = true.
Proof.
  intros Hi Hm. destruct (test r s) eqn:E; [reflexivity|].
  exfalso. exact (test_false r s i e E Hi Hm).
Qed.

Lemma skipn_middle (before t : jsstring) : skipn (length before) (before ++ t) = t.
Proof. now rewrite skipn_app, Nat.sub_diag, skipn_all. Qed.

(** The patterns of [hasBodyFlag], with the class of the character that
    follows the flag left open. *)
Lemma flag_pattern_iff (c : cset) (segment : jsstring) :
  test (seqs [Chr space; Group 1 (Alt (lit "--body") (lit "-b")); Chr c]) segment = true <->
  exists before w flag d after,
    segment = before ++ w :: flag ++ d :: after /\
    is_ws w = true /\ (flag = js "--body" \/ flag = js "-b") /\ c d = true.
Proof.
  cbn [seqs]. split.
  - intros H. apply test_true in H as (i & e & _ & Hm).
    apply matches_Seq_inv in Hm as (st1 & H1 & H2).
    apply matches_Chr_inv in H1 as (w & Hw & Hr1 & _).
    apply matches_Seq_inv in H2 as (st2 & H3 & H4).
    apply matches_body_flag_inv in H3 as (flag & Hflag & Hr2 & _).
    apply matches_Chr_inv in H4 as (d & Hd & Hr3 & _).
    simpl in Hr1. exists (firstn i segment), w, flag, d, (rest e).
    repeat split; try assumption.
    rewrite <- (firstn_skipn i segment) at 1. congruence.
  - intros (before & w & flag & d & after & -> & Hw & Hf & Hd).
    apply (test_complete _ _ (length before)
             (MState (S (length before) + length flag + 1) after
                     [(1, (S (length before), S (length before) + length flag))])).
    + rewrite length_app. lia.
    + rewrite skipn_middle.
      eapply M_Seq; [now apply M_Chr|].
      eapply M_Seq; [now apply matches_body_flag_intro|].
      replace (S (length before) + length flag + 1)
        with (S (S (length before) + length flag)) by lia.
      now apply M_Chr.
Qed.

(** [hasBodyFlag] answers yes exactly when a body flag stands in the
    segment as a word of its own. *)
Lemma hasBodyFlag_iff (segment : jsstring) :
  hasBodyFlag segment = true <-> bodyFlagOccurs segment.
Proof.
  unfold hasBodyFlag, bodyFlagOccurs, bodyFlagSpace, bodyFlagQuote.
  rewrite orb_true_iff, !flag_pattern_iff. split.
  - intros [H|H]; destruct H as (before & w & flag & d & after & Hs & Hw & Hf & Hd);
      exists before, w, flag, d, after; repeat split; try assumption.
    + now left.
    + right. unfold quoteChar, one_of, none in Hd. simpl in Hd.
      rewrite !orb_false_r in Hd. apply orb_true_iff in Hd as [Hd|Hd];
        apply N.eqb_eq in Hd; auto.
  - intros (before & w & flag & d & after & Hs & Hw & Hf & [Hd|Hd]).
    + left. exists before, w, flag, d, after. auto.
    + right. exists before, w, flag, d, after. repeat split; try assumption.
      destruct Hd as [-> | ->]; reflexivity.
Qed.

End BodyFlagFacts.
Import BodyFlagFacts.

Module BodyFlagClaims.
Import Examples.

(** Against C10 as stated.  A flag with its value attached by a quote
    counts as a body flag: in [gh pr create --body="text" -b'x'] no body
    flag is followed by white space, yet [hasBodyFlag] answers yes and the
    rewrite edits the value of [-b] in place; no token is appended. *)
Lemma quote_attached_flag_is_edited :
  hasSignature bodyEqualsThenShort = false /\
  commitFamily bodyEqualsThenShort = false /\
  matchIndex ghRegex bodyEqualsThenShort = Some 0 /\
  slice bodyEqualsThenShort 0 (findCommandEndIndex bodyEqualsThenShort 0)
  = bodyEqualsThenShort /\
  ~ spaceSeparatedFlagOccurs bodyEqualsThenShort /\
  hasBodyFlag bodyEqualsThenShort = true /\
  rewrite bodyEqualsThenShort (generateSignature (js "Kimi"))
  = js "gh pr create --body=" ++ quoted "text"
    ++ js " -b " ++ [squote] ++ js "x" ++ js "\n\n"
    ++ escapeForShell (generateSignature (js "Kimi")) ++ [squote] /\
  rewrite bodyEqualsThenShort (generateSignature (js "Kimi"))
  <> bodyEqualsThenShort
     ++ js " --body " ++ [dquote] ++ escapeForShell (generateSignature (js "Kimi")) ++ [dquote].
Proof.
  do 4 (split; [vm_compute; reflexivity|]).
  split.
  { intros H. apply (proj2 (flag_pattern_iff space bodyEqualsThenShort)) in H.
    vm_compute in H. discriminate H. }
  do 2 (split; [vm_compute; reflexivity|]).
  intros H. vm_compute in H. discriminate H.
Qed.

(** C10, as amended.  [hasBodyFlag] answers yes exactly when a body flag
    stands in the segment as a word of its own: white space, [--body] or
    [-b], then white space or a quote character.  For every command line
    that does not hold the signature marker and does not belong to the
    commit family, when the [gh] pattern first matches at an index and the
    segment from there to where the scanner stops holds the body with an
    equals sign, as in [--body="text"], and no body flag as a word of its
    own, [hasBodyFlag] answers no; the rewrite then leaves the [--body=]
    token where it is, byte for byte, and appends a fresh token
    [--body "<escaped signature>"] at the end of the segment. *)
Theorem equals_attached_body_is_left_alone :
  (forall segment, hasBodyFlag segment = true <-> bodyFlagOccurs segment) /\
  (forall C S index before value after,
      hasSignature C = false ->
      commitFamily C = false ->
      matchIndex ghRegex C = Some index ->
      let endIndex := findCommandEndIndex C index in
      slice C index endIndex
      = before ++ js "--body=" ++ [dquote] ++ value ++ [dquote] ++ after ->
      ~ bodyFlagOccurs (slice C index endIndex) ->
      hasBodyFlag (slice C index endIndex) = false /\
      rewrite C S
      = firstn index C
        ++ before ++ js "--body=" ++ [dquote] ++ value ++ [dquote] ++ trimEnd after
        ++ js " --body " ++ [dquote] ++ escapeForShell S ++ [dquote]
        ++ slice_from C endIndex) /\
  (forall C S index before after,
      hasSignature C = false ->
      commitFamily C = false ->
      matchIndex ghRegex C = Some index ->
      let endIndex := findCommandEndIndex C index in
      slice C index endIndex = before ++ js "--body=" ++ after ->
      ~ bodyFlagOccurs (slice C index endIndex) ->
      rewrite C S
      = firstn index C
        ++ before ++ js "--body=" ++ trimEnd after
        ++ js " --body " ++ [dquote] ++ escapeForShell S ++ [dquote]
        ++ slice_from C endIndex) /\
  hasBodyFlag bodyEquals = false /\
  rewrite bodyEquals (generateSignature (js "Kimi")) = bodyEqualsSigned.
Proof.
  split; [exact hasBodyFlag_iff|].
  split; [|split; [|split; reflexivity]].
  - intros C S index before value after Hsig Hfam Hidx endIndex Hseg Hno.
    assert (Hflag : hasBodyFlag (slice C index endIndex) = false).
    { destruct (hasBodyFlag (slice C index endIndex)) eqn:E; [|reflexivity].
      exfalso. apply Hno. now apply hasBodyFlag_iff. }
    split; [assumption|].
    rewrite (rewrite_gh C S index Hsig Hfam Hidx).
    rewrite (addSignature_without_body_flag C S index Hflag).
    fold endIndex. rewrite Hseg.
    replace (before ++ js "--body=" ++ [dquote] ++ value ++ [dquote] ++ after)
      with ((before ++ js "--body=" ++ [dquote] ++ value) ++ dquote :: after)
      by now rewrite <- !app_assoc.
    rewrite trimEnd_app by reflexivity.
    unfold bodyToken, slice_from. now rewrite <- !app_assoc.
  - intros C S index before after Hsig Hfam Hidx endIndex Hseg Hno.
    assert (Hflag : hasBodyFlag (slice C index endIndex) = false).
    { destruct (hasBodyFlag (slice C index endIndex)) eqn:E; [|reflexivity].
      exfalso. apply Hno. now apply hasBodyFlag_iff. }
    rewrite (rewrite_gh C S index Hsig Hfam Hidx).
    rewrite (addSignature_without_body_flag C S index Hflag).
    fold endIndex. rewrite Hseg.
    replace (before ++ js "--body=" ++ after)
      with ((before ++ js "--body") ++ 61%N :: after)
      by now rewrite <- !app_assoc.
    rewrite trimEnd_app by reflexivity.
    unfold bodyToken, slice_from. now rewrite <- !app_assoc.
Qed.

Lemma equals_attached_body_is_left_alone_witness :
  hasSignature bodyEquals = false /\
  commitFamily bodyEquals = false /\
  matchIndex ghRegex bodyEquals = Some 0 /\
  slice bodyEquals 0 (findCommandEndIndex bodyEquals 0)
  = js "gh pr create " ++ js "--body=" ++ [dquote] ++ js "text" ++ [dquote] ++ [] /\
  hasBodyFlag (slice bodyEquals 0 (findCommandEndIndex bodyEquals 0)) = false /\
  rewrite bodyEquals (generateSignature (js "Kimi"))
  = firstn 0 bodyEquals
    ++ js "gh pr create " ++ js "--body=" ++ [dquote] ++ js "text" ++ [dquote] ++ trimEnd []
    ++ js " --body " ++ [dquote] ++ escapeForShell (generateSignature (js "Kimi")) ++ [dquote]
    ++ slice_from bodyEquals (findCommandEndIndex bodyEquals 0).
Proof.
  split; [reflexivity|]. split; [reflexivity|]. split; [reflexivity|].
  split; [reflexivity|].
  apply (proj1 (proj2 equals_attached_body_is_left_alone) bodyEquals
           (generateSignature (js "Kimi")) 0 (js "gh pr create ") (js "text") []);
    try reflexivity.
  intros H. apply hasBodyFlag_iff in H. vm_compute in H. discriminate H.
Defined.

End BodyFlagClaims.

(* ===================================================================== *)
(** ** The value of the body flag *)
(* ===================================================================== *)

Module GhBodyFacts.

Lemma matches_Backref_inv (input : jsstring) (n : nat) (st st' : mstate) :
  matches input (Backref n) st st' ->
  (capture n (caps st) = None /\ st' = st) \/
  exists a b, capture n (caps st) = Some (a, b) /\
              startsWith (slice input a b) (rest st) = true /\
              st' = MState (pos st + length (slice input a b))
                           (skipn (length (slice input a b)) (rest st)) (caps st).
Proof. intros H. inversion H; subst; eauto 7. Qed.

Lemma slice_at (s : jsstring) (i j : nat) (w t : jsstring) :
  skipn i s = w ++ t -> j = i + length w -> slice s i j = w.
Proof.
  intros H ->. unfold slice. replace (i + length w - i) with (length w) by lia.
  rewrite H, firstn_app, Nat.sub_diag, firstn_all. simpl. now rewrite app_nil_r.
Qed.

Lemma skipn_after (s : jsstring) (i : nat) (w t : jsstring) :
  skipn i s = w ++ t -> skipn (i + length w) s = t.
Proof.
  intros H. rewrite Nat.add_comm, <- skipn_skipn, H. apply skipn_middle.
Qed.

(** The shape of a match of [bodyRegex]: the flag, white space, a quote
    character, the content, the same quote character; and the texts of
    its three groups. *)
Lemma bodyRegex_shape (part : jsstring) (index : nat) (e : mstate) :
  matches part bodyRegex (MState index (skipn index part) []) e ->
  exists flag ws q content,
    (flag = js "--body" \/ flag = js "-b") /\
    forallb space ws = true /\ quoteChar q = true /\
    skipn index part = flag ++ ws ++ q :: content ++ q :: rest e /\
    pos e = index + length (flag ++ ws ++ q :: content ++ [q]) /\
    group_text part e 1 = Some flag /\
    group_text part e 2 = Some [q] /\
    group_text part e 3 = Some content.
Proof.
  intros H. cbn [bodyRegex seqs] in H.
  apply matches_Seq_inv in H as ([p1 r1 c1] & H1 & H).
  apply matches_body_flag_inv in H1 as (flag & Hflag & Hr1 & Hp1 & Hc1).
  apply matches_Seq_inv in H as ([p2 r2 c2] & H2 & H).
  apply matches_Star_inv in H2 as (ws & Hws & Hr2 & Hp2 & Hc2).
  apply matches_Seq_inv in H as (st3 & H3 & H).
  apply matches_Group_inv in H3 as ([p3 r3 c3] & H3 & ->).
  apply matches_Chr_inv in H3 as (q & Hq & Hr3 & Hp3 & Hc3).
  apply matches_Seq_inv in H as (st4 & H4 & H).
  apply matches_Group_inv in H4 as ([p4 r4 c4] & H4 & ->).
  apply matches_Star_inv in H4 as (content & _ & Hr4 & Hp4 & Hc4).
  simpl in *. subst.
  assert (Hq2 : skipn (index + length flag + length ws) part = q :: content ++ r4).
  { rewrite <- Nat.add_assoc, <- length_app.
    apply skipn_after. now rewrite <- app_assoc. }
  assert (Hsub : slice part (index + length flag + length ws)
                       (S (index + length flag + length ws)) = [q]).
  { apply (slice_at part _ _ [q] (content ++ r4)); [exact Hq2|simpl; lia]. }
  apply matches_Backref_inv in H as [(Hn & _)|(a & b & Hcap & Hstart & ->)];
    simpl in *; [discriminate|].
  inversion Hcap; subst a b. clear Hcap. rewrite Hsub in *.
  apply startsWith_inv in Hstart as [t ->]. simpl.
  exists flag, ws, q, content. repeat split; try assumption.
  - rewrite !length_app. simpl. rewrite length_app. simpl. lia.
  - unfold group_text. simpl. f_equal.
    apply (slice_at part _ _ flag (ws ++ q :: content ++ q :: t)); [assumption|lia].
  - unfold group_text. simpl. now rewrite Hsub.
  - unfold group_text. simpl. f_equal.
    apply (slice_at part _ _ content (q :: t)); [|lia].
    replace (S (index + length flag + length ws))
      with (index + length flag + length ws + length [q]) by (simpl; lia).
    apply skipn_after. exact Hq2.
Qed.

Lemma indexOf_first (p : jsstring) :
  forall s i,
    startsWith p (skipn i s) = true -> i <= length s ->
    (forall j, j < i -> startsWith p (skipn j s) = false) ->
    indexOf p s = Some i.
Proof.
  induction s as [|x s IH]; intros i Hs Hi Hmin.
  - simpl in Hi. replace i with 0 in * by lia. simpl in *. now rewrite Hs.
  - destruct i as [|i].
    + simpl in Hs. simpl. now rewrite Hs.
    + pose proof (Hmin 0 (Nat.lt_0_succ i)) as H0. simpl in H0.
      simpl. rewrite H0.
      rewrite (IH i); [reflexivity|exact Hs|simpl in Hi; lia|].
      intros j Hj. apply (Hmin (S j)). lia.
Qed.

Lemma any_all (w : jsstring) : forallb any w = true.
Proof.
  induction w as [|c w IH]; [reflexivity|]. simpl. rewrite IH.
  unfold any. now destruct (is_ws c).
Qed.

(** Where the text of a match of [bodyRegex] stands, the pattern matches. *)
Lemma bodyRegex_at (part : jsstring) (j : nat) (flag ws : jsstring) (q : N)
      (content t : jsstring) :
  flag = js "--body" \/ flag = js "-b" ->
  forallb space ws = true -> quoteChar q = true ->
  skipn j part = flag ++ ws ++ q :: content ++ q :: t ->
  exists e, matches part bodyRegex (MState j (skipn j part) []) e.
Proof.
  intros Hflag Hws Hq Hs. rewrite Hs. cbn [bodyRegex seqs].
  set (p1 := j + length flag). set (p2 := p1 + length ws).
  set (c1 := [(1, (j, p1))]).
  set (c2 := (2, (p2, S p2)) :: c1).
  set (c3 := (3, (S p2, S p2 + length content)) :: c2).
  assert (Hq2 : skipn p2 part = q :: content ++ q :: t).
  { unfold p2, p1. rewrite <- Nat.add_assoc, <- length_app.
    apply skipn_after. now rewrite <- app_assoc. }
  assert (Hsub : slice part p2 (S p2) = [q]).
  { apply (slice_at part _ _ [q] (content ++ q :: t)); [exact Hq2|simpl; lia]. }
  exists (MState (S p2 + length content + 1) t c3).
  eapply M_Seq; [now apply matches_body_flag_intro|]. fold p1 c1.
  eapply M_Seq; [now apply M_Star|]. fold p2.
  eapply M_Seq.
  { apply (M_Group part 2 (Chr quoteChar) (MState p2 (q :: content ++ q :: t) c1)
                   (MState (S p2) (content ++ q :: t) c1)).
    now apply M_Chr. }
  cbn [pos rest caps]. fold c2.
  eapply M_Seq.
  { apply (M_Group part 3 (Star false any) (MState (S p2) (content ++ q :: t) c2)
                   (MState (S p2 + length content) (q :: t) c2)).
    apply M_Star. apply any_all. }
  cbn [pos rest caps]. fold c3.
  pose proof (M_Backref part 2 (MState (S p2 + length content) (q :: t) c3) p2 (S p2)) as HB.
  cbn [pos rest caps] in HB. rewrite Hsub in HB. simpl length in HB. simpl skipn in HB.
  apply HB; [reflexivity|]. simpl. now rewrite N.eqb_refl.
Qed.

(** The text of a match of [bodyRegex] occurs first where it was matched. *)
Lemma indexOf_fullMatch (part : jsstring) (i : nat) (e : mstate) :
  exec bodyRegex part = Some (i, e) ->
  indexOf (slice part i (pos e)) part = Some i /\
  i + length (slice part i (pos e)) = pos e.
Proof.
  intros He. destruct (exec_found _ _ _ _ He) as (Hi & Hm & Hmin).
  destruct (bodyRegex_shape part i e Hm)
    as (flag & ws & q & content & Hflag & Hws & Hq & Hs & Hp & _).
  set (fm := flag ++ ws ++ q :: content ++ [q]) in *.
  assert (Hs' : skipn i part = fm ++ rest e).
  { rewrite Hs. unfold fm. rewrite <- !app_assoc. simpl. now rewrite <- app_assoc. }
  assert (Hfm : slice part i (pos e) = fm).
  { apply (slice_at part i (pos e) fm (rest e) Hs' Hp). }
  rewrite Hfm. split; [|lia].
  apply indexOf_first; [rewrite Hs'; apply startsWith_app|exact Hi|].
  intros j Hj. destruct (startsWith fm (skipn j part)) eqn:E; [|reflexivity].
  exfalso. apply startsWith_inv in E as [t Ht].
  destruct (bodyRegex_at part j flag ws q content t Hflag Hws Hq) as [e' He'].
  - rewrite Ht. unfold fm. rewrite <- !app_assoc. simpl. now rewrite <- app_assoc.
  - exact (Hmin j e' Hj He').
Qed.

Lemma getSubstitution_no_dollar (m b a t : jsstring) :
  no_dollar t = true -> getSubstitution m b a t = t.
Proof.
  induction t as [|c t IH]; [reflexivity|]. simpl. intros H.
  apply andb_true_iff in H as [Hc Ht]. apply negb_true_iff in Hc.
  rewrite Hc. now rewrite IH.
Qed.

Lemma no_dollar_app (a b : jsstring) :
  no_dollar (a ++ b) = no_dollar a && no_dollar b.
Proof. apply forallb_app. Qed.

Lemma no_dollar_trimEnd (s : jsstring) : no_dollar s = true -> no_dollar (trimEnd s) = true.
Proof.
  intros H. destruct (trimEnd_prefix s) as (w & Hs & _).
  rewrite Hs, no_dollar_app in H. now apply andb_true_iff in H.
Qed.

Lemma no_dollar_escapeForShell (s : jsstring) :
  no_dollar s = true -> no_dollar (escapeForShell s) = true.
Proof.
  rewrite escapeForShell_flat_map. intros H.
  assert (Hstep : forall (f : N -> jsstring) l,
             (forall c, negb (c =? dollar)%N = true -> no_dollar (f c) = true) ->
             no_dollar l = true -> no_dollar (flat_map f l) = true).
  { intros f l Hf. induction l as [|c l IH]; [reflexivity|]. simpl.
    intros Hl. apply andb_true_iff in Hl as [Hc Hl].
    rewrite no_dollar_app, (Hf c Hc), (IH Hl). reflexivity. }
  apply Hstep; [|apply Hstep; [|exact H]].
  - intros c Hc. destruct (exactly dquote c); [reflexivity|]. simpl. now rewrite Hc.
  - intros c Hc. destruct (exactly backslash c); [reflexivity|]. simpl. now rewrite Hc.
Qed.

(** When neither the quoted content nor the signature holds a dollar, the
    value of the body flag is extended in place. *)
Lemma addSignature_splices (C S : jsstring) (index i : nat) (e : mstate) :
  hasBodyFlag (slice C index (findCommandEndIndex C index)) = true ->
  exec bodyRegex (slice C index (findCommandEndIndex C index)) = Some (i, e) ->
  exists flag quote content,
    group_text (slice C index (findCommandEndIndex C index)) e 1 = Some flag /\
    group_text (slice C index (findCommandEndIndex C index)) e 2 = Some quote /\
    group_text (slice C index (findCommandEndIndex C index)) e 3 = Some content /\
    (no_dollar content = true -> no_dollar S = true ->
     addSignatureToGhCommand C S index
     = firstn index C
       ++ firstn i (slice C index (findCommandEndIndex C index))
       ++ (flag ++ js " " ++ quote ++ trimEnd content ++ js "\n\n"
                ++ escapeForShell S ++ quote)
       ++ skipn (pos e) (slice C index (findCommandEndIndex C index))
       ++ skipn (findCommandEndIndex C index) C).
Proof.
  set (part := slice C index (findCommandEndIndex C index)).
  intros Hflag He.
  destruct (exec_found _ _ _ _ He) as (_ & Hm & _).
  destruct (bodyRegex_shape part i e Hm)
    as (flag & ws & q & content & Hf & _ & Hq & _ & _ & H1 & H2 & H3).
  exists flag, [q], content. repeat split; try assumption.
  intros Hc HS. unfold addSignatureToGhCommand. cbv zeta. fold part.
  rewrite Hflag, He, H1, H2, H3. cbn [defined].
  destruct (indexOf_fullMatch part i e He) as (Hidx & Hlen).
  unfold replace_string. rewrite Hidx, Hlen.
  rewrite getSubstitution_no_dollar.
  - unfold slice_from. rewrite slice_zero. now rewrite <- !app_assoc.
  - rewrite !no_dollar_app, (no_dollar_trimEnd _ Hc), (no_dollar_escapeForShell _ HS).
    assert (Hq' : no_dollar [q] = true).
    { unfold quoteChar, one_of, none in Hq. simpl in Hq. rewrite !orb_false_r in Hq.
      apply orb_true_iff in Hq as [Hq|Hq]; apply N.eqb_eq in Hq; subst; reflexivity. }
    rewrite Hq'. destruct Hf as [-> | ->]; reflexivity.
Qed.

(** Every group of [bodyRegex] takes part in each of its matches. *)
Lemma bodyRegex_groups (part : jsstring) (i : nat) (e : mstate) :
  exec bodyRegex part = Some (i, e) ->
  exists flag quote content,
    group_text part e 1 = Some flag /\
    group_text part e 2 = Some quote /\
    group_text part e 3 = Some content.
Proof.
  intros He. destruct (exec_found _ _ _ _ He) as (_ & Hm & _).
  destruct (bodyRegex_shape part i e Hm)
    as (flag & ws & q & content & _ & _ & _ & _ & _ & H1 & H2 & H3).
  eauto 6.
Qed.

End GhBodyFacts.
Import GhBodyFacts.

Module GhBodyClaims.
Import Examples.

(** C8 on a body that holds dollars.  The segment
    [gh pr create --body 'Energy: $$E=mc^2$$ ' --draft] has a body flag
    with a quoted value, which [bodyRegex] finds; appending to that value
    would give [mathBodyAppended], but the rewrite returns
    [mathBodyRewritten]: the new flag and value go through the template
    reading of [String.prototype.replace], where each [$$] of the existing
    content becomes one dollar. *)
Theorem dollars_of_body_read_as_template :
  matchIndex ghRegex mathBody = Some 0 /\
  findCommandEndIndex mathBody 0 = length mathBody /\
  hasBodyFlag mathBody = true /\
  option_map (fun m => (fst m, group_text mathBody (snd m) 3)) (exec bodyRegex mathBody)
  = Some (13, Some (js "Energy: $$E=mc^2$$ ")) /\
  rewrite mathBody (generateSignature (js "Kimi")) = mathBodyRewritten /\
  mathBodyRewritten <> mathBodyAppended.
Proof.
  repeat split; try (vm_compute; reflexivity).
  intros H. vm_compute in H. discriminate H.
Qed.

End GhBodyClaims.

(* ===================================================================== *)
(** ** The scanner, further *)
(* ===================================================================== *)

Module ScannerProperties.
Import Examples.

Lemma scan_bounds (command : jsstring) :
  forall remaining prevChar i inS inD,
    i + length remaining = length command ->
    i <= scan command remaining prevChar i inS inD <= length command.
Proof.
  induction remaining as [|c r IH]; intros prev i inS inD H; simpl in *.
  - lia.
  - assert (Hr : forall p s d, i <= scan command r p (S i) s d <= length command).
    { intros p s d. specialize (IH p (S i) s d). lia. }
    repeat match goal with
           | |- context [if ?b then _ else _] => destruct b
           end; try apply Hr; lia.
Qed.

(** The loop reads [prevChar] only to see whether it is a backslash. *)
Lemma scan_prevChar (command remaining : jsstring) (p p' : option N) (i : nat)
      (inS inD : bool) :
  notBackslash p = notBackslash p' ->
  scan command remaining p i inS inD = scan command remaining p' i inS inD.
Proof.
  intros H. destruct remaining as [|c r]; [reflexivity|]. simpl. now rewrite H.
Qed.

(** The loop in two commands that end with the same text: the results are
    the same distance from the two starting indices. *)
Lemma scan_shift (command command' : jsstring) :
  forall remaining prevChar i j inS inD,
    i + length remaining = length command ->
    j + length remaining = length command' ->
    scan command remaining prevChar i inS inD + j
    = scan command' remaining prevChar j inS inD + i.
Proof.
  induction remaining as [|c r IH]; intros prev i j inS inD Hi Hj; simpl in *.
  - lia.
  - assert (Hr : forall p s d,
               scan command r p (S i) s d + j = scan command' r p (S j) s d + i).
    { intros p s d. specialize (IH p (S i) (S j) s d). lia. }
    repeat match goal with
           | |- context [if ?b then _ else _] => destruct b
           end; try apply Hr; lia.
Qed.

Lemma char_before_app (a b : jsstring) (k : nat) :
  0 < k -> char_before (a ++ b) (length a + k) = char_before b k.
Proof.
  intros H. destruct k as [|k]; [lia|].
  replace (length a + S k) with (S (length a + k)) by lia. simpl.
  rewrite nth_error_app2 by lia. f_equal. lia.
Qed.

Lemma char_before_end (a b : jsstring) :
  char_before (a ++ b) (length a) = char_before a (length a).
Proof.
  induction a as [|x a _] using rev_ind; [reflexivity|].
  rewrite length_app. simpl. replace (length a + 1) with (S (length a)) by lia.
  simpl. rewrite <- app_assoc. rewrite (nth_error_app2 a) by lia.
  rewrite (nth_error_app2 a [x]) by lia. now rewrite Nat.sub_diag.
Qed.

Lemma notBackslash_last (a : jsstring) :
  last a 0%N <> backslash -> notBackslash (char_before a (length a)) = true.
Proof.
  induction a as [|x a _] using rev_ind; [reflexivity|].
  rewrite last_last. intros H. rewrite length_app. simpl.
  replace (length a + 1) with (S (length a)) by lia. simpl.
  rewrite nth_error_app2 by lia. rewrite Nat.sub_diag. simpl.
  apply negb_true_iff. now apply N.eqb_neq.
Qed.

Lemma skipn_app_plus (a b : jsstring) (k : nat) :
  skipn (length a + k) (a ++ b) = skipn k b.
Proof.
  rewrite skipn_app. rewrite skipn_all2 by lia. simpl. f_equal. lia.
Qed.

Lemma findCommandEndIndex_shift (a b : jsstring) (k : nat) :
  (k = 0 -> last a 0%N <> backslash) ->
  findCommandEndIndex (a ++ b) (length a + k) = length a + findCommandEndIndex b k.
Proof.
  intros H. unfold findCommandEndIndex. rewrite skipn_app_plus.
  destruct (Nat.le_gt_cases k (length b)) as [Hk|Hk].
  - assert (Hp : notBackslash (char_before (a ++ b) (length a + k))
                 = notBackslash (char_before b k)).
    { destruct k as [|k].
      - rewrite Nat.add_0_r, char_before_end, notBackslash_last by auto. reflexivity.
      - now rewrite char_before_app by lia. }
    rewrite (scan_prevChar _ _ _ _ _ _ _ Hp).
    pose proof (scan_shift (a ++ b) b (skipn k b) (char_before b k)
                  (length a + k) k false false) as E.
    rewrite length_app, length_skipn in E. lia.
  - rewrite skipn_all2 by lia. simpl. rewrite length_app. lia.
Qed.

(** X1.  The index that [findCommandEndIndex] returns lies between the
    start index and the length of the command; from a start index past the
    end it is the length of the command. *)
Theorem findCommandEndIndex_within (command : jsstring) (start : nat) :
  Nat.min start (length command) <= findCommandEndIndex command start
  /\ findCommandEndIndex command start <= length command.
Proof.
  unfold findCommandEndIndex.
  destruct (Nat.le_gt_cases start (length command)) as [H|H].
  - rewrite Nat.min_l by lia.
    apply scan_bounds. rewrite length_skipn. lia.
  - rewrite skipn_all2 by lia. simpl. lia.
Qed.

Lemma last_cons_default (A : Type) (x d : A) (l : list A) :
  last (x :: l) d = last l x.
Proof.
  revert x d. induction l as [|y l IH]; intros x d; [reflexivity|].
  change (last (x :: y :: l) d) with (last (y :: l) d).
  now rewrite (IH y d), (IH y x).
Qed.

(** Inside a quoted region every character but an unescaped quote of the
    same kind is passed over. *)
Lemma scan_quoted (command : jsstring) (q : N) (after : jsstring) :
  q = squote \/ q = dquote ->
  forall inner prevChar i,
    forallb (fun c => negb (c =? q)%N) inner = true ->
    notBackslash (last (map Some inner) prevChar) = true ->
    scan command (inner ++ q :: after) prevChar i (q =? squote)%N (q =? dquote)%N
    = scan command after (Some q) (i + length inner + 1) false false.
Proof.
  intros Hq. induction inner as [|c inner IH]; intros prev i Hin Hlast.
  - simpl in Hlast. simpl app. cbn [scan]. rewrite Hlast.
    simpl length. replace (i + 0 + 1) with (S i) by lia.
    destruct Hq as [-> | ->]; reflexivity.
  - simpl in Hin. apply andb_true_iff in Hin as [Hc Hin].
    apply negb_true_iff in Hc.
    change (map Some (c :: inner)) with (Some c :: map Some inner) in Hlast.
    rewrite last_cons_default in Hlast.
    specialize (IH (Some c) (S i) Hin Hlast).
    simpl length. replace (i + S (length inner) + 1) with (S i + length inner + 1) by lia.
    rewrite <- IH. simpl app. cbn [scan].
    destruct Hq as [-> | ->]; rewrite Hc; cbn [negb andb];
      destruct (c =? squote)%N, (c =? dquote)%N; try reflexivity; try discriminate.
Qed.

(** X2.  The scanner reads nothing before the start index but, at the
    start of a segment, whether the character before is a backslash: text
    put before a command moves the index by its length. *)
Theorem findCommandEndIndex_in_context (a b : jsstring) (k : nat) :
  (k = 0 -> last a 0%N <> backslash) ->
  findCommandEndIndex (a ++ b) (length a + k) = length a + findCommandEndIndex b k.
Proof. exact (findCommandEndIndex_shift a b k). Qed.

Lemma findCommandEndIndex_in_context_witness :
  (0 = 0 -> last (js "ls && ") 0%N <> backslash) /\
  findCommandEndIndex (js "ls && " ++ fixBug) (length (js "ls && ") + 0)
  = length (js "ls && ") + findCommandEndIndex fixBug 0.
Proof.
  split; [intros _; vm_compute; discriminate|].
  apply (findCommandEndIndex_in_context (js "ls && ") fixBug 0).
  intros _; vm_compute; discriminate.
Defined.

(** X3.  A quoted region that starts at the start index is passed over
    whole, separators included: when the region holds no quote character of
    its kind and no backslash ends it or stands before it, the scan goes on
    after the closing quote as it would at the start of the rest. *)
Theorem quoted_region_is_skipped (a : jsstring) (q : N) (inner rest : jsstring) :
  q = squote \/ q = dquote ->
  last a 0%N <> backslash ->
  forallb (fun c => negb (c =? q)%N) inner = true ->
  last inner 0%N <> backslash ->
  findCommandEndIndex (a ++ q :: inner ++ q :: rest) (length a)
  = length a + length inner + 2 + findCommandEndIndex rest 0.
Proof.
  intros Hq Ha Hin Hlast.
  rewrite <- (Nat.add_0_r (length a)) at 1.
  rewrite findCommandEndIndex_shift by auto.
  set (command := q :: inner ++ q :: rest).
  assert (Hopen : findCommandEndIndex command 0
                  = scan command (inner ++ q :: rest) (Some q) 1
                         (q =? squote)%N (q =? dquote)%N).
  { unfold findCommandEndIndex, command. simpl skipn. cbn [scan char_before notBackslash].
    destruct Hq as [-> | ->]; reflexivity. }
  rewrite Hopen, (scan_quoted command q rest Hq inner (Some q) 1 Hin).
  - assert (Hp : notBackslash (Some q) = notBackslash None)
      by (destruct Hq as [-> | ->]; reflexivity).
    rewrite (scan_prevChar _ _ _ _ _ _ _ Hp).
    pose proof (scan_shift command rest rest None (1 + length inner + 1) 0 false false) as E.
    unfold findCommandEndIndex. simpl skipn. simpl char_before.
    unfold command in E at 1. simpl length in E. rewrite length_app in E. simpl length in E.
    specialize (E ltac:(lia) ltac:(lia)). lia.
  - destruct inner as [|c inner] using rev_ind.
    + simpl. destruct Hq as [-> | ->]; reflexivity.
    + rewrite map_app. simpl map. rewrite last_last.
      rewrite last_last in Hlast. simpl.
      apply negb_true_iff. now apply N.eqb_neq.
Qed.

Lemma quoted_region_is_skipped_witness :
  last (js "git commit -m ") 0%N <> backslash /\
  forallb (fun c => negb (c =? dquote)%N) (js "a; b") = true /\
  last (js "a; b") 0%N <> backslash /\
  findCommandEndIndex (js "git commit -m " ++ dquote :: js "a; b" ++ dquote :: js " && ls")
    (length (js "git commit -m "))
  = length (js "git commit -m ") + length (js "a; b") + 2
    + findCommandEndIndex (js " && ls") 0.
Proof.
  split; [vm_compute; discriminate|]. split; [reflexivity|].
  split; [vm_compute; discriminate|].
  apply (quoted_region_is_skipped (js "git commit -m ") dquote (js "a; b") (js " && ls"));
    [right; reflexivity|vm_compute; discriminate|reflexivity|vm_compute; discriminate].
Defined.

End ScannerProperties.

(* ===================================================================== *)
(** ** The escaping *)
(* ===================================================================== *)

Module EscapeProperties.

Lemma flat_map_flat_map (f g : N -> jsstring) (l : jsstring) :
  flat_map f (flat_map g l) = flat_map (fun x => flat_map f (g x)) l.
Proof.
  induction l as [|x l IH]; [reflexivity|]. simpl.
  now rewrite flat_map_app, IH.
Qed.

Lemma escapeForShell_chars (text : jsstring) :
  escapeForShell text = flat_map escaped text.
Proof.
  rewrite escapeForShell_flat_map, flat_map_flat_map.
  apply flat_map_ext. intros c. unfold escaped, exactly.
  destruct (c =? backslash)%N eqn:Eb.
  - reflexivity.
  - simpl. destruct (c =? dquote)%N; reflexivity.
Qed.

Lemma unescape_escaped (c : N) (t : jsstring) :
  (forall r, unescape (escaped c ++ r) = c :: unescape r).
Proof.
  intros r. unfold escaped.
  destruct (c =? backslash)%N eqn:Eb.
  - apply N.eqb_eq in Eb. subst. reflexivity.
  - destruct (c =? dquote)%N eqn:Ed.
    + apply N.eqb_eq in Ed. subst. reflexivity.
    + simpl. now rewrite Eb.
Qed.

Lemma unescape_escapeForShell (text : jsstring) :
  unescape (escapeForShell text) = text.
Proof.
  rewrite escapeForShell_chars.
  induction text as [|c text IH]; [reflexivity|].
  simpl. rewrite (unescape_escaped c text). now rewrite IH.
Qed.

(** X4.  [escapeForShell] loses nothing: reading its result as the inside
    of a double-quoted word gives the text back, so two texts with the same
    escaped form are the same text. *)
Theorem escapeForShell_can_be_read_back :
  (forall text, unescape (escapeForShell text) = text) /\
  (forall a b, escapeForShell a = escapeForShell b -> a = b).
Proof.
  split; [exact unescape_escapeForShell|].
  intros a b H. rewrite <- (unescape_escapeForShell a), <- (unescape_escapeForShell b).
  now rewrite H.
Qed.

Lemma escapeForShell_can_be_read_back_witness :
  escapeForShell (js "a\b") = escapeForShell (js "a\b") /\ js "a\b" = js "a\b".
Proof.
  split; [reflexivity|].
  apply (proj2 escapeForShell_can_be_read_back (js "a\b") (js "a\b")); reflexivity.
Defined.

Lemma escaped_plain (c : N) : special c = false -> escaped c = [c].
Proof.
  unfold special, escaped. intros H. apply orb_false_iff in H as [-> ->]. reflexivity.
Qed.

Lemma escaped_length (c : N) :
  length (escaped c) = if special c then 2 else 1.
Proof.
  unfold special, escaped.
  destruct (c =? backslash)%N; [reflexivity|]. destruct (c =? dquote)%N; reflexivity.
Qed.

(** X5.  [escapeForShell] works character by character: it distributes
    over concatenation, leaves exactly the texts without backslash and
    double quote as they are, and adds one character for each backslash and
    each double quote. *)
Theorem escapeForShell_by_character :
  (forall a b, escapeForShell (a ++ b) = escapeForShell a ++ escapeForShell b) /\
  (forall text, escapeForShell text = text <-> existsb special text = false) /\
  (forall text,
      length (escapeForShell text) = length text + length (filter special text)).
Proof.
  split; [|split].
  - intros a b. rewrite !escapeForShell_chars. apply flat_map_app.
  - intros text. rewrite escapeForShell_chars.
    induction text as [|c text IH]; [now split|]. simpl.
    destruct (special c) eqn:Hc; simpl.
    + split; [|discriminate]. intros H. exfalso.
      apply (f_equal (@length N)) in H. rewrite length_app, escaped_length, Hc in H.
      simpl in H.
      assert (Hlen : forall t, length t <= length (flat_map escaped t)).
      { induction t as [|d t IHt]; [simpl; lia|]. simpl.
        rewrite length_app, escaped_length. destruct (special d); lia. }
      specialize (Hlen text). lia.
    + rewrite (escaped_plain c Hc). simpl. rewrite <- IH. split.
      * intros H. injection H as H. exact H.
      * intros H. now rewrite H.
  - intros text. rewrite escapeForShell_chars.
    induction text as [|c text IH]; [reflexivity|]. simpl.
    rewrite length_app, escaped_length, IH.
    destruct (special c); simpl; lia.
Qed.

Lemma escapeForShell_by_character_witness :
  existsb special (js "fix bug") = false /\ escapeForShell (js "fix bug") = js "fix bug".
Proof.
  split; [reflexivity|].
  apply (proj2 (proj1 (proj2 escapeForShell_by_character) (js "fix bug"))); reflexivity.
Defined.

End EscapeProperties.

(* ===================================================================== *)
(** ** The signature *)
(* ===================================================================== *)

Module SignatureProperties.

Lemma flat_map_escaped_plain (text : jsstring) :
  existsb special text = false -> flat_map escaped text = text.
Proof.
  induction text as [|c text IH]; [reflexivity|]. cbn [existsb flat_map].
  intros H. apply orb_false_iff in H as [Hc H].
  rewrite (EscapeProperties.escaped_plain c Hc), (IH H). reflexivity.
Qed.

(** X6.  The signature holds the marker whatever the display name is, two
    display names with the same signature are the same name, and escaping
    leaves the signature as it is when the display name holds neither a
    backslash nor a double quote: the text of the signature itself needs no
    escaping. *)
Theorem generateSignature_names_the_model :
  (forall modelName, hasSignature (generateSignature modelName) = true) /\
  (forall a b, generateSignature a = generateSignature b -> a = b) /\
  (forall modelName,
      existsb special modelName = false ->
      escapeForShell (generateSignature modelName) = generateSignature modelName).
Proof.
  split; [|split].
  - exact generateSignature_hasSignature.
  - intros a b H. unfold generateSignature in H.
    apply app_inv_head in H. apply app_inv_head in H. apply app_inv_tail in H.
    exact H.
  - intros modelName H. rewrite EscapeProperties.escapeForShell_chars.
    apply flat_map_escaped_plain. unfold generateSignature.
    rewrite !existsb_app, H. reflexivity.
Qed.

Lemma generateSignature_names_the_model_witness :
  existsb special (js "Claude 3.5 Sonnet") = false /\
  escapeForShell (generateSignature (js "Claude 3.5 Sonnet"))
  = generateSignature (js "Claude 3.5 Sonnet").
Proof.
  split; [reflexivity|].
  apply (proj2 (proj2 generateSignature_names_the_model) (js "Claude 3.5 Sonnet")).
  reflexivity.
Defined.

End SignatureProperties.

(* ===================================================================== *)
(** ** The hook, further *)
(* ===================================================================== *)

Module HookProperties.
Import Examples.

Lemma prIssueTools_excludes (tool : jsstring) :
  ~ In tool prIssueTools -> existsb (jsstring_eqb tool) prIssueTools = false.
Proof.
  intros H. destruct (existsb (jsstring_eqb tool) prIssueTools) eqn:E; [|reflexivity].
  exfalso. apply H. apply existsb_exists in E as (x & Hx & Heq).
  unfold jsstring_eqb in Heq. destruct (list_eq_dec N.eq_dec tool x); [now subst|discriminate].
Qed.

Lemma jsstring_eqb_neq (a b : jsstring) : a <> b -> jsstring_eqb a b = false.
Proof.
  intros H. unfold jsstring_eqb. destruct (list_eq_dec N.eq_dec a b); congruence.
Qed.

Lemma hasSignature_nonempty (text : jsstring) : hasSignature text = true -> text <> [].
Proof. intros H ->. discriminate H. Qed.

(** A rewrite with a signature never leaves an empty command where there
    was one. *)
Lemma rewrite_nonempty (c S : jsstring) :
  hasSignature S = true -> c <> [] -> rewrite c S <> [].
Proof.
  intros HS Hc. destruct (rewrite_unchanged_or_signed c S HS) as [E|E].
  - now rewrite E.
  - now apply hasSignature_nonempty.
Qed.

Lemma present_some (f : option jsstring) (s : jsstring) :
  present f = Some s -> f = Some s /\ s <> [].
Proof.
  destruct f as [t|]; [|discriminate]. simpl.
  destruct t; simpl; [discriminate|]. intros H. inversion H; subst. split; [reflexivity|discriminate].
Qed.

Lemma prIssueTools_In (tool : jsstring) :
  existsb (jsstring_eqb tool) prIssueTools = true -> In tool prIssueTools.
Proof.
  intros E. apply existsb_exists in E as (x & Hx & Heq).
  unfold jsstring_eqb in Heq. destruct (list_eq_dec N.eq_dec tool x); [now subst|discriminate].
Qed.

(** A structured tool leaves a signed body alone. *)
Lemma structured_signed (currentModel tool : jsstring) (a : Args) (b : jsstring) :
  In tool prIssueTools -> body a = Some b -> hasSignature b = true ->
  tool_execute_before currentModel tool (Some a) = Returned (Some a).
Proof.
  intros Htool Hb Hs. rewrite (structured_tool currentModel tool a Htool), Hb.
  rewrite (present_nonempty b (hasSignature_nonempty b Hs)), Hs. reflexivity.
Qed.

Lemma bash_tool (currentModel tool : jsstring) (a : Args) :
  ~ In tool prIssueTools -> tool = js "bash" ->
  tool_execute_before currentModel tool (Some a)
  = match present (command a) with
    | Some c => Returned (Some (MkArgs (body a)
                                       (Some (rewrite c (generateSignature currentModel)))))
    | None => Returned (Some a)
    end.
Proof.
  intros Htool ->. unfold tool_execute_before.
  rewrite (prIssueTools_excludes _ Htool), jsstring_eqb_refl. reflexivity.
Qed.

(** X7.  The hook [tool.execute.before] is idempotent for every tool and
    every display name: run on the arguments that it returned, it returns
    them as they are. *)
Theorem tool_execute_before_idempotent (currentModel tool : jsstring)
        (args out : option Args) :
  tool_execute_before currentModel tool args = Returned out ->
  tool_execute_before currentModel tool out = Returned out.
Proof.
  destruct (existsb (jsstring_eqb tool) prIssueTools) eqn:Htool.
  - apply prIssueTools_In in Htool.
    destruct args as [a|];
      [|unfold tool_execute_before; rewrite (prIssueTools_includes tool Htool); discriminate].
    rewrite (structured_tool currentModel tool a Htool).
    destruct (present (body a)) as [b|] eqn:Hb.
    + destruct (hasSignature b) eqn:Hsig; intros H; inversion H; subst out; clear H.
      * apply present_some in Hb as [Hb _].
        exact (structured_signed currentModel tool a b Htool Hb Hsig).
      * eapply structured_signed; [exact Htool|reflexivity|].
        unfold hasSignature.
        apply includes_app_r, (includes_app_r marker [newline; newline]).
        apply generateSignature_hasSignature.
    + intros H; inversion H; subst out; clear H.
      eapply structured_signed; [exact Htool|reflexivity|].
      apply generateSignature_hasSignature.
  - assert (Hnot : ~ In tool prIssueTools).
    { intros Hin. rewrite (prIssueTools_includes tool Hin) in Htool. discriminate. }
    destruct (list_eq_dec N.eq_dec tool (js "bash")) as [Hbash|Hbash].
    + destruct args as [a|].
      * rewrite (bash_tool currentModel tool a Hnot Hbash).
        destruct (present (command a)) as [c|] eqn:Hc;
          intros H; inversion H; subst out; clear H.
        -- rewrite (bash_tool currentModel tool _ Hnot Hbash). cbn [body command].
           apply present_some in Hc as [_ Hne].
           rewrite (present_nonempty _ (rewrite_nonempty c _
                      (generateSignature_hasSignature currentModel) Hne)).
           now rewrite rewrite_idempotent_marked by apply generateSignature_hasSignature.
        -- rewrite (bash_tool currentModel tool a Hnot Hbash). now rewrite Hc.
      * unfold tool_execute_before. rewrite Htool.
        destruct (jsstring_eqb tool (js "bash")); intros H; inversion H; reflexivity.
    + unfold tool_execute_before. rewrite Htool, (jsstring_eqb_neq _ _ Hbash).
      intros H; inversion H. reflexivity.
Qed.

Lemma tool_execute_before_idempotent_witness :
  tool_execute_before (js "Kimi") (js "bash") (Some (MkArgs None (Some fixBug)))
  = Returned (Some (MkArgs None (Some (rewrite fixBug (generateSignature (js "Kimi")))))) /\
  tool_execute_before (js "Kimi") (js "bash")
    (Some (MkArgs None (Some (rewrite fixBug (generateSignature (js "Kimi"))))))
  = Returned (Some (MkArgs None (Some (rewrite fixBug (generateSignature (js "Kimi")))))).
Proof.
  split; [vm_compute; reflexivity|].
  apply (tool_execute_before_idempotent (js "Kimi") (js "bash")
           (Some (MkArgs None (Some fixBug)))).
  vm_compute; reflexivity.
Defined.

(** X8.  The hook writes one field at most: for a structured tool the
    command is kept, for every other tool the body is kept, and a tool that
    is neither structured nor [bash] gets its arguments back as they
    were. *)
Theorem tool_execute_before_touches_one_field (currentModel tool : jsstring) (a a' : Args) :
  tool_execute_before currentModel tool (Some a) = Returned (Some a') ->
  (In tool prIssueTools -> command a' = command a) /\
  (~ In tool prIssueTools -> body a' = body a) /\
  (~ In tool prIssueTools -> tool <> js "bash" -> a' = a).
Proof.
  intros H. repeat split.
  - intros Htool. rewrite (structured_tool currentModel tool a Htool) in H.
    destruct (present (body a)) as [b|]; [destruct (hasSignature b)|];
      inversion H; reflexivity.
  - intros Htool. unfold tool_execute_before in H.
    rewrite (prIssueTools_excludes tool Htool) in H.
    destruct (jsstring_eqb tool (js "bash")); [|inversion H; reflexivity].
    destruct (present (command a)); inversion H; reflexivity.
  - intros Htool Hbash. unfold tool_execute_before in H.
    rewrite (prIssueTools_excludes tool Htool), (jsstring_eqb_neq _ _ Hbash) in H.
    now inversion H.
Qed.

Lemma tool_execute_before_touches_one_field_witness :
  tool_execute_before (js "Kimi") (js "bash") (Some (MkArgs (Some (js "note")) (Some fixBug)))
  = Returned (Some (MkArgs (Some (js "note"))
                      (Some (rewrite fixBug (generateSignature (js "Kimi")))))) /\
  (~ In (js "bash") prIssueTools ->
   body (MkArgs (Some (js "note")) (Some (rewrite fixBug (generateSignature (js "Kimi")))))
   = body (MkArgs (Some (js "note")) (Some fixBug))).
Proof.
  split; [vm_compute; reflexivity|].
  apply (tool_execute_before_touches_one_field (js "Kimi") (js "bash")
           (MkArgs (Some (js "note")) (Some fixBug))
           (MkArgs (Some (js "note")) (Some (rewrite fixBug (generateSignature (js "Kimi")))))).
  vm_compute; reflexivity.
Defined.

(** X9.  A structured tool without arguments makes the hook throw
    ([output.args.body = signature] on [undefined]); with arguments whose
    body is absent or empty, the body becomes the signature alone, without
    the blank line. *)
Theorem structured_tool_missing_parts (currentModel tool : jsstring) :
  In tool prIssueTools ->
  tool_execute_before currentModel tool None = TypeError /\
  (forall a,
      body a = None \/ body a = Some [] ->
      tool_execute_before currentModel tool (Some a)
      = Returned (Some (MkArgs (Some (generateSignature currentModel)) (command a)))).
Proof.
  intros Htool. split.
  - unfold tool_execute_before. now rewrite (prIssueTools_includes tool Htool).
  - intros a Hb. rewrite (structured_tool currentModel tool a Htool).
    destruct Hb as [-> | ->]; reflexivity.
Qed.

Lemma structured_tool_missing_parts_witness :
  In createIssue prIssueTools /\
  tool_execute_before (js "Kimi") createIssue None = TypeError /\
  tool_execute_before (js "Kimi") createIssue (Some (MkArgs (Some []) None))
  = Returned (Some (MkArgs (Some (generateSignature (js "Kimi"))) None)).
Proof.
  split; [right; left; reflexivity|].
  split.
  - apply (structured_tool_missing_parts (js "Kimi") createIssue).
    right; left; reflexivity.
  - apply (proj2 (structured_tool_missing_parts (js "Kimi") createIssue
                    (or_intror (or_introl eq_refl)))
             (MkArgs (Some []) None)).
    right; reflexivity.
Defined.

(** X10.  The hook throws in one case only: a structured tool without
    arguments.  The [bash] branch and every other tool return, with
    arguments or without. *)
Theorem tool_execute_before_throws (currentModel tool : jsstring) (args : option Args) :
  tool_execute_before currentModel tool args = TypeError
  <-> In tool prIssueTools /\ args = None.
Proof.
  unfold tool_execute_before.
  destruct (existsb (jsstring_eqb tool) prIssueTools) eqn:E.
  - apply prIssueTools_In in E. split.
    + intros H. split; [exact E|].
      destruct args as [a|]; [|reflexivity].
      destruct (present (body a)) as [b|]; [|discriminate].
      destruct (negb (hasSignature b)); discriminate.
    + intros [_ ->]. reflexivity.
  - split.
    + intros H. exfalso.
      destruct (jsstring_eqb tool (js "bash")); [|discriminate].
      destruct args as [a|]; [|discriminate].
      destruct (present (command a)); discriminate.
    + intros [Htool _]. apply prIssueTools_includes in Htool. congruence.
Qed.

Lemma tool_execute_before_throws_witness :
  (In createIssue prIssueTools /\ @None Args = None) /\
  tool_execute_before (js "Kimi") createIssue None = TypeError.
Proof.
  split; [split; [right; left; reflexivity|reflexivity]|].
  apply (proj2 (tool_execute_before_throws (js "Kimi") createIssue None)).
  split; [right; left; reflexivity|reflexivity].
Defined.

End HookProperties.

(* ===================================================================== *)
(** ** The rewrite of the command, further *)
(* ===================================================================== *)

Module RewriteProperties.
Import Examples.

(** A targeted command without a signature gets one. *)
Lemma rewrite_targeted_signed (C S : jsstring) :
  hasSignature S = true -> hasSignature C = false -> targeted C = true ->
  hasSignature (rewrite C S) = true.
Proof.
  intros HS HC Ht. unfold rewrite. rewrite HC.
  unfold targeted, commitFamily in Ht.
  destruct (test gitCommitRegex C && test messageFlagRegex C) eqn:Hfam.
  - apply andb_true_iff in Hfam as [Hgit _]. unfold test in Hgit.
    destruct (exec gitCommitRegex C) as [[index e]|]; [|discriminate].
    apply includes_mid. now apply messageToken_hasSignature.
  - simpl in Ht. rewrite Ht. unfold isGhCommandWithBody, test in Ht.
    destruct (exec ghRegex C) as [[index e]|]; [|discriminate].
    now apply addSignatureToGhCommand_hasSignature.
Qed.

Lemma rewrite_untargeted (C S : jsstring) :
  targeted C = false -> rewrite C S = C.
Proof.
  unfold targeted, commitFamily. intros H. apply orb_false_iff in H as [Hfam Hgh].
  unfold rewrite. rewrite Hfam, Hgh. now destruct (hasSignature C).
Qed.

Lemma rewrite_signed (C S : jsstring) : hasSignature C = true -> rewrite C S = C.
Proof. intros H. unfold rewrite. now rewrite H. Qed.

(** X11.  The rewrite of the [bash] branch changes exactly the targeted
    commands that hold no marker: the result holds the marker when the
    command did or is targeted, and the command is returned as it was
    exactly when it holds the marker or is not targeted. *)
Theorem rewrite_changes_unsigned_targets (C modelName : jsstring) :
  let S := generateSignature modelName in
  hasSignature (rewrite C S) = hasSignature C || targeted C /\
  (rewrite C S = C <-> hasSignature C = true \/ targeted C = false).
Proof.
  intros S. pose proof (generateSignature_hasSignature modelName) as HS. fold S in HS.
  destruct (hasSignature C) eqn:HC.
  - rewrite (rewrite_signed C S HC). rewrite HC. split; [reflexivity|]. tauto.
  - destruct (targeted C) eqn:Ht.
    + pose proof (rewrite_targeted_signed C S HS HC Ht) as E. rewrite E.
      split; [reflexivity|]. split.
      * intros H. rewrite H in E. congruence.
      * intros [H|H]; discriminate.
    + rewrite (rewrite_untargeted C S Ht), HC. split; [reflexivity|]. tauto.
Qed.

Lemma rewrite_changes_unsigned_targets_witness :
  (hasSignature (js "ls -la") = true \/ targeted (js "ls -la") = false) /\
  rewrite (js "ls -la") (generateSignature (js "Kimi")) = js "ls -la".
Proof.
  split; [right; reflexivity|].
  apply (proj2 (proj2 (rewrite_changes_unsigned_targets (js "ls -la") (js "Kimi")))).
  right; reflexivity.
Defined.

Lemma no_quote_no_body_match (part : jsstring) :
  forallb (fun c => negb (quoteChar c)) part = true -> exec bodyRegex part = None.
Proof.
  intros H. destruct (exec bodyRegex part) as [[i e]|] eqn:He; [|reflexivity].
  exfalso. destruct (exec_found _ _ _ _ He) as (_ & Hm & _).
  destruct (bodyRegex_shape part i e Hm)
    as (flag & ws & q & content & _ & _ & Hq & Hs & _).
  rewrite <- (firstn_skipn i part), Hs in H.
  rewrite !forallb_app in H. simpl in H. rewrite Hq in H. simpl in H.
  rewrite !andb_false_r in H. discriminate.
Qed.

(** X12.  A [gh] segment whose body flag is followed by no quoted value
    (the segment holds no quote character) keeps its body flag and gets a
    second [--body] token at its end: the fallback of
    [addSignatureToGhCommand]. *)
Theorem gh_unquoted_body_gets_second_flag (C S : jsstring) (index : nat) :
  hasSignature C = false ->
  commitFamily C = false ->
  matchIndex ghRegex C = Some index ->
  let endIndex := findCommandEndIndex C index in
  hasBodyFlag (slice C index endIndex) = true ->
  forallb (fun c => negb (quoteChar c)) (slice C index endIndex) = true ->
  rewrite C S
  = firstn index C ++ trimEnd (slice C index endIndex)
    ++ js " --body " ++ [dquote] ++ escapeForShell S ++ [dquote]
    ++ slice_from C endIndex.
Proof.
  intros Hsig Hfam Hidx endIndex Hflag Hq.
  rewrite (rewrite_gh C S index Hsig Hfam Hidx).
  unfold addSignatureToGhCommand. cbv zeta. fold endIndex.
  rewrite Hflag, (no_quote_no_body_match _ Hq), slice_zero.
  unfold bodyToken. now rewrite <- !app_assoc.
Qed.

Lemma gh_unquoted_body_gets_second_flag_witness :
  hasSignature (js "gh pr create --body text") = false /\
  commitFamily (js "gh pr create --body text") = false /\
  matchIndex ghRegex (js "gh pr create --body text") = Some 0 /\
  hasBodyFlag (slice (js "gh pr create --body text") 0
                 (findCommandEndIndex (js "gh pr create --body text") 0)) = true /\
  rewrite (js "gh pr create --body text") (generateSignature (js "Kimi"))
  = firstn 0 (js "gh pr create --body text")
    ++ trimEnd (slice (js "gh pr create --body text") 0
                  (findCommandEndIndex (js "gh pr create --body text") 0))
    ++ js " --body " ++ [dquote] ++ escapeForShell (generateSignature (js "Kimi")) ++ [dquote]
    ++ slice_from (js "gh pr create --body text")
         (findCommandEndIndex (js "gh pr create --body text") 0).
Proof.
  split; [reflexivity|]. split; [reflexivity|]. split; [reflexivity|].
  split; [reflexivity|].
  apply (gh_unquoted_body_gets_second_flag (js "gh pr create --body text")
           (generateSignature (js "Kimi")) 0); vm_compute; reflexivity.
Defined.

Lemma no_dollar_firstn (s : jsstring) (n : nat) : no_dollar s = true -> no_dollar (firstn n s) = true.
Proof.
  intros H. rewrite <- (firstn_skipn n s), no_dollar_app in H.
  now apply andb_true_iff in H.
Qed.

Lemma no_dollar_skipn (s : jsstring) (n : nat) : no_dollar s = true -> no_dollar (skipn n s) = true.
Proof.
  intros H. rewrite <- (firstn_skipn n s), no_dollar_app in H.
  now apply andb_true_iff in H.
Qed.

Lemma no_dollar_slice (s : jsstring) (a b : nat) : no_dollar s = true -> no_dollar (slice s a b) = true.
Proof. intros H. unfold slice. now apply no_dollar_firstn, no_dollar_skipn. Qed.

(** X13.  A [gh] segment with a quoted body value is extended in place
    when neither the command nor the signature holds a dollar: the text
    before the first match of the body pattern and the text after it are
    kept, and between them stand the flag, one space, the quote, the value
    without the white space that ends it, a backslash and [n] twice, the
    escaped signature and the quote. *)
Theorem gh_quoted_body_is_extended_in_place (C S : jsstring) (index i : nat) (e : mstate) :
  hasSignature C = false ->
  commitFamily C = false ->
  matchIndex ghRegex C = Some index ->
  let endIndex := findCommandEndIndex C index in
  let segment := slice C index endIndex in
  hasBodyFlag segment = true ->
  exec bodyRegex segment = Some (i, e) ->
  no_dollar C = true -> no_dollar S = true ->
  let flag := defined (group_text segment e 1) in
  let quote := defined (group_text segment e 2) in
  let content := defined (group_text segment e 3) in
  rewrite C S
  = firstn index C ++ firstn i segment
    ++ flag ++ js " " ++ quote ++ trimEnd content ++ js "\n\n" ++ escapeForShell S ++ quote
    ++ skipn (pos e) segment ++ slice_from C endIndex.
Proof.
  intros Hsig Hfam Hidx endIndex segment Hflag He HC HS flag quote content.
  rewrite (rewrite_gh C S index Hsig Hfam Hidx).
  destruct (addSignature_splices C S index i e Hflag He)
    as (f & q & c & H1 & H2 & H3 & Hsplice).
  fold endIndex in H1, H2, H3, Hsplice. fold segment in H1, H2, H3, Hsplice.
  unfold flag, quote, content. rewrite H1, H2, H3. cbn [defined].
  rewrite Hsplice; [unfold slice_from; now rewrite <- !app_assoc| |exact HS].
  unfold group_text in H3. destruct (capture 3 (caps e)) as [[a b]|]; [|discriminate].
  inversion H3; subst c. apply no_dollar_slice. unfold segment. now apply no_dollar_slice.
Qed.

Lemma gh_quoted_body_is_extended_in_place_witness :
  let C := js "gh pr create --body " ++ quoted "Fix" ++ js " --draft" in
  let e := MState 25 (js " --draft") [(3, (21, 24)); (2, (20, 21)); (1, (13, 19))] in
  hasSignature C = false /\
  commitFamily C = false /\
  matchIndex ghRegex C = Some 0 /\
  hasBodyFlag (slice C 0 (findCommandEndIndex C 0)) = true /\
  exec bodyRegex (slice C 0 (findCommandEndIndex C 0)) = Some (13, e) /\
  no_dollar C = true /\ no_dollar (generateSignature (js "Kimi")) = true /\
  rewrite C (generateSignature (js "Kimi"))
  = js "gh pr create " ++ js "--body" ++ js " " ++ [dquote]
    ++ js "Fix" ++ js "\n\n" ++ escapeForShell (generateSignature (js "Kimi")) ++ [dquote]
    ++ js " --draft".
Proof.
  intros C e.
  do 7 (split; [vm_compute; reflexivity|]).
  apply (gh_quoted_body_is_extended_in_place C (generateSignature (js "Kimi")) 0 13 e);
    vm_compute; reflexivity.
Defined.

End RewriteProperties.

(* ===================================================================== *)
(** ** The namer, further *)
(* ===================================================================== *)

Module NamerProperties.

(** Removing matches never lengthens a text. *)
Lemma replace_from_empty_length (input : jsstring) (r : regex) :
  forall s p skip, length (replace_from input r [] s p skip) <= length s.
Proof.
  induction s as [|x s IH]; intros p skip.
  - destruct skip; simpl; [destruct (rmatch _ _ _ _)|]; simpl; lia.
  - destruct skip as [|skip]; simpl.
    + destruct (rmatch input r _ Some) as [e|].
      * destruct (Nat.eqb (pos e) p); simpl.
        -- specialize (IH (S p) 0). lia.
        -- specialize (IH (S p) (pos e - p - 1)). lia.
      * simpl. specialize (IH (S p) 0). lia.
    + specialize (IH (S p) skip). lia.
Qed.

(** A pattern that starts with a character finds nothing in a text that
    does not hold the character. *)
Lemma replace_from_absent (input : jsstring) (c : cset) (r : regex) (replacement : jsstring) :
  forall s p,
    forallb (fun x => negb (c x)) s = true ->
    replace_from input (Seq (Chr c) r) replacement s p 0 = s.
Proof.
  induction s as [|x s IH]; intros p H; [reflexivity|].
  simpl in H. apply andb_true_iff in H as [Hx Hs]. apply negb_true_iff in Hx.
  cbn [replace_from rmatch rest pos caps]. rewrite Hx. now rewrite IH.
Qed.

Lemma map_at_absent (l : jsstring) :
  forallb (fun x => negb (x =? 64)%N) l = true ->
  map (fun c => if (c =? 64)%N then 47%N else c) l = l.
Proof.
  induction l as [|c l IH]; [reflexivity|]. simpl. intros H.
  apply andb_true_iff in H as [Hc Hl]. apply negb_true_iff in Hc.
  now rewrite Hc, IH.
Qed.

(** X14.  The normalisation of the identifier only removes and renames:
    the result is no longer than the identifier, holds no [@], and is the
    identifier itself when that holds neither a hyphen nor an [@]. *)
Theorem cleanName_bounds (id : jsstring) :
  length (cleanName id) <= length id /\
  ~ In 64%N (cleanName id) /\
  (forallb (fun c => negb (dash c) && negb (c =? 64)%N) id = true -> cleanName id = id).
Proof.
  repeat split.
  - rewrite cleanName_at, length_map. unfold replace_all.
    pose proof (replace_from_empty_length
                  (replace_from id dateRegex [] id 0 0) hashRegex
                  (replace_from id dateRegex [] id 0 0) 0 0).
    pose proof (replace_from_empty_length id dateRegex id 0 0). lia.
  - rewrite cleanName_at. intros H. apply in_map_iff in H as (c & Hc & _).
    destruct (c =? 64)%N eqn:E; [discriminate|].
    apply N.eqb_neq in E. congruence.
  - intros H.
    assert (Hd : forallb (fun x => negb (dash x)) id = true).
    { apply forallb_forall. intros x Hx.
      rewrite forallb_forall in H. specialize (H x Hx). now apply andb_true_iff in H. }
    assert (Ha : forallb (fun x => negb (x =? 64)%N) id = true).
    { apply forallb_forall. intros x Hx.
      rewrite forallb_forall in H. specialize (H x Hx). now apply andb_true_iff in H. }
    rewrite cleanName_at. unfold replace_all.
    change dateRegex with (Seq (Chr dash) (seqs [times 4 digit; Chr dash; times 2 digit;
                                                 Chr dash; times 2 digit])).
    rewrite (replace_from_absent id dash _ [] id 0 Hd).
    change hashRegex with (Seq (Chr dash) (seqs [times 7 hex; Star true hex])).
    rewrite (replace_from_absent id dash _ [] id 0 Hd).
    now apply map_at_absent.
Qed.

Lemma cleanName_bounds_witness :
  forallb (fun c => negb (dash c) && negb (c =? 64)%N) (js "k2p5") = true /\
  cleanName (js "k2p5") = js "k2p5".
Proof.
  split; [reflexivity|].
  apply (proj2 (proj2 (cleanName_bounds (js "k2p5")))); reflexivity.
Defined.

(** X15.  Every key of the table, given as the identifier, is displayed
    as the value it is paired with, whatever the case maps of the engine
    are; this holds for the table of either revision, and also for the keys
    that the normalisation changes. *)
Theorem table_keys_display_their_values (toLowerCase toUpperCase : jsstring -> jsstring)
        (key value : jsstring) :
  (In (key, value) knownModels ->
   formatModelStringWith toLowerCase toUpperCase knownModels key = Name value) /\
  (In (key, value) knownModelsExtended ->
   formatModelStringWith toLowerCase toUpperCase knownModelsExtended key = Name value).
Proof.
  split.
  - intros H.
    assert (Hall : Forall (fun kv => formatModelStringWith toLowerCase toUpperCase
                                       knownModels (fst kv) = Name (snd kv)) knownModels)
      by (repeat constructor).
    rewrite Forall_forall in Hall. exact (Hall _ H).
  - intros H.
    assert (Hall : Forall (fun kv => formatModelStringWith toLowerCase toUpperCase
                                       knownModelsExtended (fst kv) = Name (snd kv))
                          knownModelsExtended)
      by (repeat constructor).
    rewrite Forall_forall in Hall. exact (Hall _ H).
Qed.

Lemma table_keys_display_their_values_witness :
  In (js "kimi", js "Kimi") knownModels /\
  formatModelStringWith (map ascii_lower) (map ascii_upper) knownModels (js "kimi")
  = Name (js "Kimi").
Proof.
  split; [left; reflexivity|].
  apply (proj1 (table_keys_display_their_values (map ascii_lower) (map ascii_upper)
                  (js "kimi") (js "Kimi"))).
  left; reflexivity.
Defined.

End NamerProperties.

Module HashProperties.

Lemma replace_from_hashRegex (input : jsstring) (x : N) (t : jsstring) (p : nat) :
  replace_from input hashRegex [] (x :: t) p 0
  = if dash x && (7 <=? hexrun t)
    then replace_from input hashRegex [] (skipn (hexrun t) t) (S p + hexrun t) 0
    else x :: replace_from input hashRegex [] t (S p) 0.
Proof.
  cbn [replace_from]. rewrite rmatch_hashRegex.
  destruct (dash x && (7 <=? hexrun t)); [|reflexivity].
  cbn [pos app].
  rewrite (proj2 (Nat.eqb_neq (S p + hexrun t) p)) by lia.
  replace (S p + hexrun t - p - 1) with (hexrun t) by lia.
  rewrite replace_from_skip. reflexivity.
Qed.

Lemma hexrun_skipn (t : jsstring) : hexrun (skipn (hexrun t) t) = 0.
Proof.
  induction t as [|x t IH]; [reflexivity|].
  cbn [hexrun]. destruct (hex x) eqn:E; [exact IH|].
  cbn [skipn hexrun]. now rewrite E.
Qed.

Lemma dash_not_hex (x : N) : dash x = true -> hex x = false.
Proof.
  unfold dash, exactly, hex. intros H. apply N.eqb_eq in H. now subst x.
Qed.

(** What the removal of the hash pattern leaves: no hash pattern, and no
    longer run of [0-9a-f] at the start than there was. *)
Lemma replace_from_hashFree (input : jsstring) :
  forall n s p,
    length s <= n ->
    hashFree (replace_from input hashRegex [] s p 0) = true /\
    hexrun (replace_from input hashRegex [] s p 0) <= hexrun s.
Proof.
  induction n as [|n IH]; intros s p Hn.
  - destruct s; [|simpl in Hn; lia]. split; [reflexivity|apply Nat.le_refl].
  - destruct s as [|x t]; [split; [reflexivity|apply Nat.le_refl]|].
    cbn [length] in Hn. rewrite replace_from_hashRegex.
    destruct (dash x && (7 <=? hexrun t)) eqn:E.
    + apply andb_prop in E. destruct E as [Hd _].
      destruct (IH (skipn (hexrun t) t) (S p + hexrun t)) as [H1 H2].
      { rewrite length_skipn. lia. }
      split; [exact H1|]. rewrite hexrun_skipn in H2. lia.
    + destruct (IH t (S p) ltac:(lia)) as [H1 H2].
      split.
      * cbn [hashFree]. rewrite H1, andb_true_r.
        destruct (dash x); [|reflexivity]. cbn [andb] in E |- *.
        apply Nat.leb_gt in E.
        apply negb_true_iff, Nat.leb_gt. lia.
      * cbn [hexrun]. destruct (hex x); lia.
Qed.

Lemma hashFree_map_at (l : jsstring) :
  hashFree (map (fun c => if (c =? 64)%N then 47%N else c) l) = hashFree l /\
  hexrun (map (fun c => if (c =? 64)%N then 47%N else c) l) = hexrun l.
Proof.
  induction l as [|c l [IH1 IH2]]; [split; reflexivity|].
  cbn [map hashFree hexrun]. rewrite IH1, IH2.
  destruct (c =? 64)%N eqn:E; [|split; reflexivity].
  apply N.eqb_eq in E. subst c. split; reflexivity.
Qed.

Lemma hashFree_cleanName (id : jsstring) : hashFree (cleanName id) = true.
Proof.
  rewrite cleanName_at.
  rewrite (proj1 (hashFree_map_at _)).
  unfold replace_all at 1.
  exact (proj1 (replace_from_hashFree _ _ _ 0 (Nat.le_refl _))).
Qed.

Lemma hashFree_spec (s : jsstring) :
  hashFree s = true <->
  (forall a w b, s = a ++ 45%N :: w ++ b -> length w = 7 -> forallb hex w = true -> False).
Proof.
  split.
  - intros H a. revert s H. induction a as [|y a IH]; intros s H w b -> Hl Hw.
    + cbn [app hashFree] in H. apply andb_prop in H. destruct H as [H _].
      apply negb_true_iff in H. cbn [dash exactly N.eqb andb] in H.
      change (dash 45%N) with true in H. cbn [andb] in H.
      apply Nat.leb_gt in H.
      assert (G : forall w b, forallb hex w = true -> length w <= hexrun (w ++ b)).
      { clear. induction w as [|c w IHw]; intros b Hw; [apply Nat.le_0_l|].
        cbn [forallb] in Hw. apply andb_prop in Hw. destruct Hw as [Hc Hw].
        cbn [app hexrun length]. rewrite Hc. specialize (IHw b Hw). lia. }
      specialize (G w b Hw). lia.
    + cbn [app hashFree] in H. apply andb_prop in H. destruct H as [_ H].
      exact (IH _ H w b eq_refl Hl Hw).
  - induction s as [|x t IH]; intros H; [reflexivity|].
    cbn [hashFree]. apply andb_true_intro. split.
    + apply negb_true_iff. destruct (dash x) eqn:Hd; [|reflexivity].
      cbn [andb]. apply Nat.leb_gt.
      destruct (Nat.le_gt_cases 7 (hexrun t)) as [H7|H7]; [|exact H7].
      exfalso. destruct (hexrun_7 t H7) as (w & t' & -> & Hl & Hw & _).
      apply (H [] w t'); [|exact Hl|exact Hw].
      unfold dash, exactly in Hd. apply N.eqb_eq in Hd. now subst x.
    + apply IH. intros a w b -> Hl Hw. exact (H (x :: a) w b eq_refl Hl Hw).
Qed.

(** X16.  The normalised name never holds a hyphen followed by seven
    characters of [0-9a-f]: a table key that holds one, such as
    [claude-3-5-sonnet-20241022], is never the name that is looked up. *)
Theorem cleanName_has_no_hash (id : jsstring) :
  (forall a w b, cleanName id = a ++ 45%N :: w ++ b ->
                 length w = 7 -> forallb hex w = true -> False) /\
  (forall key, hashFree key = false -> cleanName id <> key) /\
  hashFree (js "claude-3-5-sonnet-20241022") = false.
Proof.
  split; [|split].
  - apply hashFree_spec, hashFree_cleanName.
  - intros key Hk E. rewrite <- E, hashFree_cleanName in Hk. discriminate.
  - reflexivity.
Qed.

Lemma cleanName_has_no_hash_witness :
  hashFree (js "gpt-4o-2024-08-06-abcdef01") = false /\
  cleanName (js "gpt-4o-2024-08-06-abcdef01") <> js "gpt-4o-2024-08-06-abcdef01".
Proof.
  split; [reflexivity|].
  apply (proj1 (proj2 (cleanName_has_no_hash (js "gpt-4o-2024-08-06-abcdef01")))).
  reflexivity.
Defined.

End HashProperties.

Module ShadowProperties.

Lemma includes_prefix (k x s : jsstring) :
  includes (k ++ x) s = true -> includes k s = true.
Proof.
  intros H. destruct (includes_inv _ _ H) as (a & b & ->).
  rewrite <- app_assoc. apply includes_app.
Qed.

Section Shadow.
Variable toLowerCase : jsstring -> jsstring.
Hypothesis lower_ascii : forall s, is_ascii s = true -> toLowerCase s = map ascii_lower s.

(** A key that extends another key occurs only where that key occurs. *)
Lemma longer_key_absent (k x key L : jsstring) :
  key = k ++ x -> is_ascii k = true -> is_ascii key = true ->
  includes (toLowerCase k) L = false ->
  includes (toLowerCase key) L = false.
Proof.
  intros -> Hk Hkx Hno.
  destruct (includes (toLowerCase (k ++ x)) L) eqn:E; [|reflexivity].
  rewrite (lower_ascii _ Hkx), map_app in E.
  apply includes_prefix in E. rewrite <- (lower_ascii _ Hk) in E. congruence.
Qed.

End Shadow.

(** X17.  The partial match returns the value of the first key, in table
    order, that occurs in the name, both in lower case, and nothing when no
    key occurs.  In the table of the first revision every longer key
    stands after a key that is its prefix, so only the values of [kimi],
    [k2p5], [claude], [gpt-4] and [gemini] are ever returned. *)
Theorem partial_match_first_key_wins (toLowerCase : jsstring -> jsstring) :
  (forall table name value,
      partialMatch toLowerCase table name = Some value <->
      exists before key after,
        table = before ++ (key, value) :: after /\
        includes (toLowerCase key) (toLowerCase name) = true /\
        (forall k v, In (k, v) before ->
                     includes (toLowerCase k) (toLowerCase name) = false)) /\
  (forall table name,
      partialMatch toLowerCase table name = None <->
      forall k v, In (k, v) table ->
                  includes (toLowerCase k) (toLowerCase name) = false) /\
  ((forall s, is_ascii s = true -> toLowerCase s = map ascii_lower s) ->
   forall name v,
     partialMatch toLowerCase knownModels name = Some v ->
     In v [js "Kimi"; js "K2.5"; js "Claude"; js "GPT-4"; js "Gemini"]).
Proof.
  split; [exact (partialMatch_first toLowerCase)|].
  split; [exact (partialMatch_none toLowerCase)|].
  intros lower_ascii name v.
  unfold knownModels. cbn [partialMatch].
  set (L := toLowerCase name).
  destruct (includes (toLowerCase (js "kimi")) L) eqn:E1;
    [intros H; inversion H; simpl; auto|].
  rewrite (longer_key_absent toLowerCase lower_ascii (js "kimi") (js "-for-coding") (js "kimi-for-coding") L eq_refl eq_refl eq_refl E1).
  destruct (includes (toLowerCase (js "k2p5")) L) eqn:E3;
    [intros H; inversion H; simpl; auto|].
  destruct (includes (toLowerCase (js "claude")) L) eqn:E4;
    [intros H; inversion H; simpl; auto|].
  rewrite (longer_key_absent toLowerCase lower_ascii (js "claude") (js "-3") (js "claude-3") L eq_refl eq_refl eq_refl E4).
  rewrite (longer_key_absent toLowerCase lower_ascii (js "claude") (js "-3-5-sonnet") (js "claude-3-5-sonnet") L eq_refl eq_refl eq_refl E4).
  rewrite (longer_key_absent toLowerCase lower_ascii (js "claude") (js "-3-5-sonnet-20241022") (js "claude-3-5-sonnet-20241022") L
             eq_refl eq_refl eq_refl E4).
  destruct (includes (toLowerCase (js "gpt-4")) L) eqn:E5;
    [intros H; inversion H; simpl; auto|].
  rewrite (longer_key_absent toLowerCase lower_ascii (js "gpt-4") (js "o") (js "gpt-4o") L eq_refl eq_refl eq_refl E5).
  rewrite (longer_key_absent toLowerCase lower_ascii (js "gpt-4") (js "o-mini") (js "gpt-4o-mini") L eq_refl eq_refl eq_refl E5).
  destruct (includes (toLowerCase (js "gemini")) L) eqn:E6;
    [intros H; inversion H; simpl; auto 6|].
  rewrite (longer_key_absent toLowerCase lower_ascii (js "gemini") (js "-pro") (js "gemini-pro") L eq_refl eq_refl eq_refl E6).
  rewrite (longer_key_absent toLowerCase lower_ascii (js "gemini") (js "-ultra") (js "gemini-ultra") L eq_refl eq_refl eq_refl E6).
  discriminate.
Qed.

Lemma partial_match_first_key_wins_witness :
  (forall s, is_ascii s = true -> map ascii_lower s = map ascii_lower s) /\
  partialMatch (map ascii_lower) knownModels (js "kimi-claude") = Some (js "Kimi") /\
  In (js "Kimi") [js "Kimi"; js "K2.5"; js "Claude"; js "GPT-4"; js "Gemini"].
Proof.
  split; [reflexivity|].
  assert (H : partialMatch (map ascii_lower) knownModels (js "kimi-claude")
              = Some (js "Kimi")).
  { apply (proj1 (partial_match_first_key_wins (map ascii_lower))
             knownModels (js "kimi-claude") (js "Kimi")).
    exists [], (js "kimi"), (tl knownModels).
    split; [reflexivity|]. split; [reflexivity|]. intros k v []. }
  split; [exact H|].
  exact (proj2 (proj2 (partial_match_first_key_wins (map ascii_lower)))
           (fun s _ => eq_refl) (js "kimi-claude") (js "Kimi") H).
Defined.

End ShadowProperties.

(* ===================================================================== *)
(** ** The tests of the command line *)
(* ===================================================================== *)

Module DetectionProperties.
Import Examples.

Section Inversion.
Variable input : jsstring.

Lemma matches_WordB_inv (st st' : mstate) :
  matches input WordB st st' ->
  st' = st /\
  xorb (is_word (char_before input (pos st))) (is_word (hd_error (rest st))) = true.
Proof. intros H. inversion H; subst. auto. Qed.

Lemma sameIgnoringCase_length (w text : jsstring) :
  sameIgnoringCase w text = true -> length text = length w.
Proof.
  revert text; induction w as [|p w IH]; intros [|c text] H; simpl in *;
    try discriminate; [reflexivity|].
  apply andb_true_iff in H as [_ H]. now rewrite (IH _ H).
Qed.

Lemma matches_liti_inv (w : jsstring) :
  forall st st',
    matches input (seqs (map (fun c => Chr (ignoring_case c)) w)) st st' ->
    exists text,
      sameIgnoringCase w text = true /\
      rest st = text ++ rest st' /\ pos st' = pos st + length text /\
      caps st' = caps st.
Proof.
  induction w as [|c w IH]; intros st st' H.
  - inversion H; subst. exists []. simpl. auto.
  - assert (Hone : forall st1,
              matches input (Chr (ignoring_case c)) st st1 ->
              exists x, ignoring_case c x = true /\
                        rest st = x :: rest st1 /\ pos st1 = S (pos st) /\
                        caps st1 = caps st).
    { intros st1 H1. now apply matches_Chr_inv in H1. }
    destruct w as [|c' w].
    + simpl in H. destruct (Hone _ H) as (x & Hx & Hr & Hp & Hc).
      exists [x]. simpl. rewrite Hx, Hr, Hp, Hc. repeat split; lia.
    + change (seqs (map (fun c => Chr (ignoring_case c)) (c :: c' :: w)))
        with (Seq (Chr (ignoring_case c))
                  (seqs (map (fun c => Chr (ignoring_case c)) (c' :: w)))) in H.
      apply matches_Seq_inv in H as (st1 & H1 & H2).
      destruct (Hone _ H1) as (x & Hx & Hr & Hp & Hc).
      destruct (IH _ _ H2) as (text & Ht & Hr' & Hp' & Hc').
      exists (x :: text). rewrite Hr, Hr', Hp', Hp, Hc', Hc.
      split; [|simpl; repeat split; lia].
      change (ignoring_case c x && sameIgnoringCase (c' :: w) text = true).
      now rewrite Hx, Ht.
Qed.

Lemma matches_liti_intro (w : jsstring) :
  forall text t cs p,
    sameIgnoringCase w text = true ->
    matches input (seqs (map (fun c => Chr (ignoring_case c)) w))
            (MState p (text ++ t) cs) (MState (p + length text) t cs).
Proof.
  induction w as [|c w IH]; intros [|x text] t cs p H; simpl in H; try discriminate.
  - simpl. rewrite Nat.add_0_r. constructor.
  - apply andb_true_iff in H as [Hx Ht].
    assert (Hone : matches input (Chr (ignoring_case c))
                           (MState p (x :: text ++ t) cs) (MState (S p) (text ++ t) cs))
      by now constructor.
    destruct w as [|c' w].
    + destruct text; [|discriminate]. simpl.
      replace (p + 1) with (S p) by lia. exact Hone.
    + change (seqs (map (fun c => Chr (ignoring_case c)) (c :: c' :: w)))
        with (Seq (Chr (ignoring_case c))
                  (seqs (map (fun c => Chr (ignoring_case c)) (c' :: w)))).
      eapply M_Seq; [exact Hone|].
      replace (p + length (x :: text)) with (S p + length text) by (simpl; lia).
      now apply IH.
Qed.

End Inversion.

Lemma char_before_skipn (C : jsstring) (i : nat) (u : jsstring) (x : N) (r : jsstring) :
  skipn i C = u ++ x :: r -> char_before C (i + length u + 1) = Some x.
Proof.
  intros H. replace (i + length u + 1) with (S (i + length u)) by lia. simpl.
  rewrite <- nth_error_skipn, H, nth_error_app2 by lia.
  now rewrite Nat.sub_diag.
Qed.

(** A text that reads [commit] up to case ends on a letter. *)
Lemma sameIgnoringCase_last (p : N) (w text : jsstring) :
  sameIgnoringCase (w ++ [p]) text = true ->
  exists u x, text = u ++ [x] /\ ignoring_case p x = true.
Proof.
  revert text. induction w as [|q w IH]; intros [|c text] H; simpl in H; try discriminate.
  - destruct text; [|rewrite andb_false_r in H; discriminate].
    rewrite andb_true_r in H. now exists [], c.
  - apply andb_true_iff in H as [_ H].
    destruct (IH _ H) as (u & x & -> & Hx). now exists (c :: u), x.
Qed.

Lemma commit_ends_on_word (c : jsstring) :
  sameIgnoringCase (js "commit") c = true ->
  exists u x, c = u ++ [x] /\ word_char x = true.
Proof.
  intros H. change (js "commit") with (js "commi" ++ [116%N]) in H.
  apply sameIgnoringCase_last in H as (u & x & -> & Hx).
  exists u, x. split; [reflexivity|].
  apply ignoring_case_cases in Hx as [-> | ->]; reflexivity.
Qed.

(** X18.  The test for a commit command answers yes exactly when [git] and
    [commit], in any case and with white space between them, stand in the
    command line with no word character after. *)
Theorem git_commit_detection (C : jsstring) :
  test gitCommitRegex C = true <-> gitCommitOccurs C.
Proof.
  split.
  - intros H. apply test_true in H as (i & e & _ & Hm).
    unfold gitCommitRegex in Hm. cbn [seqs] in Hm.
    apply matches_Seq_inv in Hm as ([p1 r1 c1] & H1 & Hm).
    apply matches_liti_inv in H1 as (g & Hg & Hr1 & Hp1 & _).
    apply matches_Seq_inv in Hm as ([p2 r2 c2] & H2 & Hm).
    unfold plus in H2.
    apply matches_Seq_inv in H2 as ([p2' r2' c2'] & H2 & H2s).
    apply matches_Chr_inv in H2 as (x & Hx & Hr2 & Hp2 & _).
    apply matches_Star_inv in H2s as (w & Hw & Hr2' & Hp2' & _).
    apply matches_Seq_inv in Hm as ([p3 r3 c3] & H3 & Hm).
    apply matches_liti_inv in H3 as (c & Hc & Hr3 & Hp3 & _).
    apply matches_WordB_inv in Hm as (-> & Hb).
    simpl in *. subst.
    assert (Hs : skipn i C = g ++ (x :: w) ++ c ++ r3).
    { rewrite Hr1. simpl. reflexivity. }
    exists (firstn i C), g, (x :: w), c, r3.
    split; [rewrite <- Hs; symmetry; apply firstn_skipn|].
    split; [assumption|]. split; [discriminate|].
    split; [change (space x && forallb space w = true); now rewrite Hx, Hw|].
    split; [assumption|].
    destruct (commit_ends_on_word c Hc) as (u & y & -> & Hy).
    assert (Hprev : char_before C (i + length g + 1 + length w + length (u ++ [y])) = Some y).
    { rewrite length_app. simpl length.
      replace (i + length g + 1 + length w + (length u + 1))
        with (i + length (g ++ (x :: w) ++ u) + 1)
        by (repeat (rewrite length_app; simpl length); lia).
      apply (char_before_skipn C i _ y r3).
      rewrite Hs. repeat rewrite <- app_assoc. simpl.
      repeat rewrite <- app_assoc. reflexivity. }
    replace (S (i + length g) + length w + length (u ++ [y]))
      with (i + length g + 1 + length w + length (u ++ [y])) in Hb by lia.
    rewrite Hprev in Hb. simpl in Hb. rewrite Hy in Hb.
    unfold startsWithWord. now destruct (is_word (hd_error r3)).
  - intros (before & g & ws & c & after & -> & Hg & Hne & Hws & Hc & Hafter).
    destruct ws as [|x w]; [contradiction|].
    simpl in Hws. apply andb_true_iff in Hws as [Hx Hw].
    set (C := before ++ g ++ (x :: w) ++ c ++ after).
    set (p := length before).
    apply (test_complete _ C p
             (MState (p + length g + 1 + length w + length c) after [])).
    + unfold C, p. rewrite length_app. lia.
    + unfold C at 2. unfold p at 2. rewrite skipn_middle.
      unfold gitCommitRegex. cbn [seqs].
      eapply M_Seq; [now apply matches_liti_intro|].
      eapply M_Seq.
      { unfold plus. eapply M_Seq; [now apply M_Chr|]. now apply M_Star. }
      replace (p + length g + 1 + length w + length c)
        with (S (p + length g) + length w + length c) by lia.
      eapply M_Seq; [now apply matches_liti_intro|].
      apply M_WordB. cbn [pos rest].
      destruct (commit_ends_on_word c Hc) as (u & y & Ec & Hy).
      assert (Hprev : char_before C (S (p + length g) + length w + length c) = Some y).
      { rewrite Ec, length_app. simpl length.
        replace (S (p + length g) + length w + (length u + 1))
          with (0 + length (before ++ g ++ (x :: w) ++ u) + 1)
          by (repeat (rewrite length_app; simpl length); unfold p; lia).
        apply (char_before_skipn C 0 _ y after). simpl.
        unfold C. rewrite Ec. repeat rewrite <- app_assoc. simpl.
        repeat rewrite <- app_assoc. reflexivity. }
      rewrite Hprev. simpl. rewrite Hy. unfold startsWithWord in Hafter.
      now rewrite Hafter.
Qed.

Lemma git_commit_detection_witness :
  test gitCommitRegex fixBug = true /\ gitCommitOccurs fixBug.
Proof.
  split; [reflexivity|].
  apply (proj1 (git_commit_detection fixBug)); reflexivity.
Defined.

Lemma test_Alt (a b : regex) (s : jsstring) :
  test (Alt a b) s = true <-> test a s = true \/ test b s = true.
Proof.
  split.
  - intros H. apply test_true in H as (i & e & Hi & Hm).
    apply matches_Alt_inv in Hm as [Hm|Hm]; [left|right];
      exact (test_complete _ _ i e Hi Hm).
  - intros [H|H]; apply test_true in H as (i & e & Hi & Hm);
      apply (test_complete _ _ i e Hi); [now apply M_AltL|now apply M_AltR].
Qed.

(** A flag pattern: one character of a class, a word up to case, one
    character of a class. *)
Lemma flag_word_iff (a c : cset) (w s : jsstring) :
  test (seqs [Chr a; seqs (map (fun c => Chr (ignoring_case c)) w); Chr c]) s = true <->
  exists before x f d after,
    s = before ++ x :: f ++ d :: after /\
    a x = true /\ sameIgnoringCase w f = true /\ c d = true.
Proof.
  cbn [seqs]. split.
  - intros H. apply test_true in H as (i & e & _ & Hm).
    apply matches_Seq_inv in Hm as (st1 & H1 & H2).
    apply matches_Chr_inv in H1 as (x & Hx & Hr1 & _).
    apply matches_Seq_inv in H2 as (st2 & H3 & H4).
    apply matches_liti_inv in H3 as (f & Hf & Hr2 & _).
    apply matches_Chr_inv in H4 as (d & Hd & Hr3 & _).
    simpl in Hr1. exists (firstn i s), x, f, d, (rest e).
    repeat split; try assumption.
    rewrite <- (firstn_skipn i s) at 1. congruence.
  - intros (before & x & f & d & after & -> & Hx & Hf & Hd).
    apply (test_complete _ _ (length before)
             (MState (S (S (length before) + length f)) after [])).
    + rewrite length_app. lia.
    + rewrite skipn_middle.
      eapply M_Seq; [now apply M_Chr|].
      eapply M_Seq; [now apply matches_liti_intro|].
      now apply M_Chr.
Qed.

Lemma quoteChar_cases (d : N) : quoteChar d = true <-> d = dquote \/ d = squote.
Proof.
  unfold quoteChar, one_of, none. simpl. rewrite !orb_false_r, orb_true_iff, !N.eqb_eq.
  tauto.
Qed.

(** X19.  The test for a message flag answers yes exactly when white space
    is followed by [-m] before white space or a quote character, or by
    [--message] before [=] or white space, the flag in any case. *)
Theorem message_flag_detection (C : jsstring) :
  test messageFlagRegex C = true <-> messageFlagOccurs C.
Proof.
  unfold messageFlagRegex, messageFlagOccurs, liti.
  rewrite !test_Alt, !flag_word_iff. split.
  - intros [H|[H|H]]; destruct H as (before & x & f & d & after & Hs & Hx & Hf & Hd);
      exists before, x, f, d, after; (split; [exact Hs|]); (split; [exact Hx|]).
    + left. split; [exact Hf|]. now left.
    + left. split; [exact Hf|]. right. now apply quoteChar_cases.
    + right. split; [exact Hf|]. unfold one_of in Hd. simpl in Hd.
      rewrite orb_false_r in Hd. apply orb_true_iff in Hd as [Hd|Hd];
        [left; now apply N.eqb_eq|now right].
  - intros (before & x & f & d & after & Hs & Hx & [[Hf Hd]|[Hf Hd]]).
    + destruct Hd as [Hd|Hd].
      * left. exists before, x, f, d, after. auto.
      * right. left. exists before, x, f, d, after. repeat split; try assumption.
        now apply quoteChar_cases.
    + right. right. exists before, x, f, d, after. repeat split; try assumption.
      unfold one_of. simpl. rewrite orb_false_r.
      destruct Hd as [-> | Hd]; [reflexivity|].
      unfold space. rewrite Hd. apply orb_true_r.
Qed.

Lemma message_flag_detection_witness :
  test messageFlagRegex fixBug = true /\ messageFlagOccurs fixBug.
Proof.
  split; [reflexivity|].
  apply (proj1 (message_flag_detection fixBug)); reflexivity.
Defined.

Lemma matches_plus_inv (input : jsstring) (c : cset) (st st' : mstate) :
  matches input (plus c) st st' ->
  exists ws, ws <> [] /\ forallb c ws = true /\
             rest st = ws ++ rest st' /\ pos st' = pos st + length ws /\
             caps st' = caps st.
Proof.
  unfold plus. intros H.
  apply matches_Seq_inv in H as (st1 & H1 & H2).
  apply matches_Chr_inv in H1 as (x & Hx & Hr1 & Hp1 & Hc1).
  apply matches_Star_inv in H2 as (w & Hw & Hr2 & Hp2 & Hc2).
  exists (x :: w). split; [discriminate|]. simpl. rewrite Hx, Hw, Hr1, Hr2, Hp2, Hp1, Hc2, Hc1.
  repeat split; lia.
Qed.

Lemma matches_plus_intro (input : jsstring) (c : cset) (ws t : jsstring)
      (p : nat) (cs : list (nat * (nat * nat))) :
  ws <> [] -> forallb c ws = true ->
  matches input (plus c) (MState p (ws ++ t) cs) (MState (p + length ws) t cs).
Proof.
  destruct ws as [|x w]; [contradiction|]. intros _ H. simpl in H.
  apply andb_true_iff in H as [Hx Hw]. unfold plus.
  eapply M_Seq; [now apply M_Chr|].
  replace (p + length (x :: w)) with (S p + length w) by (simpl; lia).
  now apply M_Star.
Qed.

Lemma verb_ends_on_word (verb : jsstring) :
  sameIgnoringCase (js "create") verb = true \/
  sameIgnoringCase (js "comment") verb = true \/
  sameIgnoringCase (js "review") verb = true ->
  exists u x, verb = u ++ [x] /\ word_char x = true.
Proof.
  intros [H|[H|H]].
  - change (js "create") with (js "creat" ++ [101%N]) in H.
    apply sameIgnoringCase_last in H as (u & x & -> & Hx). exists u, x.
    split; [reflexivity|]. apply ignoring_case_cases in Hx as [-> | ->]; reflexivity.
  - change (js "comment") with (js "commen" ++ [116%N]) in H.
    apply sameIgnoringCase_last in H as (u & x & -> & Hx). exists u, x.
    split; [reflexivity|]. apply ignoring_case_cases in Hx as [-> | ->]; reflexivity.
  - change (js "review") with (js "revie" ++ [119%N]) in H.
    apply sameIgnoringCase_last in H as (u & x & -> & Hx). exists u, x.
    split; [reflexivity|]. apply ignoring_case_cases in Hx as [-> | ->]; reflexivity.
Qed.

(** X20.  [isGhCommandWithBody] answers yes exactly when [gh], then [pr]
    or [issue], then [create], [comment] or [review] stand in the command
    line, in any case and with white space between them, with no word
    character after. *)
Theorem gh_command_detection (C : jsstring) :
  isGhCommandWithBody C = true <-> ghCommandOccurs C.
Proof.
  unfold isGhCommandWithBody. split.
  - intros H. apply test_true in H as (i & e & _ & Hm).
    unfold ghRegex, liti in Hm. cbn [seqs] in Hm.
    apply matches_Seq_inv in Hm as ([p1 r1 c1] & H1 & Hm).
    apply matches_liti_inv in H1 as (g & Hg & Hr1 & Hp1 & _).
    apply matches_Seq_inv in Hm as ([p2 r2 c2] & H2 & Hm).
    apply matches_plus_inv in H2 as (ws1 & Hne1 & Hws1 & Hr2 & Hp2 & _).
    apply matches_Seq_inv in Hm as (st3 & H3 & Hm).
    apply matches_Group_inv in H3 as ([p3 r3 c3] & H3 & ->).
    assert (Hnoun : exists noun,
               (sameIgnoringCase (js "pr") noun = true \/
                sameIgnoringCase (js "issue") noun = true) /\
               r2 = noun ++ r3 /\ p3 = p2 + length noun).
    { apply matches_Alt_inv in H3 as [H3|H3];
        apply matches_liti_inv in H3 as (noun & Hn & Hr3 & Hp3 & _);
        exists noun; simpl in *; auto. }
    destruct Hnoun as (noun & Hnoun & Hr3 & Hp3).
    apply matches_Seq_inv in Hm as ([p4 r4 c4] & H4 & Hm).
    apply matches_plus_inv in H4 as (ws2 & Hne2 & Hws2 & Hr4 & Hp4 & _).
    apply matches_Seq_inv in Hm as (st5 & H5 & Hm).
    apply matches_Group_inv in H5 as ([p5 r5 c5] & H5 & ->).
    assert (Hverb : exists verb,
               (sameIgnoringCase (js "create") verb = true \/
                sameIgnoringCase (js "comment") verb = true \/
                sameIgnoringCase (js "review") verb = true) /\
               r4 = verb ++ r5 /\ p5 = p4 + length verb).
    { apply matches_Alt_inv in H5 as [H5|H5];
        [|apply matches_Alt_inv in H5 as [H5|H5]];
        apply matches_liti_inv in H5 as (verb & Hv & Hr5 & Hp5 & _);
        exists verb; simpl in *; auto. }
    destruct Hverb as (verb & Hverb & Hr5 & Hp5).
    apply matches_WordB_inv in Hm as (-> & Hb).
    simpl in *. subst.
    exists (firstn i C), g, ws1, noun, ws2, verb, r5.
    split; [rewrite <- Hr1; symmetry; apply firstn_skipn|].
    repeat (split; [assumption|]).
    destruct (verb_ends_on_word _ Hverb) as (u & y & -> & Hy).
    assert (Hprev : char_before C (i + length g + length ws1 + length noun
                                   + length ws2 + length (u ++ [y])) = Some y).
    { replace (i + length g + length ws1 + length noun + length ws2 + length (u ++ [y]))
        with (i + length (g ++ ws1 ++ noun ++ ws2 ++ u) + 1)
        by (repeat (rewrite length_app; simpl length); lia).
      apply (char_before_skipn C i _ y r5).
      rewrite Hr1. repeat rewrite <- app_assoc. reflexivity. }
    rewrite Hprev in Hb. simpl in Hb. rewrite Hy in Hb.
    unfold startsWithWord. now destruct (is_word (hd_error r5)).
  - intros (before & g & ws1 & noun & ws2 & verb & after & -> & Hg & Hne1 & Hws1
            & Hnoun & Hne2 & Hws2 & Hverb & Hafter).
    set (C := before ++ g ++ ws1 ++ noun ++ ws2 ++ verb ++ after).
    set (p := length before).
    eapply (test_complete _ C p).
    + unfold C, p. rewrite length_app. lia.
    + unfold C at 2. unfold p at 2. rewrite skipn_middle.
      unfold ghRegex, liti. cbn [seqs].
      eapply M_Seq; [now apply matches_liti_intro|].
      eapply M_Seq; [now apply matches_plus_intro|].
      eapply M_Seq.
      { apply (M_Group C 1 _ (MState (p + length g + length ws1)
                                     (noun ++ ws2 ++ verb ++ after) [])
                       (MState (p + length g + length ws1 + length noun)
                               (ws2 ++ verb ++ after) [])).
        destruct Hnoun as [Hn|Hn]; [apply M_AltL|apply M_AltR];
          now apply matches_liti_intro. }
      cbn [pos rest caps].
      eapply M_Seq; [now apply matches_plus_intro|].
      eapply M_Seq.
      { match goal with
        | |- matches _ _ (MState ?q _ ?cs) _ =>
            apply (M_Group C 2 _ (MState q (verb ++ after) cs)
                           (MState (q + length verb) after cs))
        end.
        destruct Hverb as [Hv|[Hv|Hv]];
          [apply M_AltL|apply M_AltR; apply M_AltL|apply M_AltR; apply M_AltR];
          now apply matches_liti_intro. }
      cbn [pos rest caps].
      apply M_WordB. cbn [pos rest].
      destruct (verb_ends_on_word _ Hverb) as (u & y & Ev & Hy).
      assert (Hprev : char_before C (p + length g + length ws1 + length noun
                                     + length ws2 + length verb) = Some y).
      { rewrite Ev.
        replace (p + length g + length ws1 + length noun + length ws2 + length (u ++ [y]))
          with (0 + length (before ++ g ++ ws1 ++ noun ++ ws2 ++ u) + 1)
          by (repeat (rewrite length_app; simpl length); unfold p; lia).
        apply (char_before_skipn C 0 _ y after). simpl.
        unfold C. rewrite Ev. repeat rewrite <- app_assoc. reflexivity. }
      rewrite Hprev. simpl. rewrite Hy. unfold startsWithWord in Hafter.
      now rewrite Hafter.
Qed.

Lemma gh_command_detection_witness :
  isGhCommandWithBody prCreate = true /\ ghCommandOccurs prCreate.
Proof.
  split; [reflexivity|].
  apply (proj1 (gh_command_detection prCreate)); reflexivity.
Defined.

End DetectionProperties.

(* ===================================================================== *)
(** ** The session *)
(* ===================================================================== *)

Module SessionProperties.

(** X21.  After any number of chat messages the hook [chat.message] has
    left in [currentModel] the display name of the last model that a
    message carried, and the value it started with when no message carried
    one: a message without a model, or with the empty string, changes
    nothing. *)
Theorem chat_message_last_model_wins (toLowerCase toUpperCase : jsstring -> jsstring)
        (models : list ModelIdentity) (currentModel : display) :
  fold_left (chat_message toLowerCase toUpperCase) models currentModel
  = match lastGiven models with
    | Some model => formatModelName toLowerCase toUpperCase model
    | None => currentModel
    end.
Proof.
  revert currentModel. induction models as [|m models IH]; intros currentModel.
  - reflexivity.
  - cbn [fold_left lastGiven]. rewrite IH.
    destruct (lastGiven models); [reflexivity|].
    unfold chat_message. now destruct (modelGiven m).
Qed.

End SessionProperties.
